(** * DaSHLab-Induction: the distributed log analyser

    A shallow embedding of [src/implementation/stage2/distributed_log_analyzer.py]
    (with the per-file scan it shares with [src/implementation/base_log_analyzer.py])
    and the properties of its master/worker protocol.

    Conventions of the embedding
    - a Python [dict] of level counts is a [gmap string Z]; whether the object
      is a [defaultdict(int)] or a plain [dict] is kept next to it, because
      [merge_counts] behaves differently on the two;
    - the lists [maps], [timers], [log_files], [results] are Rocq lists;
      [maps[i]] is [0] for a pending file, [-1] for a finished one and the
      rank of the worker holding it otherwise;
    - a Python exception ([KeyError], [IndexError], [ValueError]) is [None] in
      the [option] monad;
    - [time.time()] is an input of every step; clock values are integers in
      the unit of the source's constants, so that [5.0] reads [5];
    - MPI sends are appended to an outbox, in program order. *)

From stdpp Require Import gmap strings list fin_maps sorting pretty.
From Stdlib Require Import ZArith Lia Ascii.

Open Scope Z_scope.

(* ================================================================== *)
(** * Part I.  Definitions                                             *)
(* ================================================================== *)

(** ** Level counts and the per-file scan *)

(** [needle in hay] on Python strings. *)
Fixpoint contains (needle hay : string) : bool :=
  String.prefix needle hay
  || match hay with
     | EmptyString => false
     | String _ rest => contains needle rest
     end.

(** [counts[level] += 1] on a [defaultdict(int)]. *)
Definition incr (level : string) (counts : gmap string Z) : gmap string Z :=
  <[level := default 0 (counts !! level) + 1]> counts.

(** The body of [for line in f] in [analyse_log_file]. *)
Definition scan_line (counts : gmap string Z) (line : string) : gmap string Z :=
  if contains "[INFO]" line then incr "INFO" counts
  else if contains "[WARN]" line || contains "[WARNING]" line then incr "WARN" counts
  else if contains "[ERROR]" line then incr "ERROR" counts
  else if contains "[DEBUG]" line then incr "DEBUG" counts
  else counts.

(** The levels in the order the scan tests them, each with its markers, and
    the first level of that order with a marker in the line. *)
Definition level_markers : list (string * list string) :=
  [("INFO", ["[INFO]"]); ("WARN", ["[WARN]"; "[WARNING]"]);
   ("ERROR", ["[ERROR]"]); ("DEBUG", ["[DEBUG]"])]%string.

Definition earliest_level (line : string) : option string :=
  fst <$> head (filter (λ lm, Exists (λ mk, contains mk line = true) lm.2) level_markers).

(** The files on disk: a path maps to the lines [for line in f] yields
    (when reading fails midway, those yielded before the failure: the counts
    made so far are what is returned).  A path that is absent cannot be
    opened: the [except] branch prints and the empty [defaultdict] is
    returned. *)
Definition analyse_log_file (disk : gmap string (list string)) (filepath : string)
  : gmap string Z :=
  match disk !! filepath with
  | Some lines => foldl scan_line ∅ lines
  | None => ∅
  end.

(** The sum of the values of a counts dictionary. *)
Definition sum_counts (counts : gmap string Z) : Z :=
  map_fold (λ _ v acc, v + acc) 0 counts.

(** A counts object as Python sees it: [default_factory] tells a
    [defaultdict(int)] from a plain [dict] (what [json.load] returns). *)
Record PyDict := mkPyDict {
  default_factory : bool;
  items : gmap string Z
}.

Definition defaultdict_int : PyDict := mkPyDict true ∅.

(** [total_counts[level] += count]: reads [total_counts[level]] first, which
    raises [KeyError] on a plain dict without the key and yields [0] on a
    [defaultdict(int)]. *)
Definition add_level (total : PyDict) (level : string) (count : Z) : option PyDict :=
  match items total !! level with
  | Some v => Some (mkPyDict (default_factory total) (<[level := v + count]> (items total)))
  | None =>
      if default_factory total
      then Some (mkPyDict true (<[level := 0 + count]> (items total)))
      else None
  end.

(** [merge_counts(total_counts, new_counts)]. *)
Definition merge_counts (total : PyDict) (new_counts : gmap string Z) : option PyDict :=
  foldl (λ acc kv, t ← acc; add_level t kv.1 kv.2) (Some total) (map_to_list new_counts).

(** [for result in results: merge_counts(total, new_counts=result)]. *)
Definition merge_all (total : PyDict) (results : list (gmap string Z)) : option PyDict :=
  foldl (λ acc r, t ← acc; merge_counts t r) (Some total) results.

(** ** Counts, level by level *)

(** The count a dictionary gives a level, absent levels counting 0. *)
Definition level_count (counts : gmap string Z) (level : string) : Z :=
  default 0 (counts !! level).

(** The sum of the counts a list of results gives a level. *)
Definition level_total (rs : list (gmap string Z)) (level : string) : Z :=
  foldr (λ r acc, level_count r level + acc) 0 rs.

(** The same sum over the items of one dictionary. *)
Definition pairs_count (kvs : list (string * Z)) (level : string) : Z :=
  foldr (λ kv acc, (if decide (kv.1 = level) then kv.2 else 0) + acc) 0 kvs.

(** ** Python list access *)

(** The position [l[i]] denotes: negative indices count from the end, and an
    index outside [-len(l) .. len(l)-1] raises [IndexError]. *)
Definition py_index {A} (l : list A) (i : Z) : option nat :=
  if (0 <=? i) && (i <? Z.of_nat (length l)) then Some (Z.to_nat i)
  else if (i <? 0) && (- Z.of_nat (length l) <=? i) then Some (Z.to_nat (Z.of_nat (length l) + i))
  else None.

(** [l[i] = x]. *)
Definition py_setitem {A} (l : list A) (i : Z) (x : A) : option (list A) :=
  k ← py_index l i; Some (<[k := x]> l).

(** [l.index(x)]: the first position holding [x]; [ValueError] when absent. *)
Fixpoint py_list_index (x : Z) (l : list Z) : option nat :=
  match l with
  | [] => None
  | y :: l' => if y =? x then Some 0%nat else S <$> py_list_index x l'
  end.

(** ** Messages, checkpoints and the master's variables *)

(** What rank 0 sends: a command (tag 1), a list of [{"file", "index"}]
    entries, or the stop signal [None] (tag 3). *)
Inductive Payload :=
  | Dispatch (command : list (string * nat))
  | Stop.

#[global] Instance Payload_eq_dec : EqDecision Payload.
Proof. solve_decision. Defined.

(** What a worker sends back (tag 2):
    [{"result": [...], "index": [...], "worker": rank}]. *)
Record Completion := mkCompletion {
  c_result : list (gmap string Z);
  c_index : list nat;
  c_worker : Z
}.

(** The content of [checkpoint/checkpoint.json]. *)
Record Checkpoint := mkCheckpoint {
  ck_timestamp : Z;
  ck_counts : gmap string Z;
  ck_processed_files : list string;
  ck_pending_files : list string
}.

(** The local variables of [main] on rank 0, the messages sent so far and the
    checkpoint on disk. *)
Record Master := mkMaster {
  size : nat;
  log_files : list string;
  maps : list Z;
  total_counts : PyDict;
  recieved : nat;
  results : list (gmap string Z);
  timers : list Z;
  checkpointer : Z;
  outbox : list (Z * Payload);
  store : option Checkpoint
}.

Definition set_maps (f : list Z → list Z) (s : Master) : Master :=
  mkMaster (size s) (log_files s) (f (maps s)) (total_counts s) (recieved s)
    (results s) (timers s) (checkpointer s) (outbox s) (store s).

Definition set_timers (f : list Z → list Z) (s : Master) : Master :=
  mkMaster (size s) (log_files s) (maps s) (total_counts s) (recieved s)
    (results s) (f (timers s)) (checkpointer s) (outbox s) (store s).

Definition send (to : Z) (p : Payload) (s : Master) : Master :=
  mkMaster (size s) (log_files s) (maps s) (total_counts s) (recieved s)
    (results s) (timers s) (checkpointer s) (outbox s ++ [(to, p)]) (store s).

Definition set_total_counts (d : PyDict) (s : Master) : Master :=
  mkMaster (size s) (log_files s) (maps s) d (recieved s)
    (results s) (timers s) (checkpointer s) (outbox s) (store s).

Definition set_checkpointer (t : Z) (s : Master) : Master :=
  mkMaster (size s) (log_files s) (maps s) (total_counts s) (recieved s)
    (results s) (timers s) t (outbox s) (store s).

(** [save_checkpoint(data, [], "checkpoint")] run to its end: the folder holds
    [data] and nothing else. *)
Definition save_checkpoint (data : Checkpoint) (s : Master) : Master :=
  mkMaster (size s) (log_files s) (maps s) (total_counts s) (recieved s)
    (results s) (timers s) (checkpointer s) (outbox s) (Some data).

(** [recieved += len(result["result"]); results.extend(result["result"])]. *)
Definition record_results (rs : list (gmap string Z)) (s : Master) : Master :=
  mkMaster (size s) (log_files s) (maps s) (total_counts s)
    (recieved s + length rs)%nat (results s ++ rs) (timers s) (checkpointer s)
    (outbox s) (store s).

(** ** Start-up: discovery or resume (lines 105-131) *)

(** [found] is the list [os.path.join(log_dir, f)] for the [.log] entries of
    the directory, [on_disk] the checkpoint file if there is one.  [None] is
    [sys.exit(1)] on an empty work list.  The variables the source creates
    later ([timers], [results], [checkpointer]) are given their initial
    values here. *)
Definition setup (sz : nat) (on_disk : option Checkpoint) (found : list string)
  : option Master :=
  let s :=
    match on_disk with
    | Some ck =>
        mkMaster sz (ck_processed_files ck ++ ck_pending_files ck)
          (replicate (length (ck_processed_files ck)) (-1)
           ++ replicate (length (ck_pending_files ck)) 0)
          (mkPyDict false (ck_counts ck))
          (length (ck_processed_files ck)) [] (replicate sz 0) 0 [] on_disk
    | None =>
        mkMaster sz found (replicate (length found) 0) defaultdict_int
          0 [] (replicate sz 0) 0 [] None
    end in
  if bool_decide (log_files s = []) then None else Some s.

(** ** Initial dispatch (lines 140-167) *)

(** The loop collecting [first_indices]: the positions of the pending files,
    in order, left by [break] as soon as [cap] of them are collected. *)
Fixpoint first_indices_from (i : nat) (cap : nat) (collected : nat) (ms : list Z)
  : list nat :=
  match ms with
  | [] => []
  | m :: ms' =>
      if m =? 0 then
        i :: (if (S collected =? cap)%nat then []
              else first_indices_from (S i) cap (S collected) ms')
      else first_indices_from (S i) cap collected ms'
  end.

Definition first_indices (sz : nat) (ms : list Z) : list nat :=
  first_indices_from 0 (10 * (sz - 1)) 0 ms.

(** The entries [first_indices[(i-1)*10+j]], [j] in [range(10)], that exist. *)
Definition initial_batch (i : nat) (fi : list nat) : list nat :=
  omap (λ j, fi !! ((i - 1) * 10 + j)%nat) (seq 0 10).

(** [[{"file": log_files[k], "index": k} for k in batch]]. *)
Definition make_command (files : list string) (batch : list nat)
  : option (list (string * nat)) :=
  mapM (λ k, f ← files !! k; Some (f, k)) batch.

(** [maps[k] = w] for each [k] of the batch, in turn. *)
Definition mark_batch (w : Z) (batch : list nat) (ms : list Z) : option (list Z) :=
  foldl (λ acc k, m ← acc; if bool_decide (k < length m)%nat then Some (<[k := w]> m) else None)
        (Some ms) batch.

(** One turn of [for i in range(1, size)]; [clock i] is the time read after
    the send to rank [i]. *)
Definition dispatch_to (fi : list nat) (clock : nat → Z) (s : Master) (i : nat)
  : option Master :=
  let batch := initial_batch i fi in
  command ← make_command (log_files s) batch;
  let s1 := send (Z.of_nat i) (Dispatch command) s in
  ts ← py_setitem (timers s1) (Z.of_nat i - 1) (clock i);
  ms ← mark_batch (Z.of_nat i) batch (maps s1);
  Some (set_maps (λ _, ms) (set_timers (λ _, ts) s1)).

(** [clock i] is the time read when the batch of rank [i] is sent, [t_loop]
    the time read into [checkpointer] before the loop. *)
Definition initial_dispatch (clock : nat → Z) (t_loop : Z) (s : Master) : option Master :=
  let fi := first_indices (size s) (maps s) in
  s' ← foldl (λ acc i, a ← acc; dispatch_to fi clock a i) (Some s) (seq 1 (size s - 1));
  Some (set_checkpointer t_loop s').

(** ** The monitoring loop (lines 169-227) *)

(** [while 0 in maps or recieved < len(log_files)]. *)
Definition loop_cond (s : Master) : bool :=
  bool_decide (0 ∈ maps s) || bool_decide (recieved s < length (log_files s))%nat.

(** The two file lists of a checkpoint: [log_files[i]] goes to the first one
    when [maps[i] == -1] and to the second one otherwise, for [i] in
    [range(len(maps))]; a position without a file is an [IndexError]. *)
Fixpoint snapshot_files (ms : list Z) (files : list string)
  : option (list string * list string) :=
  match ms, files with
  | [], _ => Some ([], [])
  | _ :: _, [] => None
  | m :: ms', f :: files' =>
      '(completed_files, todo_files) ← snapshot_files ms' files';
      if m =? -1 then Some (f :: completed_files, todo_files)
      else Some (completed_files, f :: todo_files)
  end.

(** The periodic checkpoint (lines 176-193): the counts are those of the
    results received in this run. *)
Definition periodic_checkpoint (t_stamp : Z) (s : Master) : option Master :=
  curr_counts ← merge_all defaultdict_int (results s);
  '(completed_files, todo_files) ← snapshot_files (maps s) (log_files s);
  Some (save_checkpoint
          (mkCheckpoint t_stamp (items curr_counts) completed_files todo_files) s).

(** [for i in range(len(maps)): if maps[i] == w: maps[i] = 0]. *)
Definition reclaim (w : Z) (ms : list Z) : list Z :=
  (λ m, if m =? w then 0 else m) <$> ms.

(** The test of line 197. *)
Definition expired (curr t : Z) : bool := (5 <? curr - t) && (0 <? t).

(** The body of [for t in timers] at position [k] of the list. *)
Definition timeout_at (curr : Z) (s : Master) (k : nat) : option Master :=
  t ← timers s !! k;
  if expired curr t then
    j ← py_list_index t (timers s);
    let s1 := send (Z.of_nat j + 1) Stop s in
    let s2 := set_maps (reclaim (Z.of_nat j + 1)) s1 in
    j' ← py_list_index t (timers s2);
    Some (set_timers (λ ts, <[j' := 0]> ts) s2)
  else Some s.

Definition timeout_scan (curr : Z) (s : Master) : option Master :=
  foldl (λ acc k, a ← acc; timeout_at curr a k) (Some s) (seq 0 (length (timers s))).

(** The clock readings of an iteration without a message: lines 173, 174,
    188 and 194. *)
Record IdleClock := mkIdleClock {
  t_check : Z;
  t_mark : Z;
  t_stamp : Z;
  t_scan : Z
}.

(** The branch [if not completed] (lines 171-204). *)
Definition on_idle (clk : IdleClock) (s : Master) : option Master :=
  s1 ← (if 5 <? t_check clk - checkpointer s
        then periodic_checkpoint (t_stamp clk) (set_checkpointer (t_mark clk) s)
        else Some s);
  timeout_scan (t_scan clk) s1.

(** [maps = [-1 if i in result["index"] else maps[i] for i in range(len(maps))]]. *)
Definition complete (index : list nat) (ms : list Z) : list Z :=
  imap (λ i m, if bool_decide (i ∈ index) then -1 else m) ms.

(** The loop of lines 218-224: at most [room] positions of pending files,
    lowest first; [i] is the position of the head of [ms]. *)
Fixpoint next_files_from (i : nat) (room : nat) (ms : list Z) : list nat :=
  match room, ms with
  | O, _ => []
  | _, [] => []
  | S room', m :: ms' =>
      if m =? 0 then i :: next_files_from (S i) room' ms'
      else next_files_from (S i) room ms'
  end.

Definition next_files (ms : list Z) : list nat := next_files_from 0 10 ms.

(** [maps = [maps[i] if i not in next_files else w for i in range(len(maps))]]. *)
Definition assign (batch : list nat) (w : Z) (ms : list Z) : list Z :=
  imap (λ i m, if bool_decide (i ∈ batch) then w else m) ms.

(** Lines 217-227: hand the next files to the worker that reported. *)
Definition redispatch (w : Z) (s : Master) : option Master :=
  if bool_decide (0 ∈ maps s) then
    let batch := next_files (maps s) in
    command ← make_command (log_files s) batch;
    Some (set_maps (assign batch w) (send w (Dispatch command) s))
  else Some s.

(** The branch [if result] (lines 205-227); [now] is the clock of line 213. *)
Definition on_completion (m : Completion) (now : Z) (s : Master) : option Master :=
  let s1 := record_results (c_result m) s in
  let s2 := set_maps (complete (c_index m)) s1 in
  ts ← py_setitem (timers s2) (c_worker m - 1) now;
  redispatch (c_worker m) (set_timers (λ _, ts) s2).

(** What [rec.test()] returned in one iteration of the loop. *)
Inductive Poll :=
  | Nothing (clk : IdleClock)
  | Arrived (m : Completion) (now : Z).

Definition iteration (p : Poll) (s : Master) : option Master :=
  match p with
  | Nothing clk => on_idle clk s
  | Arrived m now => on_completion m now s
  end.

(** The loop against a prescribed sequence of polls: it runs while the
    condition holds and polls remain. *)
Fixpoint monitor (polls : list Poll) (s : Master) : option Master :=
  if loop_cond s then
    match polls with
    | [] => Some s
    | p :: polls' => s' ← iteration p s; monitor polls' s'
    end
  else Some s.

(** ** After the loop (lines 229-252) *)

Definition broadcast_stop (s : Master) : Master :=
  foldl (λ a i, send (Z.of_nat i) Stop a) s (seq 1 (size s - 1)).

Definition finish (t_stamp : Z) (s : Master) : option Master :=
  let s1 := broadcast_stop s in
  total ← merge_all (total_counts s1) (results s1);
  let s2 := set_total_counts total s1 in
  '(completed_files, todo_files) ← snapshot_files (maps s2) (log_files s2);
  Some (save_checkpoint
          (mkCheckpoint t_stamp (items total) completed_files todo_files) s2).

(** ** Workers (lines 270-276) and the whole system *)

(** The messages addressed to a rank, in the order they were sent. *)
Definition inbox (rank : Z) (sent : list (Z * Payload)) : list Payload :=
  snd <$> filter (λ dp, dp.1 = rank) sent.

(** The worker loop: every command received is answered by one completion
    message, until the stop signal is received. *)
Fixpoint worker_replies (disk : gmap string (list string)) (rank : Z)
    (tasks : list Payload) : list Completion :=
  match tasks with
  | Dispatch task :: rest =>
      mkCompletion ((λ t, analyse_log_file disk t.1) <$> task) (snd <$> task) rank
        :: worker_replies disk rank rest
  | Stop :: _ => []
  | [] => []
  end.

(** The master together with the number of replies of each rank it has
    already taken from the network. *)
Record World := mkWorld {
  master : Master;
  taken : gmap Z nat
}.

(** What happens in one iteration of the master's loop: no message is ready,
    or the next reply of some rank is. *)
Inductive Event :=
  | Tick (clk : IdleClock)
  | Reply (rank : Z) (now : Z).

Definition next_reply (disk : gmap string (list string)) (rank : Z) (x : World)
  : option Completion :=
  worker_replies disk rank (inbox rank (outbox (master x)))
    !! default 0%nat (taken x !! rank).

(** [None]: the event cannot happen (the rank has no further reply), or the
    master raised. *)
Definition world_step (disk : gmap string (list string)) (e : Event) (x : World)
  : option World :=
  match e with
  | Tick clk => s ← on_idle clk (master x); Some (mkWorld s (taken x))
  | Reply rank now =>
      m ← next_reply disk rank x;
      s ← on_completion m now (master x);
      Some (mkWorld s (<[rank := S (default 0%nat (taken x !! rank))]> (taken x)))
  end.

Fixpoint world_run (disk : gmap string (list string)) (evs : list Event) (x : World)
  : option World :=
  if loop_cond (master x) then
    match evs with
    | [] => Some x
    | e :: evs' => x' ← world_step disk e x; world_run disk evs' x'
    end
  else Some x.

(** [main] on rank 0 up to the loop, and the loop against the workers. *)
Definition start (sz : nat) (on_disk : option Checkpoint) (found : list string)
    (clock : nat → Z) (t_loop : Z) : option World :=
  s ← setup sz on_disk found;
  s' ← initial_dispatch clock t_loop s;
  Some (mkWorld s' ∅).

(** A whole execution of rank 0: [None] when it raised or when the events do
    not bring the loop to its end. *)
Definition execution (disk : gmap string (list string)) (sz : nat)
    (on_disk : option Checkpoint) (found : list string)
    (clock : nat → Z) (t_loop : Z) (evs : list Event) (t_end : Z) : option Master :=
  x ← start sz on_disk found clock t_loop;
  x' ← world_run disk evs x;
  if loop_cond (master x') then None else finish t_end (master x').

(** ** Unit states *)

Definition is_done (m : Z) : bool := m =? -1.

(** [isComplete()]: no unit is pending or assigned. *)
Definition is_complete (ms : list Z) : bool := forallb is_done ms.

Definition count_done (ms : list Z) : nat := length (filter (λ m, m = -1) ms).

(** The ranks a timeout scan at time [curr] declares dead, seen from a
    [maps] entry: the rank's timer is set and older than the timeout. *)
Definition declared_dead (curr : Z) (ts : list Z) (m : Z) : bool :=
  (0 <? m) && match ts !! Z.to_nat (m - 1) with
              | Some t => expired curr t
              | None => false
              end.

(** ** The outcome of a timeout scan, in closed form *)

(** A timer after the scan: cleared when it had expired. *)
Definition expire (curr t : Z) : Z := if expired curr t then 0 else t.

Arguments expire : simpl never.

(** The stop signals of a scan over [ts]: one per expired timer, addressed
    to the rank of its position. *)
Definition stop_signals (curr : Z) (ts : list Z) : list (Z * Payload) :=
  omap id (imap (λ j t, if expired curr t then Some (Z.of_nat j + 1, Stop) else None) ts).

(** The master once the scan has passed the first [k] timers. *)
Definition scanned (curr : Z) (s : Master) (k : nat) : Master :=
  mkMaster (size s) (log_files s)
    ((λ m, if declared_dead curr (take k (timers s)) m then 0 else m) <$> maps s)
    (total_counts s) (recieved s) (results s)
    ((expire curr <$> take k (timers s)) ++ drop k (timers s))
    (checkpointer s)
    (outbox s ++ stop_signals curr (take k (timers s)))
    (store s).

(** ** Runs without a timeout *)

(** The sum of [w f] over the finished units, [f] being the unit's file. *)
Fixpoint done_sum (w : string → Z) (ms : list Z) (files : list string) : Z :=
  match ms, files with
  | m :: ms', f :: files' => (if m =? -1 then w f else 0) + done_sum w ms' files'
  | _, _ => 0
  end.

(** The sum of [w] over the files of the listed units. *)
Definition units_sum (w : string → Z) (files : list string) (index : list nat) : Z :=
  foldr (λ i acc, w (default ""%string (files !! i)) + acc) 0 index.

(** The commands sent to a rank, in order. *)
Definition commands_to (rank : Z) (sent : list (Z * Payload))
  : list (list (string * nat)) :=
  omap (λ dp, match dp.2 with
              | Dispatch c => if decide (dp.1 = rank) then Some c else None
              | Stop => None
              end) sent.

(** The entries of the commands a rank has been sent and has not answered
    yet. *)
Definition held (x : World) (rank : Z) : list (string * nat) :=
  concat (drop (default 0%nat (taken x !! rank)) (commands_to rank (outbox (master x)))).

(** The answer of a worker to one command. *)
Definition reply_to (disk : gmap string (list string)) (rank : Z)
    (c : list (string * nat)) : Completion :=
  mkCompletion ((λ t, analyse_log_file disk t.1) <$> c) (c.*2) rank.

(** The count of a level in the file of a unit. *)
Definition file_level (disk : gmap string (list string)) (level : string)
    (f : string) : Z :=
  level_count (analyse_log_file disk f) level.

(** What holds of the system as long as no stop signal has been sent: every
    message is a command to a worker rank whose entries name the file of
    their unit; the units a rank holds are those of its unanswered commands,
    each once; one result has been received per finished unit; and, level by
    level, the results received add up to the counts of the finished units,
    [base] being the counts of the units that were finished at the start. *)
Record quiet (disk : gmap string (list string)) (base : string → Z) (x : World)
  : Prop := mkQuiet {
  quiet_len : length (maps (master x)) = length (log_files (master x));
  quiet_sent :
    Forall (λ dp, 1 ≤ dp.1
                  ∧ ∃ c, dp.2 = Dispatch c
                         ∧ Forall (λ fi, log_files (master x) !! fi.2 = Some fi.1) c)
           (outbox (master x));
  quiet_held :
    ∀ rank, 1 ≤ rank →
      NoDup (held x rank).*2
      ∧ ∀ i, i ∈ (held x rank).*2 ↔ maps (master x) !! i = Some rank;
  quiet_recieved : recieved (master x) = count_done (maps (master x));
  quiet_results :
    ∀ level, level_total (results (master x)) level + base level
             = done_sum (file_level disk level) (maps (master x)) (log_files (master x))
}.

(** ** [save_checkpoint] step by step (lines 69-78)

    The folder as the file system shows it, and the effects of
    [save_checkpoint] in program order: [shutil.rmtree] when the folder
    exists, [os.makedirs], [open(json_path, "w")], then the text of
    [json.dump] reaching the file piece by piece. *)
Inductive Folder :=
  | NoFolder
  | NoFile
  | File (text : string).

Inductive SaveStep :=
  | Rmtree
  | Makedirs
  | OpenW
  | WriteChar (c : Ascii.ascii).

Definition folder_exists (d : Folder) : bool :=
  match d with NoFolder => false | _ => true end.

Fixpoint write_steps (text : string) : list SaveStep :=
  match text with
  | EmptyString => []
  | String c rest => WriteChar c :: write_steps rest
  end.

Definition save_steps (d : Folder) (text : string) : list SaveStep :=
  (if folder_exists d then [Rmtree] else []) ++ [Makedirs; OpenW] ++ write_steps text.

Definition save_step (d : Folder) (st : SaveStep) : Folder :=
  match st, d with
  | Rmtree, _ => NoFolder
  | Makedirs, NoFolder => NoFile
  | Makedirs, _ => d
  | OpenW, NoFolder => NoFolder
  | OpenW, _ => File ""
  | WriteChar c, File text => File (text +:+ String c "")
  | WriteChar _, _ => d
  end.

(** The folder when the save of [text] is interrupted after [k] steps. *)
Definition interrupted_save (d : Folder) (text : string) (k : nat) : Folder :=
  foldl save_step d (take k (save_steps d text)).

(** What [os.path.exists("checkpoint/checkpoint.json")] followed by [open]
    gives [json.load] to read. *)
Definition load_text (d : Folder) : option string :=
  match d with File text => Some text | _ => None end.

(** ** Concrete runs

    The clock never goes back in them: the commands of the initial dispatch
    are sent at time 1, the loop starts at time 1, and the events of a run
    carry increasing times. *)

Definition dispatch_clock (i : nat) : Z := 1.

(** An iteration without a message, all its clock readings being [t]. *)
Definition tick_at (t : Z) : Event := Tick (mkIdleClock t t t t).

Definition event_time (e : Event) : Z :=
  match e with
  | Tick clk => t_check clk
  | Reply _ now => now
  end.

(** The times of the events do not decrease, from [t] on. *)
Fixpoint clock_ok (t : Z) (evs : list Event) : bool :=
  match evs with
  | [] => true
  | e :: evs' => (t <=? event_time e) && clock_ok (event_time e) evs'
  end.

(** Thirty-one files of one INFO line each. *)
Definition files31 : list string :=
  ["f00"; "f01"; "f02"; "f03"; "f04"; "f05"; "f06"; "f07"; "f08"; "f09";
   "f10"; "f11"; "f12"; "f13"; "f14"; "f15"; "f16"; "f17"; "f18"; "f19";
   "f20"; "f21"; "f22"; "f23"; "f24"; "f25"; "f26"; "f27"; "f28"; "f29";
   "f30"]%string.

Definition disk31 : gmap string (list string) :=
  list_to_map ((λ f, (f, ["[INFO] up"%string])) <$> files31).

(** Two workers (MPI size 3) on the thirty-one files: rank 1 is sent files
    0-9 and rank 2 files 10-19. *)
Definition run31 (evs : list Event) : option World :=
  start 3 None files31 dispatch_clock 1 ≫= world_run disk31 evs.

(** Rank 2 reports files 10-19 and is sent 20-29; rank 1, silent for more
    than 5, is timed out and files 0-9 are pending again; rank 2 reports
    20-29 and is sent 0-9; the reply rank 1 had under way arrives; rank 2
    reports 0-9. *)
Definition takeover : list Event :=
  [Reply 2 3; tick_at 7; Reply 2 8; Reply 1 9; Reply 2 10].

(** Three workers (MPI size 4) on the first eleven files: rank 1 is sent
    files 0-9, rank 2 file 10, rank 3 an empty command. *)
Definition files11 : list string := take 11 files31.

Definition run11 (evs : list Event) : option World :=
  start 4 None files11 dispatch_clock 1 ≫= world_run disk31 evs.

(** The eleven-file run after rank 3 has answered its empty command at time
    2 and a tick has come at time 8, ranks 1 and 2 not having reported: a
    checkpoint without counts is written, all three ranks are timed out,
    their timers are cleared and every file is pending again. *)
Definition after_timeout : Master :=
  mkMaster 4 files11 [0; 0; 0; 0; 0; 0; 0; 0; 0; 0; 0] defaultdict_int 0 []
    [0; 0; 0; 0] 8
    [(1, Dispatch [("f00", 0); ("f01", 1); ("f02", 2); ("f03", 3); ("f04", 4);
                   ("f05", 5); ("f06", 6); ("f07", 7); ("f08", 8); ("f09", 9)]%string%nat);
     (2, Dispatch [("f10"%string, 10%nat)]); (3, Dispatch []);
     (1, Stop); (2, Stop); (3, Stop)]
    (Some (mkCheckpoint 8 ∅ [] files11)).

(** The reply of rank 2 to the command it was sent before the stop signal. *)
Definition late_reply : Completion := mkCompletion [{["INFO" := 1]}] [10%nat] 2.

(** The aggregate in which every file counts once. *)
Definition once_each (disk : gmap string (list string)) (files : list string)
  : option PyDict :=
  merge_all defaultdict_int (analyse_log_file disk <$> files).

(** One worker (MPI size 2) on one file of one INFO line. *)
Definition disk1 : gmap string (list string) := {["a.log" := ["[INFO] up"]]}%string.

(** The checkpoint the tick at time 7 writes in that run when the worker
    has not reported yet: nothing processed, no counts. *)
Definition early_checkpoint : Checkpoint := mkCheckpoint 7 ∅ [] ["a.log"%string].

(** A master whose only file is held by rank 2 while rank 1, timed out
    earlier, is about to report it. *)
Definition foreign_held : Master :=
  mkMaster 3 ["a.log"%string] [2] defaultdict_int 0 [] [0; 8; 0] 1
    [(1, Dispatch [("a.log"%string, 0%nat)]); (2, Dispatch []); (1, Stop);
     (2, Dispatch [("a.log"%string, 0%nat)])] None.

(** A master about to receive the report for its only file, and the master
    once it has. *)
Definition one_file_held : Master :=
  mkMaster 2 ["a.log"%string] [1] defaultdict_int 0 [] [1; 0] 1
    [(1, Dispatch [("a.log"%string, 0%nat)])] None.

Definition one_file_reply : Completion := mkCompletion [{["INFO" := 1]}] [0%nat] 1.

Definition one_file_done : Master :=
  mkMaster 2 ["a.log"%string] [-1] defaultdict_int 1 [{["INFO" := 1]}] [3; 0] 1
    [(1, Dispatch [("a.log"%string, 0%nat)])] None.

(** ** Counting lines *)

(** The number of lines on which [P] holds. *)
Definition hits (P : string → bool) (lines : list string) : Z :=
  Z.of_nat (length (filter (λ l, P l = true) lines)).

(** Whether the scan of [line] ends in the branch of level [k]. *)
Definition reaches (k : string) (line : string) : bool :=
  bool_decide (earliest_level line = Some k).

(** What [total_counts[level] += count] leaves under a key, for every level
    of [new_counts]: the sum when the key was there, the count itself (added
    to the default 0) when it was not. *)
Definition merged_lookup (total new_counts : gmap string Z) (level : string) : option Z :=
  match new_counts !! level with
  | Some c => Some (level_count total level + c)
  | None => total !! level
  end.

(** ** What every state of a run satisfies

    [p] is the number of units the checkpoint of a resumed run lists as
    processed (0 in a run started from the directory). *)
Record sane (disk : gmap string (list string)) (p : nat) (x : World) : Prop := mkSane {
  sane_len : length (maps (master x)) = length (log_files (master x));
  sane_timers : length (timers (master x)) = size (master x);
  sane_last :
    ∀ k t, timers (master x) !! k = Some t → (size (master x) - 1 ≤ k)%nat → t = 0;
  sane_units :
    Forall (λ u, -1 ≤ u ≤ Z.of_nat (size (master x) - 1)) (maps (master x));
  sane_done : ∀ i, (i < p)%nat → maps (master x) !! i = Some (-1);
  sane_sent :
    Forall (λ dp, 1 ≤ dp.1 ≤ Z.of_nat (size (master x) - 1)
                  ∧ ∀ c, dp.2 = Dispatch c →
                      (length c ≤ 10)%nat ∧ NoDup c.*2
                      ∧ Forall (λ fi, (p ≤ fi.2)%nat
                                      ∧ log_files (master x) !! fi.2 = Some fi.1) c)
           (outbox (master x));
  sane_recieved : recieved (master x) = (length (results (master x)) + p)%nat;
  sane_results :
    Forall (λ r, ∃ f, f ∈ log_files (master x) ∧ r = analyse_log_file disk f)
           (results (master x))
}.

(** The number of units a run starts with as finished: those the checkpoint
    lists as processed. *)
Definition resumed_units (on_disk : option Checkpoint) : nat :=
  match on_disk with
  | Some ck => length (ck_processed_files ck)
  | None => 0%nat
  end.

(** ** Loading the checkpoint (lines 111-117)

    [json_load text] stands for what lines 114-117 read out of the text of
    [checkpoint/checkpoint.json]: the record, or [None] when [json.load]
    raises ([JSONDecodeError], a [ValueError]).  Without the file the work
    list comes from the directory. *)
Definition load_checkpoint (json_load : string → option Checkpoint) (d : Folder)
  : option (option Checkpoint) :=
  match load_text d with
  | None => Some None
  | Some text =>
      match json_load text with
      | None => None
      | Some ck => Some (Some ck)
      end
  end.

(** [main] on rank 0 from the checkpoint folder up to the loop. *)
Definition startup (json_load : string → option Checkpoint) (d : Folder) (sz : nat)
    (found : list string) (clock : nat → Z) (t_loop : Z) : option World :=
  match load_checkpoint json_load d with
  | None => None
  | Some on_disk => start sz on_disk found clock t_loop
  end.

(** ** Work left in a run without a timeout *)

(** The commands a rank has been sent and has not answered yet. *)
Definition unanswered (x : World) (rank : Z) : list (list (string * nat)) :=
  drop (default 0%nat (taken x !! rank)) (commands_to rank (outbox (master x))).

(** As long as a file is pending, every worker has a command to answer. *)
Definition busy (x : World) : Prop :=
  0 ∈ maps (master x) →
  ∀ rank, 1 ≤ rank ≤ Z.of_nat (size (master x) - 1) → unanswered x rank ≠ [].

Definition command_weight (c : list (string * nat)) : nat :=
  if decide (c = []) then 2%nat else 1%nat.

(** A bound on the replies still to come: two for each unit not finished
    and one for each command not answered, an empty one counting twice. *)
Definition work_left (x : World) : nat :=
  (2 * (length (maps (master x)) - count_done (maps (master x)))
   + sum_list_with (λ r, sum_list_with command_weight (unanswered x (Z.of_nat r)))
       (seq 1 (size (master x) - 1)))%nat.

(** ** The report (lines 254-264) *)

(** The order of Python strings: by code point, position by position. *)
Definition string_le (a b : string) : Prop := String.leb a b = true.

#[global] Instance string_le_dec : RelDecision string_le.
Proof. intros a b. unfold string_le. apply _. Defined.

(** [sorted(total_counts.keys())]. *)
Definition sorted_keys (counts : gmap string Z) : list string :=
  merge_sort string_le (map_to_list counts).*1.

(** The lines [print(f"{level}: {total_counts[level]}")] writes, in order;
    [total_counts[level]] is the entry of a key of the dictionary. *)
Definition report (total : PyDict) : list string :=
  (λ level, level +:+ ": " +:+ pretty (default 0 (items total !! level)))
    <$> sorted_keys (items total).

(** ** The reports a run receives *)

(** The completion message rank 0 takes from the network in an iteration:
    none when no message is ready, the next reply of the rank otherwise. *)
Definition received (disk : gmap string (list string)) (e : Event) (x : World)
  : list Completion :=
  match e with
  | Tick _ => []
  | Reply rank _ =>
      match next_reply disk rank x with
      | Some m => [m]
      | None => []
      end
  end.

(** The completion messages handled in the run [world_run disk evs x], in
    the order they are received. *)
Fixpoint reports (disk : gmap string (list string)) (evs : list Event) (x : World)
  : list Completion :=
  if loop_cond (master x) then
    match evs with
    | [] => []
    | e :: evs' =>
        match world_step disk e x with
        | None => []
        | Some x' => received disk e x ++ reports disk evs' x'
        end
    end
  else [].

(** The units these reports list, a unit as many times as it is listed. *)
Definition reported (disk : gmap string (list string)) (evs : list Event) (x : World)
  : list nat :=
  concat (c_index <$> reports disk evs x).

(** The run [takeover] without the late reply of rank 1: the rank is timed
    out at time 7 and is never heard of again; rank 2 works through all the
    files. *)
Definition silent_rank : list Event :=
  [Reply 2 3; tick_at 7; Reply 2 8; Reply 2 10; Reply 2 11].

(** The thirty-one-file run once rank 2 has reported files 10-19 at time 3
    and has been sent files 20-29: files 0-9 are held by rank 1, file 30 is
    pending. *)
Definition mixed_units : Master :=
  mkMaster 3 files31
    (replicate 10 1 ++ replicate 10 (-1) ++ replicate 10 2 ++ [0])
    defaultdict_int 10 (replicate 10 {["INFO" := 1]}) [1; 3; 0] 1
    [(1, Dispatch (zip (take 10 files31) (seq 0 10)));
     (2, Dispatch (zip (take 10 (drop 10 files31)) (seq 10 10)));
     (2, Dispatch (zip (take 10 (drop 20 files31)) (seq 20 10)))]
    None.

(** No worker has a reply for rank 0: each has answered every command it
    was sent before its first stop signal. *)
Definition silent (disk : gmap string (list string)) (x : World) : bool :=
  forallb (λ r, match next_reply disk (Z.of_nat r) x with
                | None => true
                | Some _ => false
                end)
          (seq 1 (size (master x) - 1)).

(** One worker (MPI size 2) on the first eleven files, slow by more than
    the time-out: rank 1 is sent files 0-9; the tick at time 7 times it out;
    its report arrives at time 8 and it is sent file 10, which it never
    reads, having left its loop on the stop signal; the tick at time 14
    times it out again and file 10 is pending, with no worker left to
    report. *)
Definition stalled : World :=
  mkWorld
    (mkMaster 2 files11 [-1; -1; -1; -1; -1; -1; -1; -1; -1; -1; 0] defaultdict_int 10
       (replicate 10 {["INFO" := 1]}) [0; 0] 14
       [(1, Dispatch [("f00", 0); ("f01", 1); ("f02", 2); ("f03", 3); ("f04", 4);
                      ("f05", 5); ("f06", 6); ("f07", 7); ("f08", 8); ("f09", 9)]%string%nat);
        (1, Stop); (1, Dispatch [("f10"%string, 10%nat)]); (1, Stop)]
       (Some (mkCheckpoint 14 {["INFO" := 10]} (take 10 files11) ["f10"%string])))
    {[1 := 1%nat]}.

(** ** Stage 1: static chunks
    ([src/implementation/stage1/parallel_log_analyzer.py], lines 95-117) *)

(** [range(0, stop, step)]; a zero [step] raises [ValueError]. *)
Definition py_range (stop step : nat) : option (list nat) :=
  if (step =? 0)%nat then None
  else Some ((λ k, (k * step)%nat) <$> seq 0 ((stop + step - 1) / step)).

(** [chunk_size = len(log_files) // size] and
    [[log_files[i:i + chunk_size] for i in range(0, len(log_files), chunk_size)]]. *)
(** (Reached with a non-empty [log_files] only: on an empty one rank 0 has
    left through [sys.exit(1)] before.) *)
Definition chunked (sz : nat) (files : list string) : option (list (list string)) :=
  let chunk_size := (length files / sz)%nat in
  match py_range (length files) chunk_size with
  | None => None
  | Some starts => Some ((λ i, take chunk_size (drop i files)) <$> starts)
  end.

(** What the processes compute once every rank has its chunk: each merges
    the results of its files into a [defaultdict] of its own, and rank 0
    merges the gathered dictionaries, in rank order. *)
Definition gathered (disk : gmap string (list string)) (chunks : list (list string))
  : option PyDict :=
  locals ← mapM (once_each disk) chunks;
  merge_all defaultdict_int (items <$> locals).

(** ** The generator of test logs ([src/logs_generator.py]) *)

(** The dictionary [MESSAGES], in the order it is written. *)
Definition MESSAGES : list (string * list string) :=
  [("INFO", ["Connection established"; "Request processed successfully";
             "Database query executed"; "Cache hit"; "User logged in"; "Session started";
             "Configuration loaded"; "Service initialized"; "Health check passed";
             "Transaction completed"]);
   ("WARN", ["High memory usage detected"; "Slow query performance"; "Cache miss";
             "Deprecated API usage"; "Connection retry attempt";
             "Resource threshold approaching"; "Timeout warning"; "Queue size growing";
             "Disk space low"; "Rate limit approaching"]);
   ("ERROR", ["Authentication failed"; "Disk read failed"; "Memory allocation error";
              "Network timeout"; "Database connection lost"; "File not found";
              "Permission denied"; "Invalid input data"; "Service unavailable";
              "Request failed"]);
   ("DEBUG", ["Variable value: x=42"; "Entering function process_data()";
              "Loop iteration: 15"; "HTTP request headers parsed"; "Cache key generated";
              "Thread pool size: 8"; "Memory allocation: 2048 bytes";
              "Connection pool status checked"; "Buffer size: 4096 bytes";
              "Timer set: 30 seconds"])]%string.

(** [MESSAGES[level]]; a level that is no key raises [KeyError]. *)
Definition messages_of (level : string) : option (list string) :=
  snd <$> head (filter (λ lm, lm.1 = level) MESSAGES).

(** The line feed that ends an entry. *)
Definition newline : string := String "010"%char EmptyString.

(** [generate_log_entry(level)].  [timestamp] is the text
    [datetime.datetime.now().isoformat()] returned, [choice] the position
    [random.choice] picked in [MESSAGES[level]]. *)
Definition generate_log_entry (timestamp : string) (choice : nat) (level : string)
  : option string :=
  match messages_of level with
  | None => None
  | Some messages =>
      match messages !! choice with
      | None => None
      | Some message =>
          Some ("[" +:+ timestamp +:+ "] [" +:+ level +:+ "] " +:+ message +:+ newline)%string
      end
  end.

(** The characters of an ISO 8601 time stamp without zone, as [isoformat]
    writes it for [datetime.now()]: digits, [-], [:], [.] and [T]. *)
Definition iso_char (c : ascii) : bool :=
  existsb (Ascii.eqb c) (String.list_ascii_of_string "0123456789-:.T").

Fixpoint isoformat_like (s : string) : bool :=
  match s with
  | EmptyString => true
  | String c s => iso_char c && isoformat_like s
  end.

(** One entry to generate: the time stamp, the choice of message, the level. *)
Definition entry_line (e : string * nat * string) : option string :=
  generate_log_entry e.1.1 e.1.2 e.2.

(** Two entries, the lines written for them, and a file that holds the
    lines in the other order. *)
Definition two_entries : list (string * nat * string) :=
  [("2026-01-01T10:00:00.123456", 3%nat, "INFO"); ("2026-01-01T10:00:01", 0%nat, "ERROR")]%string.

Definition two_written : list string :=
  ["[2026-01-01T10:00:00.123456] [INFO] Cache hit" +:+ newline;
   "[2026-01-01T10:00:01] [ERROR] Authentication failed" +:+ newline]%string.

Definition two_shuffled : list string :=
  ["[2026-01-01T10:00:01] [ERROR] Authentication failed" +:+ newline;
   "[2026-01-01T10:00:00.123456] [INFO] Cache hit" +:+ newline]%string.

Definition node1_disk : gmap string (list string) := {["node1.log"%string := two_shuffled]}.

(** [counts[i] += d], with [IndexError] past the end. *)
Definition add_at (i : nat) (d : Z) (counts : list Z) : option (list Z) :=
  match counts !! i with
  | None => None
  | Some c => Some (<[i := c + d]> counts)
  end.

(** One round of the loop that moves entries between two files: [(i, j)] is
    what [random.sample(range(num_files), 2)] returned, which raises
    [ValueError] with fewer than two files; [randint] stands for
    [random.randint]. *)
Definition transfer_round (num_files : nat) (ij : nat * nat) (randint : Z → Z → Z)
    (counts : list Z) : option (list Z) :=
  if (num_files <? 2)%nat then None
  else
    match counts !! ij.1 with
    | None => None
    | Some ci =>
        if 1 <? ci then
          let transfer := randint 0 (Z.min (ci - 1) 3) in
          match add_at ij.1 (- transfer) counts with
          | None => None
          | Some counts => add_at ij.2 transfer counts
          end
        else Some counts
    end.

(** [distribute_counts(total, num_files)].  The random draws are arguments:
    [indices] is the sample of [min(remainder, num_files)] positions,
    [sample2 t] the pair drawn in round [t] of the second loop and
    [randint t] the [random.randint] of that round.  [total // num_files]
    raises [ZeroDivisionError] without files. *)
Definition distribute_counts (indices : list nat) (sample2 : nat → nat * nat)
    (randint : nat → Z → Z → Z) (total : Z) (num_files : nat) : option (list Z) :=
  if total =? 0 then Some (replicate num_files 0)
  else if (num_files =? 0)%nat then None
  else
    let base := total / Z.of_nat num_files in
    let counts := replicate num_files base in
    match foldl (λ acc i, match acc with
                          | None => None
                          | Some counts => add_at i 1 counts
                          end) (Some counts) indices with
    | None => None
    | Some counts =>
        foldl (λ acc t, match acc with
                        | None => None
                        | Some counts => transfer_round num_files (sample2 t) (randint t) counts
                        end)
          (Some counts) (seq 0 (min (num_files * 2) 5000))
    end.

(** [sum(counts)]. *)
Definition sum_Z (counts : list Z) : Z := foldr Z.add 0 counts.

(** Draws for two or three files: the sample is position 0, every round
    draws the pair (0, 1) and [randint] returns its upper bound. *)
Definition draw_pair (t : nat) : nat * nat := (0%nat, 1%nat).
Definition draw_high (t : nat) (lo hi : Z) : Z := hi.

(** ** Stage 2, first version: one file per command
    ([src/implementation/stage2/parallel_log_analyzer.py], lines 98-143) *)

Module Parallel.

(** Rank 0.  [maps] holds, per file, 0 or the rank the file was sent to;
    [sent] is the list of the tag-1 messages, oldest first, as pairs of
    destination and path. *)
Record Master := mkMaster {
  log_files : list string;
  maps : list nat;
  results : list (gmap string Z);
  recieved : nat;
  sent : list (nat * string)
}.

(** Rank 0 together with the tasks that were sent and are not answered yet
    (in transit or with a worker), oldest first. *)
Record World := mkWorld {
  master : Master;
  tasks : list (nat * string)
}.

(** One round of [for i in range(1, size)]: [comm.send(log_files[i-1], i)]
    and [maps[i-1] = i]; [log_files[i-1]] raises [IndexError] past the end. *)
Definition send_initial (x : option World) (i : nat) : option World :=
  match x with
  | None => None
  | Some x =>
      let m := master x in
      match log_files m !! (i - 1)%nat with
      | None => None
      | Some f =>
          Some (mkWorld (mkMaster (log_files m) (<[(i - 1)%nat := i]> (maps m)) (results m)
                           (recieved m) (sent m ++ [(i, f)]))
                  (tasks x ++ [(i, f)]))
      end
  end.

(** Lines 98-105: [maps = [0] * len(log_files)], the first sends. *)
Definition start (sz : nat) (files : list string) : option World :=
  foldl send_initial
    (Some (mkWorld (mkMaster files (replicate (length files) 0%nat) [] 0 []) []))
    (seq 1 (sz - 1)).

(** [0 in maps or recieved < len(log_files)]. *)
Definition loop_cond (m : Master) : bool :=
  bool_decide (0%nat ∈ maps m) || (recieved m <? length (log_files m))%nat.

(** The oldest task of worker [w] that is not answered, and the other
    tasks: a worker answers its tasks one at a time, in the order it got
    them. *)
Fixpoint next_task (w : nat) (ts : list (nat * string))
  : option (string * list (nat * string)) :=
  match ts with
  | [] => None
  | (d, f) :: ts =>
      if decide (d = w) then Some (f, ts)
      else match next_task w ts with
           | None => None
           | Some (g, rest) => Some (g, (d, f) :: rest)
           end
  end.

(** The body of the loop once the message [{"result": result, "worker": w}]
    is received; [rest] are the tasks still unanswered.  [maps.index(0)]
    raises [ValueError] without a 0, [log_files[next_file]] [IndexError]
    past the end. *)
Definition on_result (w : nat) (result : gmap string Z) (m : Master)
    (rest : list (nat * string)) : option World :=
  let recieved' := S (recieved m) in
  let results' := results m ++ [result] in
  if bool_decide (0%nat ∈ maps m) then
    match list_find (λ v, v = 0%nat) (maps m) with
    | None => None
    | Some (next_file, _) =>
        match log_files m !! next_file with
        | None => None
        | Some f =>
            Some (mkWorld (mkMaster (log_files m) (<[next_file := w]> (maps m)) results'
                             recieved' (sent m ++ [(w, f)]))
                    (rest ++ [(w, f)]))
        end
    end
  else Some (mkWorld (mkMaster (log_files m) (maps m) results' recieved' (sent m)) rest).

(** The answer of worker [w] arrives: the worker has analysed its oldest
    task, rank 0 handles the message.  [None] when [w] has no task to
    answer, or when the handling raises. *)
Definition step (disk : gmap string (list string)) (w : nat) (x : World) : option World :=
  match next_task w (tasks x) with
  | None => None
  | Some (f, rest) => on_result w (analyse_log_file disk f) (master x) rest
  end.

(** The loop, driven by the ranks whose answers arrive, in order of arrival;
    nothing is received once the loop condition fails. *)
Fixpoint run (disk : gmap string (list string)) (ws : list nat) (x : World)
  : option World :=
  match ws with
  | [] => Some x
  | w :: ws =>
      if loop_cond (master x) then
        match step disk w x with
        | None => None
        | Some x' => run disk ws x'
        end
      else None
  end.

(** Lines 120-122: the totals rank 0 reports. *)
Definition total_counts (x : World) : option PyDict :=
  merge_all defaultdict_int (results (master x)).

End Parallel.

(** What holds of rank 0 and the unanswered tasks throughout a run of the
    first stage-2 analyser with [sz] processes on [files]. *)
Record parallel_inv (disk : gmap string (list string)) (sz : nat) (files : list string)
    (x : Parallel.World) : Prop := {
  pinv_files : Parallel.log_files (Parallel.master x) = files;
  pinv_sent : (Parallel.sent (Parallel.master x)).*2
              = take (length (Parallel.sent (Parallel.master x))) files;
  pinv_bound : (length (Parallel.sent (Parallel.master x)) ≤ length files)%nat;
  pinv_maps : Parallel.maps (Parallel.master x)
              = (Parallel.sent (Parallel.master x)).*1
                ++ replicate (length files - length (Parallel.sent (Parallel.master x))) 0%nat;
  pinv_dests : Forall (λ t : nat * string, (1 ≤ t.1 < sz)%nat)
                 (Parallel.sent (Parallel.master x));
  pinv_tasks : Forall (λ t : nat * string, (1 ≤ t.1 < sz)%nat) (Parallel.tasks x);
  pinv_recieved : Parallel.recieved (Parallel.master x)
                  = length (Parallel.results (Parallel.master x));
  pinv_results : Parallel.results (Parallel.master x)
                   ++ ((λ t : nat * string, analyse_log_file disk t.2) <$> Parallel.tasks x)
                 ≡ₚ analyse_log_file disk <$> (Parallel.sent (Parallel.master x)).*2;
  pinv_busy : (length (Parallel.sent (Parallel.master x)) < length files →
               length (Parallel.tasks x) = sz - 1)%nat
}.

(** Three files, two workers: the state after the first sends, and the
    state once rank 2, rank 1 and rank 2 again have answered. *)
Definition disk3 : gmap string (list string) :=
  {["a.log" := ["[INFO] x"]; "c.log" := ["[WARN] y"; "[INFO] z"]]}%string.

Definition three_files_start : Parallel.World :=
  Parallel.mkWorld
    (Parallel.mkMaster ["a.log"; "b.log"; "c.log"]%string [1; 2; 0]%nat [] 0
       [(1%nat, "a.log"); (2%nat, "b.log")]%string)
    [(1%nat, "a.log"); (2%nat, "b.log")]%string.

Definition three_files_middle : Parallel.World :=
  Parallel.mkWorld
    (Parallel.mkMaster ["a.log"; "b.log"; "c.log"]%string [1; 2; 2]%nat
       [∅; {["INFO" := 1]}]%string 2
       [(1%nat, "a.log"); (2%nat, "b.log"); (2%nat, "c.log")]%string)
    [(2%nat, "c.log")]%string.

Definition three_files_end : Parallel.World :=
  Parallel.mkWorld
    (Parallel.mkMaster ["a.log"; "b.log"; "c.log"]%string [1; 2; 2]%nat
       [∅; {["INFO" := 1]}; {["WARN" := 1; "INFO" := 1]}]%string 3
       [(1%nat, "a.log"); (2%nat, "b.log"); (2%nat, "c.log")]%string)
    [].

(** The one-file run as a system: the state at the head of the loop, the
    state once rank 1 has reported at time 3, and the final state when the
    report is written at time 4. *)
Definition one_file_start : World := mkWorld one_file_held ∅.

Definition one_file_end : World := mkWorld one_file_done {[1 := 1%nat]}.

Definition one_file_final : Master :=
  mkMaster 2 ["a.log"%string] [-1] (mkPyDict true {["INFO" := 1]}) 1 [{["INFO" := 1]}]
    [3; 0] 1 [(1, Dispatch [("a.log"%string, 0%nat)]); (1, Stop)]
    (Some (mkCheckpoint 4 {["INFO" := 1]} ["a.log"%string] [])).

(** A run resumed, with one worker, from a checkpoint that lists [b.log] as
    processed and [a.log] as pending: the state at the head of the loop
    (time 21) and the state once rank 1 has reported [a.log] at time 23. *)
Definition half_done : Checkpoint :=
  mkCheckpoint 8 {["INFO" := 1]} ["b.log"%string] ["a.log"%string].

Definition resumed_start : World :=
  mkWorld
    (mkMaster 2 ["b.log"; "a.log"]%string [-1; 1] (mkPyDict false {["INFO" := 1]}) 1 []
       [21; 0] 21 [(1, Dispatch [("a.log"%string, 1%nat)])] (Some half_done)) ∅.

Definition resumed_end : World :=
  mkWorld
    (mkMaster 2 ["b.log"; "a.log"]%string [-1; -1] (mkPyDict false {["INFO" := 1]}) 2
       [{["INFO" := 1]}] [23; 0] 21 [(1, Dispatch [("a.log"%string, 1%nat)])]
       (Some half_done)) {[1 := 1%nat]}.

(* ================================================================== *)
(** * Part II.  Properties                                             *)
(* ================================================================== *)

Ltac zbool :=
  repeat match goal with
         | H : (_ && _) = true |- _ => apply andb_true_iff in H as [? ?]
         | H : (_ =? _) = true |- _ => apply Z.eqb_eq in H
         | H : (_ =? _) = false |- _ => apply Z.eqb_neq in H
         | H : (_ <? _) = true |- _ => apply Z.ltb_lt in H
         | H : (_ <? _) = false |- _ => apply Z.ltb_ge in H
         | H : (_ <=? _) = true |- _ => apply Z.leb_le in H
         | H : (_ <=? _) = false |- _ => apply Z.leb_gt in H
         end.

Section Analyser.

Lemma sum_counts_empty : sum_counts ∅ = 0.
Proof. unfold sum_counts. by rewrite map_fold_empty. Qed.

Lemma sum_counts_insert_fresh (counts : gmap string Z) level v :
  counts !! level = None →
  sum_counts (<[level := v]> counts) = v + sum_counts counts.
Proof.
  intros Hfresh. unfold sum_counts.
  rewrite map_fold_insert_L; [done | intros; lia | done].
Qed.

Lemma sum_counts_insert_present (counts : gmap string Z) level v0 v :
  counts !! level = Some v0 →
  sum_counts (<[level := v]> counts) = v - v0 + sum_counts counts.
Proof.
  intros Hin.
  rewrite <- (insert_delete_id counts level v0) at 2 by done.
  rewrite <- (insert_delete_eq counts level v).
  rewrite !sum_counts_insert_fresh by apply lookup_delete_eq. lia.
Qed.

Lemma sum_counts_incr counts level :
  sum_counts (incr level counts) = sum_counts counts + 1.
Proof.
  unfold incr. destruct (counts !! level) as [v0|] eqn:Hl; simpl.
  - erewrite sum_counts_insert_present by done. lia.
  - rewrite sum_counts_insert_fresh by done. lia.
Qed.

Lemma scan_line_cases counts line :
  scan_line counts line = counts
  ∨ ∃ level, level ∈ ["INFO"; "WARN"; "ERROR"; "DEBUG"]%string
             ∧ scan_line counts line = incr level counts.
Proof.
  unfold scan_line.
  destruct (contains "[INFO]" line); [right; exists "INFO"%string; split; [set_solver | done] |].
  destruct (contains "[WARN]" line || contains "[WARNING]" line);
    [right; exists "WARN"%string; split; [set_solver | done] |].
  destruct (contains "[ERROR]" line); [right; exists "ERROR"%string; split; [set_solver | done] |].
  destruct (contains "[DEBUG]" line); [right; exists "DEBUG"%string; split; [set_solver | done] |].
  by left.
Qed.

Lemma incr_other level l counts : l ≠ level → incr level counts !! l = counts !! l.
Proof. intros Hne. unfold incr. by rewrite lookup_insert_ne. Qed.

Lemma sum_counts_scan_line counts line :
  sum_counts counts ≤ sum_counts (scan_line counts line) ≤ sum_counts counts + 1.
Proof.
  destruct (scan_line_cases counts line) as [-> | (level & _ & ->)]; [lia |].
  rewrite sum_counts_incr. lia.
Qed.

Lemma sum_counts_scan_lines lines counts :
  sum_counts (foldl scan_line counts lines) ≤ sum_counts counts + Z.of_nat (length lines).
Proof.
  revert counts. induction lines as [| line lines IH]; intros counts; simpl; [lia |].
  specialize (IH (scan_line counts line)).
  pose proof (sum_counts_scan_line counts line). lia.
Qed.

Lemma scan_line_earliest_level counts line :
  scan_line counts line =
    match earliest_level line with
    | Some level => incr level counts
    | None => counts
    end.
Proof.
  unfold scan_line, earliest_level, level_markers.
  rewrite !filter_cons, filter_nil. simpl.
  destruct (contains "[INFO]" line) eqn:Hinfo, (contains "[WARN]" line) eqn:Hwarn,
    (contains "[WARNING]" line) eqn:Hwarning, (contains "[ERROR]" line) eqn:Herror,
    (contains "[DEBUG]" line) eqn:Hdebug; simpl;
  repeat case_decide; simpl; try done;
  exfalso; rewrite ?Exists_cons, ?Exists_nil in *; intuition congruence.
Qed.

Example several_markers :
  scan_line ∅ "[ERROR] retry after [INFO] notice [DEBUG]" = {["INFO" := 1]}.
Proof. by vm_compute. Qed.

End Analyser.

Section Snapshot.

Lemma snapshot_files_spec (ms : list Z) (files : list string) :
  length ms = length files →
  ∃ p q, snapshot_files ms files = Some (p, q)
    ∧ p ++ q ≡ₚ files
    ∧ (length p + length q = length ms)%nat
    ∧ (∀ i f, ms !! i = Some (-1) → files !! i = Some f → f ∈ p)
    ∧ (∀ i m f, ms !! i = Some m → m ≠ -1 → files !! i = Some f → f ∈ q).
Proof.
  revert files. induction ms as [| m ms IH]; intros [| f files] Hlen; try done.
  - exists [], []. simpl. repeat split; try done; intros *; by rewrite lookup_nil.
  - injection Hlen as Hlen. destruct (IH files Hlen) as (p & q & Hs & Hperm & Hl & Hd & Hn).
    simpl. rewrite Hs. simpl. destruct (m =? -1) eqn:Hm.
    + apply Z.eqb_eq in Hm. exists (f :: p), q. split; [done |]. split; [by constructor |].
      split; [simpl; lia |]. split.
      * intros [| i] f' H1 H2; simpl in *; [injection H2 as <-; left | right; eauto].
      * intros [| i] m' f' H1 Hne H2; simpl in *; [congruence | eauto].
    + apply Z.eqb_neq in Hm. exists p, (f :: q). split; [done |]. split.
      { rewrite <- Permutation_middle. by constructor. }
      split; [simpl; lia |]. split.
      * intros [| i] f' H1 H2; simpl in *; [congruence | eauto].
      * intros [| i] m' f' H1 Hne H2; simpl in *; [injection H2 as <-; left | right; eauto].
Qed.

Lemma add_level_default total level count :
  default_factory total = true →
  ∃ t, add_level total level count = Some t ∧ default_factory t = true.
Proof.
  intros Hd. unfold add_level. rewrite Hd.
  destruct (items total !! level); eauto.
Qed.

Lemma merge_counts_default total new_counts :
  default_factory total = true →
  ∃ t, merge_counts total new_counts = Some t ∧ default_factory t = true.
Proof.
  unfold merge_counts. generalize (map_to_list new_counts). intros kvs.
  revert total. induction kvs as [| kv kvs IH]; intros total Hd; simpl; [eauto |].
  destruct (add_level_default total kv.1 kv.2 Hd) as (t & -> & Ht). simpl. by apply IH.
Qed.

Lemma merge_all_default total rs :
  default_factory total = true →
  ∃ t, merge_all total rs = Some t ∧ default_factory t = true.
Proof.
  unfold merge_all. revert total. induction rs as [| r rs IH]; intros total Hd; simpl; [eauto |].
  destruct (merge_counts_default total r Hd) as (t & -> & Ht). simpl. by apply IH.
Qed.

End Snapshot.

Section Aggregate.

Lemma pairs_count_perm kvs kvs' level :
  kvs ≡ₚ kvs' → pairs_count kvs level = pairs_count kvs' level.
Proof.
  unfold pairs_count. induction 1 as [| x l1 l2 _ IH | x y l | l1 l2 l3 _ IH1 _ IH2]; cbn.
  - done.
  - by rewrite IH.
  - lia.
  - by rewrite IH1.
Qed.

Lemma pairs_count_cons kv kvs level :
  pairs_count (kv :: kvs) level
  = (if decide (kv.1 = level) then kv.2 else 0) + pairs_count kvs level.
Proof. done. Qed.

Lemma pairs_count_map_to_list (m : gmap string Z) level :
  pairs_count (map_to_list m) level = level_count m level.
Proof.
  unfold level_count. induction m as [| k v m Hk IH] using map_ind.
  - by rewrite map_to_list_empty, lookup_empty.
  - rewrite (pairs_count_perm _ _ level (map_to_list_insert m k v Hk)).
    rewrite pairs_count_cons, IH. cbn. case_decide as Hkl.
    + subst. rewrite lookup_insert_eq, Hk. cbn. lia.
    + rewrite lookup_insert_ne by done. lia.
Qed.

Lemma add_level_count total level count t' k :
  add_level total level count = Some t' →
  level_count (items t') k
  = level_count (items total) k + (if decide (level = k) then count else 0).
Proof.
  unfold add_level, level_count.
  destruct (items total !! level) as [v |] eqn:Hl.
  - intros [= <-]. cbn. case_decide as Hk.
    + subst. rewrite lookup_insert_eq, Hl. cbn. lia.
    + rewrite lookup_insert_ne by done. lia.
  - destruct (default_factory total); [| done]. intros [= <-]. cbn. case_decide as Hk.
    + subst. rewrite lookup_insert_eq, Hl. cbn. lia.
    + rewrite lookup_insert_ne by done. lia.
Qed.

Lemma merge_counts_count total new_counts t' k :
  merge_counts total new_counts = Some t' →
  level_count (items t') k = level_count (items total) k + level_count new_counts k.
Proof.
  unfold merge_counts. rewrite <- (pairs_count_map_to_list new_counts k).
  generalize (map_to_list new_counts). intros kvs. revert total.
  induction kvs as [| kv kvs IH]; intros total; cbn [foldl].
  - intros [= ->]. unfold pairs_count. cbn. lia.
  - cbn [mbind option_bind]. destruct (add_level total kv.1 kv.2) as [t1 |] eqn:Ht1.
    + intros H. rewrite (IH _ H), (add_level_count _ _ _ _ k Ht1), pairs_count_cons.
      repeat case_decide; lia.
    + intros H. exfalso. revert H. clear. induction kvs; [done | done].
Qed.

Lemma level_total_cons r rs k :
  level_total (r :: rs) k = level_count r k + level_total rs k.
Proof. done. Qed.

Lemma level_total_app rs1 rs2 k :
  level_total (rs1 ++ rs2) k = level_total rs1 k + level_total rs2 k.
Proof.
  induction rs1 as [| r rs1 IH]; [done |].
  rewrite <- app_comm_cons, !level_total_cons, IH. lia.
Qed.

(** What folding a list of results into a total gives, level by level. *)
Lemma merge_all_count total rs t' k :
  merge_all total rs = Some t' →
  level_count (items t') k = level_count (items total) k + level_total rs k.
Proof.
  unfold merge_all. revert total. induction rs as [| r rs IH]; intros total; cbn [foldl].
  - intros [= ->]. unfold level_total. cbn. lia.
  - cbn [mbind option_bind]. destruct (merge_counts total r) as [t1 |] eqn:Ht1.
    + intros H. rewrite (IH _ H), (merge_counts_count _ _ _ k Ht1), level_total_cons. lia.
    + intros H. exfalso. revert H. clear. induction rs; [done | done].
Qed.

End Aggregate.

Section Registry.

Implicit Types (ms ts : list Z) (s : Master) (m : Completion) (i k : nat).

Lemma complete_lookup index ms i :
  complete index ms !! i = (λ x, if bool_decide (i ∈ index) then -1 else x) <$> ms !! i.
Proof. unfold complete. by rewrite list_lookup_imap. Qed.

Lemma complete_length index ms : length (complete index ms) = length ms.
Proof. unfold complete. by rewrite length_imap. Qed.

Lemma assign_lookup batch w ms i :
  assign batch w ms !! i = (λ x, if bool_decide (i ∈ batch) then w else x) <$> ms !! i.
Proof. unfold assign. by rewrite list_lookup_imap. Qed.

Lemma assign_length batch w ms : length (assign batch w ms) = length ms.
Proof. unfold assign. by rewrite length_imap. Qed.

Lemma assign_nil w ms : assign [] w ms = ms.
Proof.
  apply list_eq. intros i. rewrite assign_lookup.
  destruct (ms !! i) as [x |]; [| done]. cbn [fmap option_fmap option_map].
  case_bool_decide; [set_solver | done].
Qed.

Lemma reclaim_lookup w ms i :
  reclaim w ms !! i = (λ x, if x =? w then 0 else x) <$> ms !! i.
Proof. unfold reclaim. by rewrite list_lookup_fmap. Qed.

Lemma next_files_from_spec room ms i0 k :
  k ∈ next_files_from i0 room ms → (i0 ≤ k)%nat ∧ ms !! (k - i0)%nat = Some 0.
Proof.
  revert room i0. induction ms as [| x ms IH]; intros room i0.
  - destruct room; simpl; set_solver.
  - destruct room as [| room]; simpl; [set_solver |].
    destruct (x =? 0) eqn:Hx.
    + rewrite elem_of_cons. intros [-> | Hk].
      * split; [lia |]. replace (i0 - i0)%nat with 0%nat by lia. simpl.
        apply Z.eqb_eq in Hx. by subst.
      * apply IH in Hk as [Hle Hk]. split; [lia |].
        replace (k - i0)%nat with (S (k - S i0)) by lia. done.
    + intros Hk. apply IH in Hk as [Hle Hk]. split; [lia |].
      replace (k - i0)%nat with (S (k - S i0)) by lia. done.
Qed.

Lemma next_files_pending ms k : k ∈ next_files ms → ms !! k = Some 0.
Proof.
  intros Hk. apply next_files_from_spec in Hk as [_ Hk].
  by replace (k - 0)%nat with k in Hk by lia.
Qed.

Lemma next_files_from_length room ms i0 :
  (length (next_files_from i0 room ms) ≤ room)%nat.
Proof.
  revert room i0. induction ms as [| x ms IH]; intros [| room] i0; simpl; try lia.
  destruct (x =? 0); simpl.
  - specialize (IH room (S i0)). lia.
  - apply IH.
Qed.

Lemma next_files_from_first room ms i0 :
  0 ∈ ms → ∃ k rest, next_files_from i0 (S room) ms = k :: rest.
Proof.
  revert i0. induction ms as [| x ms IH]; intros i0 Hin; [by apply elem_of_nil in Hin |].
  simpl. destruct (x =? 0) eqn:Hx; [eauto |].
  apply Z.eqb_neq in Hx. apply IH.
  apply elem_of_cons in Hin as [Heq | Hin]; [congruence | done].
Qed.

Lemma next_files_from_none room ms i0 : 0 ∉ ms → next_files_from i0 room ms = [].
Proof.
  revert room i0. induction ms as [| x ms IH]; intros [| room] i0 Hin; simpl; try done.
  destruct (x =? 0) eqn:Hx.
  - apply Z.eqb_eq in Hx. set_solver.
  - apply IH. set_solver.
Qed.

Lemma make_command_total files batch :
  (∀ k, k ∈ batch → (k < length files)%nat) →
  ∃ cmd, make_command files batch = Some cmd ∧ cmd.*2 = batch.
Proof.
  unfold make_command. induction batch as [| k batch IH]; intros Hin; simpl; [eauto |].
  destruct (lookup_lt_is_Some_2 files k) as [f Hf]; [apply Hin; set_solver |].
  rewrite Hf. simpl.
  destruct IH as (cmd & -> & Hcmd); [intros; apply Hin; set_solver |].
  simpl. exists ((f, k) :: cmd). by rewrite fmap_cons, Hcmd.
Qed.

Lemma py_index_rank {A} (l : list A) (w : Z) :
  1 ≤ w ≤ Z.of_nat (length l) → py_index l (w - 1) = Some (Z.to_nat (w - 1)).
Proof.
  intros Hw. unfold py_index.
  destruct (0 <=? w - 1) eqn:H1; [| lia].
  destruct (w - 1 <? Z.of_nat (length l)) eqn:H2; [done | lia].
Qed.

Lemma py_setitem_rank {A} (l : list A) (w : Z) (x : A) :
  1 ≤ w ≤ Z.of_nat (length l) → py_setitem l (w - 1) x = Some (<[Z.to_nat (w - 1) := x]> l).
Proof. intros Hw. unfold py_setitem. by rewrite py_index_rank. Qed.

(** The state a completion message leaves, field by field. *)
Lemma on_completion_spec m now s :
  length (maps s) = length (log_files s) →
  1 ≤ c_worker m ≤ Z.of_nat (length (timers s)) →
  ∃ s' cmd,
    on_completion m now s = Some s'
    ∧ make_command (log_files s) (next_files (complete (c_index m) (maps s))) = Some cmd
    ∧ cmd.*2 = next_files (complete (c_index m) (maps s))
    ∧ results s' = results s ++ c_result m
    ∧ recieved s' = (recieved s + length (c_result m))%nat
    ∧ timers s' = <[Z.to_nat (c_worker m - 1) := now]> (timers s)
    ∧ maps s' = assign (next_files (complete (c_index m) (maps s))) (c_worker m)
                  (complete (c_index m) (maps s))
    ∧ outbox s' = outbox s ++
        (if bool_decide (0 ∈ complete (c_index m) (maps s))
         then [(c_worker m, Dispatch cmd)] else [])
    ∧ log_files s' = log_files s ∧ size s' = size s
    ∧ total_counts s' = total_counts s ∧ store s' = store s
    ∧ checkpointer s' = checkpointer s.
Proof.
  intros Hlen Hw. unfold on_completion. simpl.
  rewrite py_setitem_rank by done. simpl.
  set (ms1 := complete (c_index m) (maps s)).
  destruct (make_command_total (log_files s) (next_files ms1)) as (cmd & Hcmd & Hidx).
  { intros k Hk. apply next_files_pending, lookup_lt_Some in Hk.
    unfold ms1 in Hk. rewrite complete_length in Hk. lia. }
  unfold redispatch. simpl. fold ms1. case_bool_decide as H0.
  - rewrite Hcmd. simpl. eexists _, cmd. repeat split; try done.
  - eexists _, cmd. repeat split; try done; simpl.
    + fold ms1. unfold next_files. rewrite next_files_from_none by done. by rewrite assign_nil.
    + by rewrite app_nil_r.
Qed.

End Registry.

Section Timeouts.

Implicit Types (ms ts : list Z) (s : Master) (k : nat).

Lemma py_list_index_app_fresh t l1 l2 :
  t ∉ l1 → py_list_index t (l1 ++ t :: l2) = Some (length l1).
Proof.
  induction l1 as [| y l1 IH]; intros Hnin; simpl.
  - by rewrite Z.eqb_refl.
  - apply not_elem_of_cons in Hnin as [Hne Hnin].
    destruct (y =? t) eqn:Hy; [apply Z.eqb_eq in Hy; congruence |].
    by rewrite IH.
Qed.

Lemma expired_not_in_scanned curr t (l : list Z) :
  expired curr t = true → t ∉ expire curr <$> l.
Proof.
  intros Ht Hin. apply list_elem_of_fmap in Hin as (x & Hx & _).
  unfold expire in Hx. destruct (expired curr x) eqn:Hex.
  - subst t. unfold expired in Ht. zbool. lia.
  - subst x. congruence.
Qed.

Lemma stop_signals_snoc curr ts t :
  stop_signals curr (ts ++ [t]) =
    stop_signals curr ts
    ++ if expired curr t then [(Z.of_nat (length ts) + 1, Stop)] else [].
Proof.
  unfold stop_signals. rewrite imap_app, omap_app. f_equal. simpl.
  rewrite Nat.add_0_r. by destruct (expired curr t).
Qed.

Lemma declared_dead_snoc curr ts t m :
  declared_dead curr (ts ++ [t]) m =
    declared_dead curr ts m || ((m =? Z.of_nat (length ts) + 1) && expired curr t).
Proof.
  unfold declared_dead. destruct (0 <? m) eqn:Hm; simpl.
  2: { destruct (m =? Z.of_nat (length ts) + 1) eqn:He; [zbool; lia | done]. }
  destruct (decide (Z.to_nat (m - 1) < length ts)%nat) as [Hlt | Hge].
  - rewrite lookup_app_l by done.
    destruct (lookup_lt_is_Some_2 ts _ Hlt) as [x ->].
    destruct (m =? Z.of_nat (length ts) + 1) eqn:He; [zbool; lia |].
    by rewrite orb_false_r.
  - rewrite lookup_app_r by lia. rewrite (lookup_ge_None_2 ts) by lia. simpl.
    destruct (m =? Z.of_nat (length ts) + 1) eqn:He; zbool.
    + replace (Z.to_nat (m - 1) - length ts)%nat with 0%nat by lia. done.
    + replace (Z.to_nat (m - 1) - length ts)%nat
        with (S (Z.to_nat (m - 1) - length ts - 1)) by lia. done.
Qed.

Lemma declared_dead_positive curr ts m : declared_dead curr ts m = true → 0 < m.
Proof. unfold declared_dead. intros H. zbool. lia. Qed.

Lemma timeout_at_scanned curr s k t :
  timers s !! k = Some t →
  timeout_at curr (scanned curr s k) k = Some (scanned curr s (S k)).
Proof.
  intros Hk. pose proof (lookup_lt_Some _ _ _ Hk) as Hlt.
  assert (Hlen : length (expire curr <$> take k (timers s)) = k)
    by (rewrite length_fmap, length_take; lia).
  assert (Hlen' : length (take k (timers s)) = k) by (rewrite length_take; lia).
  unfold timeout_at, scanned. cbn [timers maps outbox].
  rewrite (take_S_r _ _ _ Hk), (drop_S _ _ _ Hk), fmap_app, stop_signals_snoc, Hlen'.
  rewrite list_lookup_middle by done. cbn [mbind option_bind fmap list_fmap].
  destruct (expired curr t) eqn:Hex.
  - unfold set_timers, set_maps, send. cbn.
    rewrite !py_list_index_app_fresh by by apply expired_not_in_scanned.
    rewrite Hlen. cbn [mbind option_bind].
    replace (expire curr t) with 0 by (unfold expire; by rewrite Hex).
    f_equal. f_equal.
    + apply list_eq. intros i. unfold reclaim. rewrite !list_lookup_fmap.
      destruct (maps s !! i) as [m |]; [| done]. cbn. f_equal.
      rewrite declared_dead_snoc, Hlen', Hex, andb_true_r.
      destruct (declared_dead curr (take k (timers s)) m) eqn:Hd; cbn.
      * by destruct (Z.of_nat k + 1).
      * done.
    + rewrite insert_app_r_alt by lia.
      rewrite Hlen, Nat.sub_diag. cbn. by rewrite <- app_assoc.
    + by rewrite app_assoc.
  - replace (expire curr t) with t by (unfold expire; by rewrite Hex).
    f_equal. f_equal.
    + apply list_fmap_ext. intros _ m _.
      by rewrite declared_dead_snoc, Hex, andb_false_r, orb_false_r.
    + by rewrite <- app_assoc.
    + by rewrite app_nil_r.
Qed.

Lemma timeout_scan_prefix curr s k :
  (k ≤ length (timers s))%nat →
  foldl (λ acc j, a ← acc; timeout_at curr a j) (Some s) (seq 0 k)
  = Some (scanned curr s k).
Proof.
  induction k as [| k IH]; intros Hk.
  - simpl. unfold scanned, stop_signals. simpl. rewrite drop_0, app_nil_r.
    f_equal. destruct s as [sz files ms tc rc rs ts ck ob st]; simpl. f_equal.
    rewrite <- (list_fmap_id ms) at 1. apply list_fmap_ext. intros _ m _.
    unfold declared_dead. cbn. by rewrite andb_false_r.
  - rewrite seq_S, foldl_app, IH by lia. simpl.
    destruct (lookup_lt_is_Some_2 (timers s) k) as [t Ht]; [lia |].
    by apply timeout_at_scanned with t.
Qed.

Lemma timeout_scan_spec curr s :
  timeout_scan curr s = Some (scanned curr s (length (timers s))).
Proof. unfold timeout_scan. by apply timeout_scan_prefix. Qed.

End Timeouts.

Section Completion.

Implicit Types (ms ts : list Z) (s : Master) (m : Completion) (i k : nat).

Lemma complete_idempotent index ms :
  complete index (complete index ms) = complete index ms.
Proof.
  apply list_eq. intros i. rewrite !complete_lookup.
  destruct (ms !! i) as [x |]; [| done]. cbn. by case_bool_decide.
Qed.

Lemma complete_reported index ms i :
  i ∈ index → (i < length ms)%nat → complete index ms !! i = Some (-1).
Proof.
  intros Hin Hlt. rewrite complete_lookup.
  destruct (lookup_lt_is_Some_2 ms i Hlt) as [x ->]. cbn.
  by rewrite bool_decide_eq_true_2.
Qed.

Lemma assign_not_pending batch w ms i x :
  (∀ k, k ∈ batch → ms !! k = Some 0) → ms !! i = Some x → x ≠ 0 →
  assign batch w ms !! i = Some x.
Proof.
  intros Hb Hi Hx. rewrite assign_lookup, Hi. cbn.
  case_bool_decide as Hin; [| done]. apply Hb in Hin. congruence.
Qed.

(** C2 (as the code has it).  A completion message that lists an index
    held by another worker is not dropped: the handler marks the index
    finished, appends the message's results to [results] and adds their
    number to [recieved]. *)
Theorem report_for_foreign_unit_is_accepted
    (s : Master) (m : Completion) (now : Z) (i : nat) (owner : Z) :
  length (maps s) = length (log_files s) →
  1 ≤ c_worker m ≤ Z.of_nat (length (timers s)) →
  maps s !! i = Some owner → 0 < owner → owner ≠ c_worker m →
  i ∈ c_index m →
  ∃ s', on_completion m now s = Some s'
        ∧ maps s' !! i = Some (-1)
        ∧ results s' = results s ++ c_result m
        ∧ recieved s' = (recieved s + length (c_result m))%nat.
Proof.
  intros Hlen Hw Hi Hpos Hne Hin.
  destruct (on_completion_spec m now s Hlen Hw)
    as (s' & cmd & Hs' & _ & _ & Hres & Hrec & _ & Hmaps & _).
  exists s'. repeat split; try done. rewrite Hmaps.
  apply assign_not_pending; [apply next_files_pending | | done].
  apply complete_reported; [done | by eapply lookup_lt_Some].
Qed.

Lemma report_for_foreign_unit_example :
  ∃ s', on_completion one_file_reply 9 foreign_held = Some s'
        ∧ maps s' !! 0%nat = Some (-1)
        ∧ results s' = results foreign_held ++ c_result one_file_reply
        ∧ recieved s' = (recieved foreign_held + length (c_result one_file_reply))%nat.
Proof.
  apply (report_for_foreign_unit_is_accepted foreign_held one_file_reply 9 0%nat 2);
    [reflexivity | simpl; lia | reflexivity | lia | simpl; lia |].
  apply list_elem_of_here.
Defined.

(** C2 (as stated) fails.  In [takeover], rank 1 is timed out while it holds
    files 0-9 and they are handed to rank 2.  The reply rank 1 had under way
    then arrives: file 0 goes from "held by rank 2" to finished and the ten
    results of the message join [results]. *)
Lemma stale_report_overrides_owner :
  ∃ x m x',
    run31 [Reply 2 3; tick_at 7; Reply 2 8] = Some x
    ∧ maps (master x) !! 0%nat = Some 2
    ∧ next_reply disk31 1 x = Some m
    ∧ c_worker m = 1
    ∧ c_index m = [0; 1; 2; 3; 4; 5; 6; 7; 8; 9]%nat
    ∧ world_step disk31 (Reply 1 9) x = Some x'
    ∧ maps (master x') !! 0%nat = Some (-1)
    ∧ maps (master x') !! 0%nat ≠ maps (master x) !! 0%nat
    ∧ length (results (master x)) = 20%nat
    ∧ length (results (master x')) = 30%nat
    ∧ results (master x') ≠ results (master x).
Proof.
  eexists _, _, _. split; [vm_compute; reflexivity |].
  split; [vm_compute; reflexivity |]. split; [vm_compute; reflexivity |].
  split; [reflexivity |]. split; [reflexivity |].
  split; [vm_compute; reflexivity |]. split; [vm_compute; reflexivity |].
  split; [by vm_compute |]. split; [vm_compute; reflexivity |].
  split; [vm_compute; reflexivity |].
  intros H. apply (f_equal length) in H. by vm_compute in H.
Qed.

End Completion.

Section Duplicates.

Implicit Types (ms ts : list Z) (s : Master) (m : Completion) (i k : nat).

Lemma on_completion_lengths m now s s' :
  length (maps s) = length (log_files s) →
  1 ≤ c_worker m ≤ Z.of_nat (length (timers s)) →
  on_completion m now s = Some s' →
  length (maps s') = length (log_files s')
  ∧ length (timers s') = length (timers s)
  ∧ length (maps s') = length (maps s).
Proof.
  intros Hlen Hw Hs'.
  destruct (on_completion_spec m now s Hlen Hw)
    as (s1 & cmd & Hs1 & _ & _ & _ & _ & Hts & Hmaps & _ & Hfiles & _).
  assert (s1 = s') as -> by congruence.
  rewrite Hmaps, Hts, Hfiles, assign_length, complete_length, length_insert. done.
Qed.

(** The same message handled twice. *)
Lemma completion_twice (s : Master) (m : Completion) (now now' : Z) :
  length (maps s) = length (log_files s) →
  1 ≤ c_worker m ≤ Z.of_nat (length (timers s)) →
  complete (c_index m) (complete (c_index m) (maps s)) = complete (c_index m) (maps s)
  ∧ ∃ s1 s2,
      on_completion m now s = Some s1
      ∧ on_completion m now' s1 = Some s2
      ∧ (∀ i, i ∈ c_index m → (i < length (maps s))%nat →
           maps s1 !! i = Some (-1) ∧ maps s2 !! i = Some (-1))
      ∧ results s1 = results s ++ c_result m
      ∧ results s2 = results s ++ c_result m ++ c_result m
      ∧ recieved s1 = (recieved s + length (c_result m))%nat
      ∧ recieved s2 = (recieved s + 2 * length (c_result m))%nat
      ∧ ∃ before after,
          merge_all defaultdict_int (results s) = Some before
          ∧ merge_all defaultdict_int (results s2) = Some after
          ∧ ∀ level, level_count (items after) level
                     = level_count (items before) level
                       + 2 * level_total (c_result m) level.
Proof.
  intros Hlen Hw. split; [apply complete_idempotent |].
  destruct (on_completion_spec m now s Hlen Hw)
    as (s1 & cmd1 & Hs1 & _ & _ & Hres1 & Hrec1 & Hts1 & Hmaps1 & _).
  destruct (on_completion_lengths m now s s1 Hlen Hw Hs1) as (Hlen1 & Hlts1 & Hlm1).
  assert (Hw1 : 1 ≤ c_worker m ≤ Z.of_nat (length (timers s1))) by (rewrite Hlts1; lia).
  destruct (on_completion_spec m now' s1 Hlen1 Hw1)
    as (s2 & cmd2 & Hs2 & _ & _ & Hres2 & Hrec2 & _ & Hmaps2 & _).
  assert (Hres : results s2 = results s ++ c_result m ++ c_result m)
    by by rewrite Hres2, Hres1, <- app_assoc.
  exists s1, s2. split; [done |]. split; [done |]. split; [| split; [done |]].
  { intros i Hi Hlt. split.
    - rewrite Hmaps1. apply assign_not_pending; [apply next_files_pending | | done].
      by apply complete_reported.
    - rewrite Hmaps2. apply assign_not_pending; [apply next_files_pending | | done].
      apply complete_reported; [done | lia]. }
  split; [done |]. split; [done |]. split; [rewrite Hrec2, Hrec1; lia |].
  destruct (merge_all_default defaultdict_int (results s) eq_refl) as (before & Hb & _).
  destruct (merge_all_default defaultdict_int (results s2) eq_refl) as (after & Ha & _).
  exists before, after. split; [done |]. split; [done |]. intros level.
  rewrite (merge_all_count _ _ _ level Ha), (merge_all_count _ _ _ level Hb).
  rewrite Hres, !level_total_app. lia.
Qed.

End Duplicates.

Section StaleSender.

Implicit Types (ms ts : list Z) (s : Master) (m : Completion) (i k : nat).

Lemma on_completion_ignores_timer m now s t :
  1 ≤ c_worker m ≤ Z.of_nat (length (timers s)) →
  on_completion m now (set_timers (λ ts, <[Z.to_nat (c_worker m - 1) := t]> ts) s)
  = on_completion m now s.
Proof.
  intros Hw. unfold on_completion. cbn.
  rewrite !py_setitem_rank by (rewrite ?length_insert; lia).
  cbn. by rewrite list_insert_insert_eq.
Qed.

(** C10.  A completion message from a rank whose timer a timeout has
    cleared is handled like any other: the rank's timer is set to the
    current time and, when pending files remain, the lowest of them (at most
    ten) are sent to that rank and marked as held by it.  The handler reads
    no record of the timeout: its outcome is the same whatever the rank's
    timer held before. *)
Theorem completion_revives_timed_out_worker
    (s : Master) (m : Completion) (now : Z) :
  length (maps s) = length (log_files s) →
  1 ≤ c_worker m ≤ Z.of_nat (length (timers s)) →
  timers s !! Z.to_nat (c_worker m - 1) = Some 0 →
  ∃ s' cmd,
    on_completion m now s = Some s'
    ∧ timers s' !! Z.to_nat (c_worker m - 1) = Some now
    ∧ cmd.*2 = next_files (complete (c_index m) (maps s))
    ∧ (0 ∈ complete (c_index m) (maps s) →
         cmd ≠ []
         ∧ outbox s' = outbox s ++ [(c_worker m, Dispatch cmd)]
         ∧ ∀ i, i ∈ cmd.*2 → complete (c_index m) (maps s) !! i = Some 0
                             ∧ maps s' !! i = Some (c_worker m))
    ∧ ∀ t, on_completion m now
             (set_timers (λ ts, <[Z.to_nat (c_worker m - 1) := t]> ts) s) = Some s'.
Proof.
  intros Hlen Hw Hcleared.
  destruct (on_completion_spec m now s Hlen Hw)
    as (s' & cmd & Hs' & _ & Hidx & _ & _ & Hts & Hmaps & Hout & _).
  exists s', cmd. split; [done |]. split.
  { rewrite Hts. apply list_lookup_insert_eq. by eapply lookup_lt_Some. }
  split; [done |]. split.
  - intros Hpending. rewrite bool_decide_eq_true_2 in Hout by done.
    split; [| split; [done |]].
    + intros ->. unfold next_files in Hidx.
      destruct (next_files_from_first 9 _ 0 Hpending) as (k & rest & Hk).
      rewrite Hk in Hidx. done.
    + intros i Hi. rewrite Hidx in Hi. pose proof (next_files_pending _ _ Hi) as Hp.
      split; [done |]. rewrite Hmaps, assign_lookup, Hp. cbn.
      by rewrite bool_decide_eq_true_2.
  - intros t. by rewrite on_completion_ignores_timer.
Qed.

Lemma completion_revives_timed_out_worker_example :
  ∃ s' cmd,
    on_completion late_reply 9 after_timeout = Some s'
    ∧ timers s' !! Z.to_nat (c_worker late_reply - 1) = Some 9
    ∧ cmd.*2 = next_files (complete (c_index late_reply) (maps after_timeout))
    ∧ (0 ∈ complete (c_index late_reply) (maps after_timeout) →
         cmd ≠ []
         ∧ outbox s' = outbox after_timeout ++ [(c_worker late_reply, Dispatch cmd)]
         ∧ ∀ i, i ∈ cmd.*2 →
                complete (c_index late_reply) (maps after_timeout) !! i = Some 0
                ∧ maps s' !! i = Some (c_worker late_reply))
    ∧ ∀ t, on_completion late_reply 9
             (set_timers (λ ts, <[Z.to_nat (c_worker late_reply - 1) := t]> ts) after_timeout)
           = Some s'.
Proof.
  apply (completion_revives_timed_out_worker after_timeout late_reply 9);
    [reflexivity | simpl; lia | reflexivity].
Defined.

Example after_timeout_is_reached :
  (x ← run11 [Reply 3 2; tick_at 8]; Some (master x, next_reply disk31 2 x))
  = Some (after_timeout, Some late_reply).
Proof. by vm_compute. Qed.

Example stopped_worker_is_sent_the_next_files :
  (s' ← on_completion late_reply 9 after_timeout;
   Some (maps s', timers s', drop 6 (outbox s')))
  = Some ([2; 2; 2; 2; 2; 2; 2; 2; 2; 2; -1], [0; 9; 0; 0],
          [(2, Dispatch [("f00", 0); ("f01", 1); ("f02", 2); ("f03", 3); ("f04", 4);
                         ("f05", 5); ("f06", 6); ("f07", 7); ("f08", 8);
                         ("f09", 9)]%string%nat)]).
Proof. reflexivity. Qed.

End StaleSender.

Section Idle.

Implicit Types (ms ts : list Z) (s : Master) (m : Completion) (i k : nat).

Lemma periodic_checkpoint_total t s :
  length (maps s) = length (log_files s) →
  ∃ curr_counts completed_files todo_files,
    merge_all defaultdict_int (results s) = Some curr_counts
    ∧ snapshot_files (maps s) (log_files s) = Some (completed_files, todo_files)
    ∧ periodic_checkpoint t s
      = Some (save_checkpoint
                (mkCheckpoint t (items curr_counts) completed_files todo_files) s).
Proof.
  intros Hlen. unfold periodic_checkpoint.
  destruct (merge_all_default defaultdict_int (results s) eq_refl) as (cc & Hcc & _).
  destruct (snapshot_files_spec _ _ Hlen) as (p & q & Hpq & _).
  exists cc, p, q. by rewrite Hcc, Hpq.
Qed.

(** The state an iteration without a message leaves, field by field. *)
Lemma on_idle_spec clk s :
  length (maps s) = length (log_files s) →
  ∃ s', on_idle clk s = Some s'
    ∧ maps s' = (λ u, if declared_dead (t_scan clk) (timers s) u then 0 else u) <$> maps s
    ∧ timers s' = expire (t_scan clk) <$> timers s
    ∧ outbox s' = outbox s ++ stop_signals (t_scan clk) (timers s)
    ∧ results s' = results s ∧ recieved s' = recieved s
    ∧ log_files s' = log_files s ∧ size s' = size s
    ∧ total_counts s' = total_counts s.
Proof.
  intros Hlen. unfold on_idle.
  destruct (5 <? t_check clk - checkpointer s).
  - destruct (periodic_checkpoint_total (t_stamp clk) (set_checkpointer (t_mark clk) s) Hlen)
      as (cc & p & q & _ & _ & ->).
    cbn [mbind option_bind]. rewrite timeout_scan_spec. eexists. split; [done |].
    cbn. by rewrite firstn_all, drop_all, app_nil_r.
  - cbn [mbind option_bind]. rewrite timeout_scan_spec. eexists. split; [done |].
    cbn. by rewrite firstn_all, drop_all, app_nil_r.
Qed.

Lemma stop_signals_elem curr ts rank :
  (rank, Stop) ∈ stop_signals curr ts
  ↔ ∃ k t, ts !! k = Some t ∧ expired curr t = true ∧ rank = Z.of_nat k + 1.
Proof.
  unfold stop_signals. rewrite list_elem_of_omap. split.
  - intros (o & Ho & Hid). cbn in Hid. subst o.
    apply elem_of_lookup_imap in Ho as (k & t & Heq & Hk).
    destruct (expired curr t) eqn:Hex; [| done].
    injection Heq as ->. eauto.
  - intros (k & t & Hk & Hex & ->). exists (Some (Z.of_nat k + 1, Stop)). split; [| done].
    apply elem_of_lookup_imap. exists k, t. by rewrite Hex.
Qed.

End Idle.

Section UnitStates.

Implicit Types (ms ts : list Z) (s : Master) (m : Completion) (i k : nat).

Lemma on_completion_inv m now s s' :
  on_completion m now s = Some s' →
  maps s' = assign (next_files (complete (c_index m) (maps s))) (c_worker m)
              (complete (c_index m) (maps s))
  ∧ log_files s' = log_files s
  ∧ results s' = results s ++ c_result m
  ∧ recieved s' = (recieved s + length (c_result m))%nat.
Proof.
  unfold on_completion. cbn.
  destruct (py_setitem (timers s) (c_worker m - 1) now) as [ts |]; [| done]. cbn.
  unfold redispatch. cbn [maps set_maps set_timers record_results log_files].
  case_bool_decide as H0.
  - destruct (make_command (log_files s) _) as [cmd |]; [| done].
    cbn. intros [= <-]. by cbn.
  - intros [= <-]. cbn. unfold next_files.
    by rewrite next_files_from_none, assign_nil.
Qed.

Lemma declared_dead_iff curr ts u :
  declared_dead curr ts u = true
  ↔ ∃ k t, u = Z.of_nat k + 1 ∧ ts !! k = Some t ∧ 5 < curr - t ∧ 0 < t.
Proof.
  unfold declared_dead, expired. split.
  - intros H. apply andb_true_iff in H as [Hu H].
    destruct (ts !! Z.to_nat (u - 1)) as [t |] eqn:Ht; [| done]. zbool.
    exists (Z.to_nat (u - 1)), t. repeat split; try done; lia.
  - intros (k & t & -> & Ht & H5 & H0).
    replace (Z.to_nat (Z.of_nat k + 1 - 1)) with k by lia. rewrite Ht.
    apply andb_true_iff. split; [apply Z.ltb_lt; lia |].
    apply andb_true_iff. split; apply Z.ltb_lt; lia.
Qed.

Lemma iteration_step p s s' i a :
  length (maps s) = length (log_files s) →
  iteration p s = Some s' →
  maps s !! i = Some a →
  length (maps s') = length (log_files s')
  ∧ ∃ b, maps s' !! i = Some b
    ∧ (a = -1 → b = -1)
    ∧ (a = b
       ∨ (a = 0 ∧ ∃ m now, p = Arrived m now ∧ b = c_worker m)
       ∨ (0 < a ∧ b = 0
          ∧ ∃ clk, p = Nothing clk ∧ declared_dead (t_scan clk) (timers s) a = true)
       ∨ (b = -1 ∧ ∃ m now, p = Arrived m now ∧ i ∈ c_index m)).
Proof.
  intros Hlen Hit Ha. destruct p as [clk | m now]; cbn in Hit.
  - destruct (on_idle_spec clk s Hlen) as (s1 & Hs1 & Hmaps & _ & _ & _ & _ & Hfiles & _).
    assert (s1 = s') as -> by congruence.
    split; [by rewrite Hmaps, Hfiles, length_fmap |].
    rewrite Hmaps, list_lookup_fmap, Ha. cbn. eexists. split; [done |].
    destruct (declared_dead (t_scan clk) (timers s) a) eqn:Hd.
    + pose proof (declared_dead_positive _ _ _ Hd). split; [lia |].
      right. right. left. eauto.
    + split; [done | by left].
  - apply on_completion_inv in Hit as (Hmaps & Hfiles & _).
    split; [by rewrite Hmaps, Hfiles, assign_length, complete_length |].
    rewrite Hmaps, assign_lookup, complete_lookup, Ha. cbn.
    eexists. split; [done |].
    case_bool_decide as Hbatch.
    + apply next_files_pending in Hbatch. rewrite complete_lookup, Ha in Hbatch.
      cbn in Hbatch. case_bool_decide as Hidx; [done |].
      injection Hbatch as ->. split; [done |]. right. left. eauto.
    + case_bool_decide as Hidx.
      * split; [done |]. right. right. right. eauto.
      * split; [done | by left].
Qed.

Lemma monitor_keeps_done polls s s' i :
  length (maps s) = length (log_files s) →
  monitor polls s = Some s' →
  maps s !! i = Some (-1) → maps s' !! i = Some (-1).
Proof.
  revert s. induction polls as [| p polls IH]; intros s Hlen Hrun Hi; cbn in Hrun.
  - destruct (loop_cond s); congruence.
  - destruct (loop_cond s); [| congruence].
    destruct (iteration p s) as [s1 |] eqn:Hit; [| done]. cbn in Hrun.
    destruct (iteration_step p s s1 i (-1) Hlen Hit Hi) as (Hlen1 & b & Hb & Hdone & _).
    apply (IH s1); [done | done |]. by rewrite Hb, Hdone.
Qed.

End UnitStates.


Section TimeoutScan.

Implicit Types (ms ts : list Z) (s : Master) (m : Completion) (i k : nat).

(** C6 (as the code has it).  A scan at time [t_scan] declares a rank dead
    exactly when its timer is set (positive) and more than 5 older than
    [t_scan]; whether units are still held by the rank is not looked at.  A
    rank declared dead is sent the stop signal, its timer is cleared and
    every unit it held is pending again; the other timers and units are left
    as they were.  A pending unit among those [next_files] picks is handed
    to whichever rank reports next. *)
Theorem timeout_scan_declares_dead (clk : IdleClock) (s : Master) :
  length (maps s) = length (log_files s) →
  ∃ s', on_idle clk s = Some s'
    ∧ (∃ stops, outbox s' = outbox s ++ stops
         ∧ ∀ rank, (rank, Stop) ∈ stops
                   ↔ ∃ k t, timers s !! k = Some t ∧ rank = Z.of_nat k + 1
                            ∧ 5 < t_scan clk - t ∧ 0 < t)
    ∧ (∀ k t, timers s !! k = Some t →
         timers s' !! k = Some (if expired (t_scan clk) t then 0 else t))
    ∧ (∀ u, declared_dead (t_scan clk) (timers s) u = true
            ↔ ∃ k t, u = Z.of_nat k + 1 ∧ timers s !! k = Some t
                     ∧ 5 < t_scan clk - t ∧ 0 < t)
    ∧ (∀ i u, maps s !! i = Some u →
         maps s' !! i = Some (if declared_dead (t_scan clk) (timers s) u then 0 else u))
    ∧ (∀ m now i,
         1 ≤ c_worker m ≤ Z.of_nat (length (timers s')) →
         i ∈ next_files (complete (c_index m) (maps s')) →
         ∃ s'', on_completion m now s' = Some s'' ∧ maps s'' !! i = Some (c_worker m)).
Proof.
  intros Hlen.
  destruct (on_idle_spec clk s Hlen)
    as (s' & Hs' & Hmaps & Hts & Hout & _ & _ & Hfiles & _).
  exists s'. split; [done |]. split; [| split; [| split; [| split]]].
  - exists (stop_signals (t_scan clk) (timers s)). split; [done |].
    intros rank. rewrite stop_signals_elem. unfold expired.
    split; intros (k & t & H); exists k, t.
    + destruct H as (Hk & Hex & ->). zbool. done.
    + destruct H as (Hk & -> & H5 & H0). repeat split; try done.
      apply andb_true_iff. split; by apply Z.ltb_lt.
  - intros k t Hk. by rewrite Hts, list_lookup_fmap, Hk.
  - intros u. apply declared_dead_iff.
  - intros i u Hi. by rewrite Hmaps, list_lookup_fmap, Hi.
  - intros m now i Hw Hi.
    assert (Hlen' : length (maps s') = length (log_files s'))
      by by rewrite Hmaps, Hfiles, length_fmap.
    destruct (on_completion_spec m now s' Hlen' Hw)
      as (s'' & cmd & Hs'' & _ & _ & _ & _ & _ & Hmaps'' & _).
    exists s''. split; [done |].
    rewrite Hmaps'', assign_lookup, (next_files_pending _ _ Hi). cbn.
    by rewrite bool_decide_eq_true_2.
Qed.

End TimeoutScan.

Section TimeoutScanExamples.

Lemma timeout_scan_declares_dead_example :
  ∃ s', on_idle (mkIdleClock 7 7 7 7) one_file_held = Some s'
    ∧ (∃ stops, outbox s' = outbox one_file_held ++ stops
         ∧ ∀ rank, (rank, Stop) ∈ stops
                   ↔ ∃ k t, timers one_file_held !! k = Some t ∧ rank = Z.of_nat k + 1
                            ∧ 5 < 7 - t ∧ 0 < t)
    ∧ (∀ k t, timers one_file_held !! k = Some t →
         timers s' !! k = Some (if expired 7 t then 0 else t))
    ∧ (∀ u, declared_dead 7 (timers one_file_held) u = true
            ↔ ∃ k t, u = Z.of_nat k + 1 ∧ timers one_file_held !! k = Some t
                     ∧ 5 < 7 - t ∧ 0 < t)
    ∧ (∀ i u, maps one_file_held !! i = Some u →
         maps s' !! i = Some (if declared_dead 7 (timers one_file_held) u then 0 else u))
    ∧ (∀ m now i,
         1 ≤ c_worker m ≤ Z.of_nat (length (timers s')) →
         i ∈ next_files (complete (c_index m) (maps s')) →
         ∃ s'', on_completion m now s' = Some s'' ∧ maps s'' !! i = Some (c_worker m)).
Proof.
  apply (timeout_scan_declares_dead (mkIdleClock 7 7 7 7) one_file_held). reflexivity.
Defined.

(** C6 (as stated) fails.  In the eleven-file run rank 3 is sent an empty
    command and answers it at time 2; nothing is pending, so it is sent
    nothing more and holds no unit.  Its timer was set by the answer, and
    the scan at time 8 declares it dead: it is sent the stop signal and its
    timer is cleared. *)
Lemma idle_worker_is_declared_dead :
  ∃ x x',
    run11 [Reply 3 2] = Some x
    ∧ maps (master x) = [1; 1; 1; 1; 1; 1; 1; 1; 1; 1; 2]
    ∧ (3 ∉ maps (master x))
    ∧ timers (master x) !! 2%nat = Some 2
    ∧ ((3, Stop) ∉ outbox (master x))
    ∧ world_step disk31 (tick_at 8) x = Some x'
    ∧ (3, Stop) ∈ outbox (master x')
    ∧ timers (master x') !! 2%nat = Some 0.
Proof.
  eexists _, _. split; [vm_compute; reflexivity |].
  split; [by vm_compute |].
  split; [apply (bool_decide_unpack _); by vm_compute |].
  split; [by vm_compute |].
  split; [apply (bool_decide_unpack _); by vm_compute |].
  split; [vm_compute; reflexivity |].
  split; [apply (bool_decide_unpack _); by vm_compute |].
  by vm_compute.
Qed.

End TimeoutScanExamples.

Section LoopExit.

Implicit Types (ms ts : list Z) (s : Master) (m : Completion) (i k : nat).

Lemma count_done_le ms : (count_done ms ≤ length ms)%nat.
Proof. unfold count_done. apply length_filter. Qed.

Lemma count_done_all ms : count_done ms = length ms → is_complete ms = true.
Proof.
  unfold count_done, is_complete. induction ms as [| x ms IH]; [done |].
  rewrite filter_cons. cbn. case_decide as Hx.
  - cbn. intros [= H]. subst x. by rewrite IH.
  - intros H. pose proof (length_filter (λ u, u = -1) ms). lia.
Qed.

(** When the loop is left, and what that says of the units. *)
Lemma loop_exit_state (s : Master) :
  length (maps s) = length (log_files s) →
  (loop_cond s = false
   ↔ (0 ∉ maps s) ∧ (length (log_files s) ≤ recieved s)%nat)
  ∧ (loop_cond s = false → (recieved s ≤ count_done (maps s))%nat →
     is_complete (maps s) = true).
Proof.
  intros Hlen.
  assert (Hiff : loop_cond s = false
                 ↔ (0 ∉ maps s) ∧ (length (log_files s) ≤ recieved s)%nat).
  { unfold loop_cond. rewrite orb_false_iff, !bool_decide_eq_false. split.
    - intros [H0 Hr]. split; [done | lia].
    - intros [H0 Hr]. split; [done | lia]. }
  split; [done |]. intros Hexit Hrec. apply Hiff in Hexit as [_ Hall].
  apply count_done_all. pose proof (count_done_le (maps s)). lia.
Qed.

End LoopExit.


Section SaveCheckpoint.

Lemma string_app_nil_r (s : string) : s +:+ "" = s.
Proof.
  induction s as [| c s IH]; [done |].
  change (String c (s +:+ "") = String c s). by f_equal.
Qed.

Lemma string_app_cons (c : Ascii.ascii) (a b : string) :
  String c a +:+ b = String c (a +:+ b).
Proof. done. Qed.

Lemma string_app_assoc (a b c : string) : (a +:+ b) +:+ c = a +:+ (b +:+ c).
Proof. induction a as [| x a IH]; [done |]. rewrite !string_app_cons. by f_equal. Qed.

Lemma string_prefix_refl (s : string) : String.prefix s s = true.
Proof.
  induction s as [| c s IH]; [done |]. cbn. by destruct (Ascii.ascii_dec c c).
Qed.

(** The writes that have reached the file when [j] of them are done. *)
Lemma write_steps_run (text p : string) (j : nat) :
  ∃ q, foldl save_step (File p) (take j (write_steps text)) = File (p +:+ q)
       ∧ String.prefix q text = true
       ∧ (j = String.length text → q = text).
Proof.
  revert p j. induction text as [| c text IH]; intros p j.
  - exists ""%string. rewrite string_app_nil_r. simpl. by rewrite take_nil.
  - destruct j as [| j].
    + exists ""%string. by rewrite string_app_nil_r.
    + simpl. destruct (IH (p +:+ String c "") j) as (q & Hrun & Hpre & Hall).
      exists (String c q). rewrite Hrun, string_app_assoc.
      split; [done |]. split.
      * by destruct (Ascii.ascii_dec c c).
      * intros [= Hj]. by rewrite Hall.
Qed.

(** C7 (as the code has it).  [save_checkpoint] removes the folder of the
    previous checkpoint before it writes the new record.  An interrupted
    save therefore leaves the old record only if it is interrupted before
    the first step; after that there is no checkpoint file at all, or a
    file holding a prefix of the new text, empty at first and complete only
    once the last write is done.  The file never holds any text of the old
    record next to text of the new one. *)
Theorem interrupted_save_states (d : Folder) (old text : string) (k : nat) :
  interrupted_save d text 0 = d
  ∧ interrupted_save (File old) text 1 = NoFolder
  ∧ interrupted_save (File old) text 2 = NoFile
  ∧ interrupted_save (File old) text 3 = File ""
  ∧ (load_text (interrupted_save d text (S k)) = None
     ∨ ∃ q, load_text (interrupted_save d text (S k)) = Some q
            ∧ String.prefix q text = true)
  ∧ interrupted_save d text (length (save_steps d text)) = File text.
Proof.
  split; [done |]. split; [done |]. split; [done |]. split; [done |].
  unfold interrupted_save, save_steps. split.
  - destruct (folder_exists d) eqn:Hd; cbn [app].
    + destruct k as [| [| k]]; [by left | by left |]. right.
      cbn [take foldl save_step].
      destruct (write_steps_run text "" k) as (q & -> & Hpre & _). by exists q.
    + destruct d; try done.
      destruct k as [| k]; [by left |]. right. cbn [take foldl save_step].
      destruct (write_steps_run text "" k) as (q & -> & Hpre & _). by exists q.
  - rewrite firstn_all.
    assert (Hlen : ∀ t, length (write_steps t) = String.length t).
    { intros t. induction t as [| c t IH]; [done |]. cbn. by rewrite IH. }
    assert (Hfull : foldl save_step (File "") (write_steps text) = File text).
    { destruct (write_steps_run text "" (String.length text)) as (q & Hrun & _ & Hall).
      rewrite <- Hlen, firstn_all in Hrun. rewrite Hrun. cbn. by rewrite Hall. }
    destruct d; cbn; apply Hfull.
Qed.

(** C7 (as stated) fails.  A save interrupted right after the old folder is
    removed leaves no checkpoint: what a restart loads is neither the old
    nor the new record.  Interrupted later, the file holds the beginning of
    the new text only. *)
Lemma interrupted_save_loses_old_record :
  load_text (interrupted_save (File "{counts: {INFO: 1}}") "{counts: {INFO: 2}}" 1) = None
  ∧ load_text (interrupted_save (File "{counts: {INFO: 1}}") "{counts: {INFO: 2}}" 1)
    ≠ Some "{counts: {INFO: 1}}"%string
  ∧ load_text (interrupted_save (File "{counts: {INFO: 1}}") "{counts: {INFO: 2}}" 1)
    ≠ Some "{counts: {INFO: 2}}"%string
  ∧ load_text (interrupted_save (File "{counts: {INFO: 1}}") "{counts: {INFO: 2}}" 10)
    = Some "{counts"%string.
Proof. by vm_compute. Qed.

End SaveCheckpoint.

Section Resume.

(** C4, evaluated where it fails.  The run over [a.log] that is never
    interrupted ends with the aggregate INFO = 1.  The same run writes
    [early_checkpoint] when the tick at time 7 comes before the worker's
    reply.  A run resumed from it takes the counts of the checkpoint as a
    plain dict, so merging the reply's INFO count into it after the loop
    raises [KeyError] and no aggregate is produced. *)
Theorem resume_from_early_checkpoint_raises :
  (∃ final,
     execution disk1 2 None ["a.log"%string] dispatch_clock 1 [Reply 1 3] 4 = Some final
     ∧ items (total_counts final) = {["INFO" := 1]})
  ∧ (∃ x, start 2 None ["a.log"%string] dispatch_clock 1 ≫= world_run disk1 [tick_at 7]
          = Some x
          ∧ store (master x) = Some early_checkpoint)
  ∧ (∃ x, start 2 (Some early_checkpoint) [] (λ _, 21) 21 ≫= world_run disk1 [Reply 1 23]
          = Some x
          ∧ loop_cond (master x) = false
          ∧ is_complete (maps (master x)) = true
          ∧ total_counts (master x) = mkPyDict false ∅
          ∧ results (master x) = [{["INFO" := 1]}]
          ∧ merge_all (total_counts (master x)) (results (master x)) = None
          ∧ finish 24 (master x) = None)
  ∧ execution disk1 2 (Some early_checkpoint) [] (λ _, 21) 21 [Reply 1 23] 24 = None.
Proof.
  split; [eexists; split; [vm_compute; reflexivity | by vm_compute] |].
  split; [eexists; split; [vm_compute; reflexivity | by vm_compute] |].
  split; [| by vm_compute].
  eexists. split; [vm_compute; reflexivity |].
  repeat split; by vm_compute.
Qed.

(** Where the resume does add up: when the merge after the loop finds every
    level it needs in the counts of the checkpoint, the resumed aggregate is
    the sum of the results folded into the checkpoint and of those received
    after the restart. *)
Lemma resumed_aggregate_adds_up (before after : list (gmap string Z))
    (saved final : PyDict) (level : string) :
  merge_all defaultdict_int before = Some saved →
  merge_all (mkPyDict false (items saved)) after = Some final →
  level_count (items final) level = level_total (before ++ after) level.
Proof.
  intros Hsaved Hfinal.
  rewrite (merge_all_count _ _ _ level Hfinal). cbn [items].
  rewrite (merge_all_count _ _ _ level Hsaved), level_total_app.
  unfold level_count at 1. cbn. by rewrite lookup_empty.
Qed.

(** The second way a resume loses counts: the periodic checkpoint holds the
    counts of the results received in the current run only.  The eleven-file
    run writes a checkpoint with ten processed files and their ten INFO
    lines; a run resumed from it writes, before its worker reports, a
    checkpoint that still lists the ten files as processed and has no
    counts. *)
Lemma checkpoint_of_resumed_run_drops_counts :
  ∃ x ck x' ck',
    run11 [Reply 3 2; Reply 1 3; tick_at 8] = Some x
    ∧ store (master x) = Some ck
    ∧ ck_counts ck = {["INFO" := 10]}
    ∧ length (ck_processed_files ck) = 10%nat
    ∧ ck_pending_files ck = ["f10"%string]
    ∧ start 4 (Some ck) [] (λ _, 21) 21
      ≫= world_run disk31 [Reply 2 22; Reply 3 23; tick_at 27] = Some x'
    ∧ store (master x') = Some ck'
    ∧ ck_processed_files ck' = ck_processed_files ck
    ∧ ck_pending_files ck' = ["f10"%string]
    ∧ ck_counts ck' = ∅.
Proof.
  eexists _, _, _, _. split; [vm_compute; reflexivity |].
  split; [reflexivity |]. split; [by vm_compute |]. split; [reflexivity |].
  split; [reflexivity |]. split; [vm_compute; reflexivity |].
  split; [reflexivity |]. split; [reflexivity |]. split; [reflexivity |]. by vm_compute.
Qed.

End Resume.

Section Reachable.

Implicit Types (ms ts : list Z) (s : Master) (m : Completion) (i k : nat).

Lemma foldl_option_none {A B} (f : A → B → option A) (l : list B) :
  foldl (λ acc b, a ← acc; f a b) None l = None.
Proof. induction l; done. Qed.

(** A relation every step of a fold in the [option] monad respects holds
    between its start and its result. *)
Lemma foldl_option_rel {A B} (f : A → B → option A) (R : A → A → Prop) (l : list B) :
  (∀ a, R a a) → (∀ a b c, R a b → R b c → R a c) →
  (∀ a b a', b ∈ l → f a b = Some a' → R a a') →
  ∀ a a', foldl (λ acc b, x ← acc; f x b) (Some a) l = Some a' → R a a'.
Proof.
  intros Hrefl Htrans. induction l as [| b l IH]; intros Hstep a a'.
  - cbn [foldl]. intros [= ->]. apply Hrefl.
  - cbn [foldl mbind option_bind]. destruct (f a b) as [a1 |] eqn:Ha1.
    + intros H. eapply Htrans; [eapply Hstep; [apply list_elem_of_here | done] |].
      apply IH; [| done]. intros a0 b0 a0' Hb0. apply Hstep. by apply list_elem_of_further.
    + by rewrite foldl_option_none.
Qed.

Lemma mark_batch_length w batch ms ms' :
  mark_batch w batch ms = Some ms' → length ms' = length ms.
Proof.
  unfold mark_batch.
  apply (foldl_option_rel
           (λ (m0 : list Z) k, if bool_decide (k < length m0)%nat
                               then Some (<[k := w]> m0) else None)
           (λ a b, length b = length a)); [done | congruence |].
  intros a k a' _. case_bool_decide; [| done]. intros [= <-]. apply length_insert.
Qed.

Lemma dispatch_to_lengths fi clock s i s' :
  dispatch_to fi clock s i = Some s' →
  length (maps s') = length (maps s) ∧ log_files s' = log_files s ∧ size s' = size s.
Proof.
  unfold dispatch_to.
  destruct (make_command (log_files s) (initial_batch i fi)) as [cmd |]; [| done].
  cbn [mbind option_bind].
  destruct (py_setitem _ (Z.of_nat i - 1) (clock i)) as [ts |]; [| done].
  cbn [mbind option_bind].
  destruct (mark_batch (Z.of_nat i) (initial_batch i fi) _) as [ms |] eqn:Hms; [| done].
  cbn [mbind option_bind].
  intros [= <-]. cbn. by apply mark_batch_length in Hms.
Qed.

Lemma initial_dispatch_lengths clock t_loop s s' :
  initial_dispatch clock t_loop s = Some s' →
  length (maps s') = length (maps s) ∧ log_files s' = log_files s.
Proof.
  unfold initial_dispatch.
  destruct (foldl _ _ _) as [a' |] eqn:Ha'; [| done].
  cbn [mbind option_bind]. intros [= <-]. cbn.
  revert Ha'.
  apply (foldl_option_rel (dispatch_to (first_indices (size s) (maps s)) clock)
           (λ a b, length (maps b) = length (maps a) ∧ log_files b = log_files a)).
  - done.
  - intros a b c [H1 H2] [H3 H4]. split; congruence.
  - intros a i a1 _ Ha1. by apply dispatch_to_lengths in Ha1 as (H3 & H4 & _).
Qed.

Lemma setup_lengths sz on_disk found s :
  setup sz on_disk found = Some s → length (maps s) = length (log_files s).
Proof.
  unfold setup. case_bool_decide; [done |]. intros [= <-].
  destruct on_disk as [ck |]; cbn.
  - by rewrite !length_app, !length_replicate.
  - by rewrite length_replicate.
Qed.

Lemma iteration_lengths p s s' :
  length (maps s) = length (log_files s) →
  iteration p s = Some s' →
  length (maps s') = length (log_files s').
Proof.
  intros Hlen Hit. destruct p as [clk | m now]; cbn in Hit.
  - destruct (on_idle_spec clk s Hlen) as (s1 & Hs1 & Hmaps & _ & _ & _ & _ & Hfiles & _).
    assert (s1 = s') as -> by congruence. by rewrite Hmaps, Hfiles, length_fmap.
  - apply on_completion_inv in Hit as (Hmaps & Hfiles & _).
    by rewrite Hmaps, Hfiles, assign_length, complete_length.
Qed.

Lemma world_step_iteration disk e x x' :
  world_step disk e x = Some x' →
  ∃ p, iteration p (master x) = Some (master x').
Proof.
  destruct e as [clk | rank now]; cbn.
  - destruct (on_idle clk (master x)) as [s |] eqn:Hs; [| done]. cbn.
    intros [= <-]. by exists (Nothing clk).
  - destruct (next_reply disk rank x) as [m |]; [| done]. cbn.
    destruct (on_completion m now (master x)) as [s |] eqn:Hs; [| done]. cbn.
    intros [= <-]. by exists (Arrived m now).
Qed.

(** Every state a run reaches has one [maps] entry per file, which is what
    the checkpoint and transition lemmas assume. *)
Lemma reachable_lengths disk sz on_disk found clock t_loop evs x x' :
  start sz on_disk found clock t_loop = Some x →
  world_run disk evs x = Some x' →
  length (maps (master x')) = length (log_files (master x')).
Proof.
  intros Hstart Hrun.
  assert (Hx : length (maps (master x)) = length (log_files (master x))).
  { unfold start in Hstart.
    destruct (setup sz on_disk found) as [s |] eqn:Hs; [| done]. cbn in Hstart.
    destruct (initial_dispatch clock t_loop s) as [s1 |] eqn:Hs1; [| done].
    injection Hstart as <-. cbn.
    apply setup_lengths in Hs. apply initial_dispatch_lengths in Hs1 as [H1 H2].
    congruence. }
  clear Hstart. revert x Hrun Hx. induction evs as [| e evs IH]; intros x Hrun Hx; cbn in Hrun.
  - destruct (loop_cond (master x)); congruence.
  - destruct (loop_cond (master x)); [| congruence].
    destruct (world_step disk e x) as [x1 |] eqn:Hx1; [| done]. cbn in Hrun.
    apply (IH x1); [done |].
    destruct (world_step_iteration _ _ _ _ Hx1) as [p Hp].
    by eapply iteration_lengths.
Qed.

End Reachable.

Section InitialDispatch.

Implicit Types (ms ts : list Z) (s : Master) (i k : nat).

Lemma first_indices_from_pending cap ms i0 collected k :
  k ∈ first_indices_from i0 cap collected ms →
  (i0 ≤ k)%nat ∧ ms !! (k - i0)%nat = Some 0.
Proof.
  revert i0 collected.
  induction ms as [| x ms IH]; intros i0 collected; cbn [first_indices_from].
  - intros H. by apply elem_of_nil in H.
  - destruct (x =? 0) eqn:Hx.
    + rewrite elem_of_cons. intros [-> | Hk].
      * split; [lia |]. replace (i0 - i0)%nat with 0%nat by lia. cbn. zbool. by subst.
      * destruct (S collected =? cap)%nat; [by apply elem_of_nil in Hk |].
        apply IH in Hk as [Hle Hk]. split; [lia |].
        by replace (k - i0)%nat with (S (k - S i0)) by lia.
    + intros Hk. apply IH in Hk as [Hle Hk]. split; [lia |].
      by replace (k - i0)%nat with (S (k - S i0)) by lia.
Qed.

Lemma first_indices_pending sz ms k : k ∈ first_indices sz ms → ms !! k = Some 0.
Proof.
  intros Hk. apply first_indices_from_pending in Hk as [_ Hk].
  by replace (k - 0)%nat with k in Hk by lia.
Qed.

Lemma initial_batch_subset i (fi : list nat) k : k ∈ initial_batch i fi → k ∈ fi.
Proof.
  unfold initial_batch. rewrite list_elem_of_omap. intros (j & _ & Hj).
  by eapply list_elem_of_lookup_2.
Qed.

Lemma mark_batch_changes w batch ms ms' i :
  mark_batch w batch ms = Some ms' →
  ms' !! i = ms !! i ∨ (i ∈ batch ∧ ms' !! i = Some w).
Proof.
  unfold mark_batch.
  apply (foldl_option_rel
           (λ (m0 : list Z) k, if bool_decide (k < length m0)%nat
                               then Some (<[k := w]> m0) else None)
           (λ a b, b !! i = a !! i ∨ (i ∈ batch ∧ b !! i = Some w))).
  - by left.
  - intros a b c [Hab | Hab] [Hbc | Hbc]; [left; congruence | by right | | by right].
    right. split; [apply Hab |]. rewrite Hbc. apply Hab.
  - intros a k a' Hk. case_bool_decide as Hlt; [| done]. intros [= <-].
    destruct (decide (i = k)) as [-> | Hne].
    + right. split; [done |]. by apply list_lookup_insert_eq.
    + left. by apply list_lookup_insert_ne.
Qed.

(** The initial dispatch leaves a unit as it was or takes it from pending
    to held by one of the ranks [1 .. size-1]. *)
Lemma initial_dispatch_changes clock t_loop s s' i a b :
  initial_dispatch clock t_loop s = Some s' →
  maps s !! i = Some a → maps s' !! i = Some b →
  a = b ∨ (a = 0 ∧ ∃ rank, (1 ≤ rank < size s)%nat ∧ b = Z.of_nat rank).
Proof.
  unfold initial_dispatch.
  destruct (foldl _ _ _) as [s1 |] eqn:Hfold; [| done].
  cbn [mbind option_bind]. intros [= <-]. cbn [maps set_checkpointer].
  intros Ha Hb. set (fi := first_indices (size s) (maps s)) in *.
  assert (Hrel : maps s1 !! i = maps s !! i
                 ∨ (i ∈ fi ∧ ∃ rank, (1 ≤ rank < size s)%nat
                                     ∧ maps s1 !! i = Some (Z.of_nat rank))).
  { revert Hfold.
    apply (foldl_option_rel (dispatch_to fi clock)
             (λ x y, maps y !! i = maps x !! i
                     ∨ (i ∈ fi ∧ ∃ rank, (1 ≤ rank < size s)%nat
                                         ∧ maps y !! i = Some (Z.of_nat rank)))).
    - by left.
    - intros x y z [Hxy | Hxy] [Hyz | Hyz]; [left; congruence | by right | | by right].
      right. split; [apply Hxy |]. rewrite Hyz. apply Hxy.
    - intros x rank y Hrank. unfold dispatch_to.
      destruct (make_command (log_files x) (initial_batch rank fi)) as [cmd |]; [| done].
      cbn [mbind option_bind].
      destruct (py_setitem _ (Z.of_nat rank - 1) (clock rank)) as [ts |]; [| done].
      cbn [mbind option_bind].
      destruct (mark_batch (Z.of_nat rank) (initial_batch rank fi) _) as [ms |] eqn:Hms;
        [| done].
      cbn [mbind option_bind]. intros [= <-]. cbn.
      destruct (mark_batch_changes _ _ _ _ i Hms) as [Hsame | [Hin Hval]]; [by left |].
      right. split; [by eapply initial_batch_subset |].
      exists rank. split; [| done]. apply elem_of_seq in Hrank. lia. }
  destruct Hrel as [Hsame | (Hin & rank & Hrank & Hval)].
  - left. congruence.
  - right. apply first_indices_pending in Hin. split; [congruence |].
    exists rank. split; [done | congruence].
Qed.

End InitialDispatch.

Section UnitStateChanges.

Implicit Types (ms ts : list Z) (s : Master) (m : Completion) (i k : nat).

(** C5 (as the code has it).  In one iteration of the loop a unit keeps its
    state or makes one of these changes: pending to held by the rank whose
    message is being handled; held by a rank to pending, in a scan that
    declares that rank dead; any state to finished, on a message that lists
    the unit, whoever held it and also when it was pending.  A finished
    unit stays finished, in one iteration and along every run of the loop.
    The initial dispatch only takes units from pending to held. *)
Theorem unit_state_changes (s : Master) :
  length (maps s) = length (log_files s) →
  (∀ p s' i a b,
     iteration p s = Some s' → maps s !! i = Some a → maps s' !! i = Some b →
     (a = -1 → b = -1)
     ∧ (a = b
        ∨ (a = 0 ∧ ∃ m now, p = Arrived m now ∧ b = c_worker m)
        ∨ (0 < a ∧ b = 0
           ∧ ∃ clk, p = Nothing clk ∧ declared_dead (t_scan clk) (timers s) a = true)
        ∨ (b = -1 ∧ ∃ m now, p = Arrived m now ∧ i ∈ c_index m)))
  ∧ (∀ polls s' i,
       monitor polls s = Some s' → maps s !! i = Some (-1) → maps s' !! i = Some (-1))
  ∧ (∀ clock t_loop s' i a b,
       initial_dispatch clock t_loop s = Some s' →
       maps s !! i = Some a → maps s' !! i = Some b →
       a = b ∨ (a = 0 ∧ ∃ rank, (1 ≤ rank < size s)%nat ∧ b = Z.of_nat rank)).
Proof.
  intros Hlen. split; [| split].
  - intros p s' i a b Hit Ha Hb.
    destruct (iteration_step p s s' i a Hlen Hit Ha) as (_ & b' & Hb' & H).
    assert (b' = b) as -> by congruence. done.
  - intros polls s' i. by apply monitor_keeps_done.
  - intros clock t_loop s' i a b. apply initial_dispatch_changes.
Qed.

Lemma unit_state_changes_example :
  (∀ p s' i a b,
     iteration p after_timeout = Some s' →
     maps after_timeout !! i = Some a → maps s' !! i = Some b →
     (a = -1 → b = -1)
     ∧ (a = b
        ∨ (a = 0 ∧ ∃ m now, p = Arrived m now ∧ b = c_worker m)
        ∨ (0 < a ∧ b = 0
           ∧ ∃ clk, p = Nothing clk
                    ∧ declared_dead (t_scan clk) (timers after_timeout) a = true)
        ∨ (b = -1 ∧ ∃ m now, p = Arrived m now ∧ i ∈ c_index m)))
  ∧ (∀ polls s' i,
       monitor polls after_timeout = Some s' →
       maps after_timeout !! i = Some (-1) → maps s' !! i = Some (-1))
  ∧ (∀ clock t_loop s' i a b,
       initial_dispatch clock t_loop after_timeout = Some s' →
       maps after_timeout !! i = Some a → maps s' !! i = Some b →
       a = b ∨ (a = 0 ∧ ∃ rank, (1 ≤ rank < size after_timeout)%nat ∧ b = Z.of_nat rank)).
Proof. apply (unit_state_changes after_timeout). reflexivity. Defined.

(** C5 (as stated) fails.  In the eleven-file run rank 2 is timed out while
    it holds file 10, which becomes pending; the reply rank 2 had under way
    then arrives and the file goes from pending to finished in one step,
    without being assigned in between. *)
Lemma pending_unit_becomes_done :
  ∃ x m s',
    run11 [Reply 3 2; tick_at 8] = Some x
    ∧ maps (master x) !! 10%nat = Some 0
    ∧ next_reply disk31 2 x = Some m
    ∧ iteration (Arrived m 9) (master x) = Some s'
    ∧ maps s' !! 10%nat = Some (-1).
Proof.
  eexists _, _, _. split; [vm_compute; reflexivity |].
  split; [vm_compute; reflexivity |]. split; [vm_compute; reflexivity |].
  split; vm_compute; reflexivity.
Qed.

End UnitStateChanges.

Section DoneSum.

Implicit Types (ms : list Z) (files : list string) (w : string → Z).

Lemma done_sum_app w ms1 ms2 files1 files2 :
  length ms1 = length files1 →
  done_sum w (ms1 ++ ms2) (files1 ++ files2)
  = done_sum w ms1 files1 + done_sum w ms2 files2.
Proof.
  revert files1. induction ms1 as [| m ms1 IH]; intros [| f files1] Hlen; try done.
  cbn. rewrite IH by (cbn in Hlen; lia). lia.
Qed.

Lemma done_sum_insert w ms files i v f :
  length ms = length files → ms !! i = Some v → v ≠ -1 → files !! i = Some f →
  done_sum w (<[i := -1]> ms) files = done_sum w ms files + w f.
Proof.
  intros Hlen Hv Hne Hf.
  pose proof (take_drop_middle _ _ _ Hv) as Hms.
  pose proof (take_drop_middle _ _ _ Hf) as Hfiles.
  assert (Hi : (i < length ms)%nat) by by eapply lookup_lt_Some.
  assert (Hl : length (take i ms) = length (take i files))
    by (rewrite !length_take; lia).
  rewrite <- Hms at 1. rewrite <- Hfiles at 1.
  replace i with (length (take i ms) + 0)%nat at 1 by (rewrite length_take; lia).
  rewrite insert_app_r. cbn [insert list_insert].
  rewrite done_sum_app by done.
  rewrite <- Hms at 3. rewrite <- Hfiles at 3. rewrite done_sum_app by done.
  cbn. destruct (v =? -1) eqn:Hv1; [zbool; done | lia].
Qed.

Lemma units_sum_cons w files i index :
  units_sum w files (i :: index)
  = w (default ""%string (files !! i)) + units_sum w files index.
Proof. done. Qed.

Lemma complete_cons i index ms :
  complete (i :: index) ms = <[i := -1]> (complete index ms).
Proof.
  apply list_eq. intros j. rewrite complete_lookup.
  destruct (decide (j = i)) as [-> | Hne].
  - destruct (ms !! i) as [v |] eqn:Hv; cbn.
    + rewrite bool_decide_eq_true_2 by apply list_elem_of_here.
      rewrite list_lookup_insert_eq; [done |].
      rewrite complete_length. by eapply lookup_lt_Some.
    + rewrite list_insert_ge; [by rewrite complete_lookup, Hv |].
      rewrite complete_length. by apply lookup_ge_None.
  - rewrite list_lookup_insert_ne by done. rewrite complete_lookup.
    destruct (ms !! j) as [v |]; [| done]. cbn.
    destruct (decide (j ∈ index)) as [Hin | Hnin].
    + rewrite !bool_decide_eq_true_2; [done | done | by apply list_elem_of_further].
    + rewrite !bool_decide_eq_false_2; [done | done |].
      rewrite elem_of_cons. intros [? | ?]; done.
Qed.

Lemma complete_nil ms : complete [] ms = ms.
Proof.
  apply list_eq. intros j. rewrite complete_lookup.
  destruct (ms !! j) as [v |]; [| done]. cbn.
  rewrite bool_decide_eq_false_2; [done |]. apply not_elem_of_nil.
Qed.

(** Marking distinct units, none of them finished, adds their weights. *)
Lemma done_sum_complete w ms files index :
  length ms = length files → NoDup index →
  (∀ i, i ∈ index → ∃ v, ms !! i = Some v ∧ v ≠ -1) →
  done_sum w (complete index ms) files = done_sum w ms files + units_sum w files index.
Proof.
  intros Hlen. induction index as [| i index IH]; intros Hnd Hin.
  - rewrite complete_nil. cbn. lia.
  - apply NoDup_cons in Hnd as [Hi Hnd].
    destruct (Hin i) as (v & Hv & Hne); [apply list_elem_of_here |].
    destruct (lookup_lt_is_Some_2 files i) as [f Hf];
      [rewrite <- Hlen; by eapply lookup_lt_Some |].
    rewrite complete_cons.
    rewrite (done_sum_insert w _ files i v f); cycle 1.
    + by rewrite complete_length.
    + rewrite complete_lookup, Hv. cbn. by rewrite bool_decide_eq_false_2.
    + done.
    + done.
    + rewrite IH; [| done | intros j Hj; apply Hin; by apply list_elem_of_further].
      rewrite units_sum_cons, Hf. cbn [default from_option]. change (id f) with f. lia.
Qed.

Lemma done_sum_imap w rank (h : nat → Z → Z) ms files :
  rank ≠ -1 →
  (∀ j m, ms !! j = Some m → h j m = m ∨ (m = 0 ∧ h j m = rank)) →
  done_sum w (imap h ms) files = done_sum w ms files.
Proof.
  intros Hrank. revert files h.
  induction ms as [| m ms IH]; intros files h Hh; [done |].
  destruct files as [| f files]; [done |]. rewrite imap_cons. cbn [done_sum].
  rewrite (IH files (h ∘ S)); [| intros j m' Hj; apply (Hh (S j) m' Hj)].
  destruct (Hh 0%nat m eq_refl) as [-> | [-> ->]]; [done |].
  destruct (rank =? -1) eqn:Hr; [zbool; done | done].
Qed.

(** Handing pending units to a rank leaves the finished ones as they are. *)
Lemma done_sum_assign w batch rank ms files :
  rank ≠ -1 → (∀ k, k ∈ batch → ms !! k = Some 0) →
  done_sum w (assign batch rank ms) files = done_sum w ms files.
Proof.
  intros Hrank Hb. unfold assign. apply (done_sum_imap w rank); [done |].
  intros j m Hj. case_bool_decide as Hin; [| by left].
  right. apply Hb in Hin. split; [congruence | done].
Qed.

Lemma count_done_sum ms files :
  length ms = length files → Z.of_nat (count_done ms) = done_sum (λ _, 1) ms files.
Proof.
  unfold count_done. revert files.
  induction ms as [| m ms IH]; intros [| f files] Hlen; try done.
  rewrite filter_cons. cbn [done_sum]. rewrite <- (IH files) by (cbn in Hlen; lia).
  case_decide as Hm.
  - subst. cbn [length]. rewrite Z.eqb_refl. lia.
  - destruct (m =? -1) eqn:Hm1; [zbool; done | lia].
Qed.

Lemma units_sum_ones files index : units_sum (λ _, 1) files index = Z.of_nat (length index).
Proof.
  induction index as [| i index IH]; [done |].
  rewrite units_sum_cons, IH. cbn [length]. lia.
Qed.

End DoneSum.

Section Quiet.

Implicit Types (ms ts : list Z) (s : Master) (m : Completion) (i k : nat)
  (sent : list (Z * Payload)) (x : World).

Lemma commands_to_app rank sent1 sent2 :
  commands_to rank (sent1 ++ sent2) = commands_to rank sent1 ++ commands_to rank sent2.
Proof. unfold commands_to. apply omap_app. Qed.

Lemma commands_to_one rank w c :
  commands_to rank [(w, Dispatch c)] = if decide (w = rank) then [c] else [].
Proof. unfold commands_to. cbn. by case_decide. Qed.

Lemma commands_to_elem rank sent c :
  c ∈ commands_to rank sent → (rank, Dispatch c) ∈ sent.
Proof.
  unfold commands_to. rewrite list_elem_of_omap. intros ([w p] & Hin & Hc). cbn in Hc.
  destruct p as [c' |]; [| done]. case_decide as Hw; [| done].
  injection Hc as ->. by subst.
Qed.

Lemma worker_replies_quiet disk rank sent :
  Forall (λ dp, ∃ c, dp.2 = Dispatch c) sent →
  worker_replies disk rank (inbox rank sent) = reply_to disk rank <$> commands_to rank sent.
Proof.
  unfold inbox, commands_to. induction 1 as [| [w p] sent (c & Hp) _ IH]; [done |].
  cbn in Hp. subst p. rewrite filter_cons. cbn. case_decide as Hw.
  - cbn. by rewrite IH.
  - done.
Qed.

Lemma make_command_spec files batch cmd :
  make_command files batch = Some cmd →
  cmd.*2 = batch ∧ Forall (λ fi, files !! fi.2 = Some fi.1) cmd.
Proof.
  unfold make_command. revert cmd. induction batch as [| k batch IH]; intros cmd; cbn.
  - intros [= <-]. by split.
  - destruct (files !! k) as [f |] eqn:Hf; [| done]. cbn.
    destruct (mapM _ batch) as [cmd' |]; [| done]. cbn. intros [= <-].
    destruct (IH cmd' eq_refl) as [Hidx Hall]. cbn. split; [by rewrite Hidx |].
    by constructor.
Qed.

Lemma on_completion_outbox m now s s' :
  on_completion m now s = Some s' →
  ((0 ∉ complete (c_index m) (maps s)) ∧ outbox s' = outbox s)
  ∨ ∃ cmd, 0 ∈ complete (c_index m) (maps s)
           ∧ make_command (log_files s) (next_files (complete (c_index m) (maps s))) = Some cmd
           ∧ outbox s' = outbox s ++ [(c_worker m, Dispatch cmd)].
Proof.
  unfold on_completion. cbn.
  destruct (py_setitem (timers s) (c_worker m - 1) now) as [ts |]; [| done]. cbn.
  unfold redispatch. cbn [maps set_maps set_timers record_results log_files].
  case_bool_decide as H0.
  - destruct (make_command (log_files s) _) as [cmd |] eqn:Hcmd; [| done].
    cbn. intros [= <-]. right. exists cmd. by cbn.
  - intros [= <-]. left. by cbn.
Qed.

Lemma stop_signals_nil curr ts u :
  stop_signals curr ts = [] → declared_dead curr ts u = false.
Proof.
  intros Hnil. destruct (declared_dead curr ts u) eqn:Hd; [| done].
  apply declared_dead_iff in Hd as (k & t & -> & Hk & H5 & H0).
  assert (Hin : (Z.of_nat k + 1, Stop) ∈ stop_signals curr ts).
  { apply stop_signals_elem. exists k, t. repeat split; try done.
    unfold expired. apply andb_true_iff. split; by apply Z.ltb_lt. }
  rewrite Hnil in Hin. by apply elem_of_nil in Hin.
Qed.

Lemma stop_signals_stops curr ts dp : dp ∈ stop_signals curr ts → dp.2 = Stop.
Proof.
  unfold stop_signals. rewrite list_elem_of_omap. intros (o & Ho & Hid). cbn in Hid. subst o.
  apply elem_of_lookup_imap in Ho as (k & t & Heq & Hk).
  destruct (expired curr t); [| done]. by injection Heq as ->.
Qed.


Lemma next_files_from_NoDup room ms i0 : NoDup (next_files_from i0 room ms).
Proof.
  revert room i0. induction ms as [| v ms IH]; intros [| room] i0; cbn; try constructor.
  destruct (v =? 0); [| apply IH].
  constructor; [| apply IH]. intros Hin. apply next_files_from_spec in Hin as [Hle _]. lia.
Qed.

Lemma level_total_replies disk level files (c : list (string * nat)) :
  Forall (λ fi, files !! fi.2 = Some fi.1) c →
  level_total ((λ t, analyse_log_file disk t.1) <$> c) level
  = units_sum (file_level disk level) files (c.*2).
Proof.
  induction 1 as [| [f i] c Hf _ IH]; [done |].
  rewrite !fmap_cons, level_total_cons, units_sum_cons, IH. cbn in Hf. cbn [snd fst].
  rewrite Hf. done.
Qed.

(** The units a reply reports, the units it leaves with the rank, and those
    handed to the rank next. *)
Lemma quiet_reply disk base x rank now x' :
  quiet disk base x →
  world_step disk (Reply rank now) x = Some x' →
  quiet disk base x'.
Proof.
  intros [Hlen Hsent Hheld Hrec Hres]. cbn [world_step].
  destruct (next_reply disk rank x) as [m |] eqn:Hm; [| done]. cbn [mbind option_bind].
  destruct (on_completion m now (master x)) as [s |] eqn:Hs; [| done].
  cbn [mbind option_bind]. intros [= <-].
  set (t := default 0%nat (taken x !! rank)) in *.
  set (cmds := commands_to rank (outbox (master x))) in *.
  (* the message is the answer to the command at position [t] *)
  unfold next_reply in Hm. rewrite worker_replies_quiet in Hm
    by (eapply Forall_impl; [apply Hsent | intros dp (_ & c & Hc & _); eauto]).
  fold cmds t in Hm. rewrite list_lookup_fmap in Hm.
  destruct (cmds !! t) as [c |] eqn:Hc; [| done]. cbn in Hm. injection Hm as <-.
  assert (Hrank : 1 ≤ rank ∧ Forall (λ fi, log_files (master x) !! fi.2 = Some fi.1) c).
  { assert (Hin : (rank, Dispatch c) ∈ outbox (master x))
      by (apply commands_to_elem; by eapply list_elem_of_lookup_2).
    rewrite Forall_forall in Hsent. destruct (Hsent _ Hin) as (H1 & c' & Hc' & Hall).
    cbn in *. by injection Hc' as <-. }
  destruct Hrank as [Hrank Hfiles].
  assert (Hheld_rank : held x rank = c ++ concat (drop (S t) cmds)).
  { unfold held. fold t cmds. by rewrite (drop_S _ _ _ Hc). }
  set (rest := concat (drop (S t) cmds)) in *.
  destruct (Hheld rank Hrank) as [Hnd Hiff]. rewrite Hheld_rank, fmap_app in Hnd, Hiff.
  apply NoDup_app in Hnd as (Hnd_c & Hdisj & Hnd_rest).
  (* the new state *)
  destruct (on_completion_inv _ _ _ _ Hs) as (Hmaps & Hlog & Hresults & Hrecieved).
  cbn [c_index c_worker c_result reply_to] in *.
  set (ms1 := complete (c.*2) (maps (master x))) in *.
  set (batch := next_files ms1) in *.
  assert (Hnew : ∃ new, outbox s = outbox (master x) ++ ((λ c', (rank, Dispatch c')) <$> new)
                        ∧ (concat new).*2 = batch
                        ∧ Forall (Forall (λ fi, log_files (master x) !! fi.2 = Some fi.1)) new).
  { destruct (on_completion_outbox _ _ _ _ Hs) as [[H0 Hout] | (cmd & H0 & Hcmd & Hout)];
      cbn [c_index c_worker reply_to] in *; fold ms1 batch in H0.
    - exists []. rewrite Hout, app_nil_r. split; [done |]. split; [| done].
      unfold batch, next_files. by rewrite next_files_from_none.
    - fold ms1 batch in Hcmd. apply make_command_spec in Hcmd as [Hidx Hall].
      exists [cmd]. split; [done |]. cbn. rewrite app_nil_r. split; [done |].
      by constructor. }
  destruct Hnew as (new & Hout & Hbatch & Hnew_files).
  assert (Hidx_state : ∀ i, i ∈ c.*2 → maps (master x) !! i = Some rank).
  { intros i Hi. apply Hiff. apply elem_of_app. by left. }
  assert (Hms1 : ∀ i v, maps (master x) !! i = Some v →
            ms1 !! i = Some (if bool_decide (i ∈ c.*2) then -1 else v)).
  { intros i v Hv. unfold ms1. by rewrite complete_lookup, Hv. }
  assert (Hmaps' : ∀ i v, maps (master x) !! i = Some v →
            maps s !! i = Some (if bool_decide (i ∈ batch) then rank
                                else if bool_decide (i ∈ c.*2) then -1 else v)).
  { intros i v Hv. rewrite Hmaps. fold ms1 batch. by rewrite assign_lookup, (Hms1 i v Hv). }
  assert (Hnone : ∀ i, maps (master x) !! i = None → maps s !! i = None).
  { intros i Hv. rewrite Hmaps, assign_lookup. unfold ms1.
    by rewrite complete_lookup, Hv. }
  assert (Hbatch_pending : ∀ i, i ∈ batch → ms1 !! i = Some 0)
    by (intros i; apply next_files_pending).
  assert (Hbatch_old : ∀ i, i ∈ batch → maps (master x) !! i = Some 0 ∧ i ∉ c.*2).
  { intros i Hi. pose proof (Hbatch_pending i Hi) as Hp.
    destruct (maps (master x) !! i) as [v |] eqn:Hv.
    - rewrite (Hms1 i v Hv) in Hp. case_bool_decide; [done |]. split; congruence.
    - unfold ms1 in Hp. by rewrite complete_lookup, Hv in Hp. }
  assert (Hcommands : ∀ r, commands_to r (outbox s)
            = commands_to r (outbox (master x)) ++ if decide (rank = r) then new else []).
  { intros r. rewrite Hout, commands_to_app. f_equal. unfold commands_to.
    clear. induction new as [| c' new IH]; cbn.
    - by case_decide.
    - case_decide; [by rewrite IH |]. done. }
  assert (Hlen' : length (maps s) = length (log_files (master x)))
    by (rewrite Hmaps, assign_length; unfold ms1; by rewrite complete_length).
  split; cbn [master taken].
  - by rewrite Hlog.
  - rewrite Hout, Hlog. apply Forall_app. split; [done |].
    apply Forall_fmap. eapply Forall_impl; [apply Hnew_files |]. intros c' Hc'. cbn. eauto.
  - intros r Hr. unfold held. cbn [master taken]. rewrite Hcommands.
    destruct (decide (rank = r)) as [<- | Hne].
    + rewrite lookup_insert_eq. cbn [default from_option]. fold t cmds.
      change (id (S t)) with (S t).
      rewrite drop_app_le by (apply lookup_lt_Some in Hc; lia).
      rewrite concat_app, fmap_app, Hbatch. fold rest. split.
      * apply NoDup_app. split; [done |]. split; [| apply next_files_from_NoDup].
        intros i Hi Hb. destruct (Hbatch_old i Hb) as [H0 _].
        assert (maps (master x) !! i = Some rank)
          by (apply Hiff, elem_of_app; by right).
        assert (rank = 0) by congruence. lia.
      * intros i. rewrite elem_of_app. split.
        -- intros [Hi | Hi].
           ++ assert (Hv : maps (master x) !! i = Some rank)
                by (apply Hiff, elem_of_app; by right).
              rewrite (Hmaps' i rank Hv). case_bool_decide; [done |].
              rewrite bool_decide_eq_false_2; [done |]. intros Hc2. by apply (Hdisj i).
           ++ destruct (Hbatch_old i Hi) as [H0 _]. rewrite (Hmaps' i 0 H0).
              by rewrite bool_decide_eq_true_2.
        -- intros Hv'. destruct (maps (master x) !! i) as [v |] eqn:Hv.
           ++ rewrite (Hmaps' i v Hv) in Hv'. case_bool_decide as Hb; [by right |].
              case_bool_decide as Hc2; [injection Hv' as Hv'; lia |].
              injection Hv' as ->. left.
              assert (Hin : i ∈ c.*2 ++ rest.*2) by by apply Hiff.
              apply elem_of_app in Hin as [? | ?]; done.
           ++ by rewrite (Hnone i Hv) in Hv'.
    + rewrite lookup_insert_ne by done. rewrite app_nil_r.
      destruct (Hheld r Hr) as [Hnd_r Hiff_r]. unfold held in Hnd_r, Hiff_r.
      split; [done |]. intros i. rewrite Hiff_r. split.
      * intros Hv. rewrite (Hmaps' i r Hv).
        rewrite bool_decide_eq_false_2.
        2: { intros Hb. destruct (Hbatch_old i Hb) as [H0 _]. assert (r = 0) by congruence. lia. }
        rewrite bool_decide_eq_false_2; [done |].
        intros Hc2. apply Hidx_state in Hc2. congruence.
      * intros Hv'. destruct (maps (master x) !! i) as [v |] eqn:Hv.
        -- rewrite (Hmaps' i v Hv) in Hv'. case_bool_decide; [congruence |].
           case_bool_decide; [injection Hv' as Hv'; lia | done].
        -- by rewrite (Hnone i Hv) in Hv'.
  - rewrite Hrecieved, Hrec, length_fmap. apply Nat2Z.inj.
    rewrite Nat2Z.inj_add, !(count_done_sum _ (log_files (master x))) by done.
    rewrite Hmaps. fold ms1 batch.
    rewrite done_sum_assign; [| lia | done].
    unfold ms1. rewrite done_sum_complete; [| done | done |].
    2: { intros i Hi. exists rank. split; [by apply Hidx_state | lia]. }
    by rewrite units_sum_ones, length_fmap.
  - intros level. rewrite Hresults, level_total_app, Hlog, Hmaps. fold ms1 batch.
    rewrite done_sum_assign; [| lia | done].
    unfold ms1. rewrite done_sum_complete; [| done | done |].
    2: { intros i Hi. exists rank. split; [by apply Hidx_state | lia]. }
    rewrite <- Hres, (level_total_replies disk level (log_files (master x))) by done. lia.
Qed.


Lemma quiet_tick disk base x clk x' :
  quiet disk base x →
  world_step disk (Tick clk) x = Some x' →
  Forall (λ dp, dp.2 ≠ Stop) (outbox (master x')) →
  quiet disk base x'.
Proof.
  intros [Hlen Hsent Hheld Hrec Hres]. cbn [world_step].
  destruct (on_idle_spec clk (master x) Hlen)
    as (s & -> & Hmaps & _ & Hout & Hresults & Hrecieved & Hlog & _).
  cbn [mbind option_bind]. intros [= <-]. cbn [master]. intros Hquiet.
  assert (Hnil : stop_signals (t_scan clk) (timers (master x)) = []).
  { destruct (stop_signals _ _) as [| dp l] eqn:Hsig; [done |].
    rewrite Hout, Forall_app, Forall_cons in Hquiet. destruct Hquiet as (_ & Hdp & _).
    exfalso. apply Hdp. apply (stop_signals_stops (t_scan clk) (timers (master x))).
    rewrite Hsig. apply list_elem_of_here. }
  rewrite Hnil, app_nil_r in Hout.
  assert (Hsame : maps s = maps (master x)).
  { rewrite Hmaps. rewrite <- (list_fmap_id (maps (master x))) at 2.
    apply list_fmap_ext. intros _ u _. by rewrite (stop_signals_nil _ _ u Hnil). }
  split; cbn [master taken].
  - by rewrite Hsame, Hlog.
  - by rewrite Hout, Hlog.
  - intros r Hr. unfold held. cbn [master taken]. rewrite Hout, Hsame. apply (Hheld r Hr).
  - by rewrite Hrecieved, Hsame.
  - intros level. by rewrite Hresults, Hsame, Hlog.
Qed.

Lemma world_step_outbox disk e x x' :
  length (maps (master x)) = length (log_files (master x)) →
  world_step disk e x = Some x' →
  ∃ ext, outbox (master x') = outbox (master x) ++ ext.
Proof.
  intros Hlen. destruct e as [clk | rank now]; cbn [world_step].
  - destruct (on_idle_spec clk (master x) Hlen) as (s & -> & _ & _ & Hout & _).
    cbn [mbind option_bind]. intros [= <-]. eauto.
  - destruct (next_reply disk rank x) as [m |]; [| done]. cbn [mbind option_bind].
    destruct (on_completion m now (master x)) as [s |] eqn:Hs; [| done].
    cbn [mbind option_bind]. intros [= <-]. cbn [master].
    destruct (on_completion_outbox _ _ _ _ Hs) as [[_ ->] | (cmd & _ & _ & ->)]; [| eauto].
    exists []. by rewrite app_nil_r.
Qed.

Lemma world_run_outbox disk evs x x' :
  length (maps (master x)) = length (log_files (master x)) →
  world_run disk evs x = Some x' →
  ∃ ext, outbox (master x') = outbox (master x) ++ ext.
Proof.
  revert x. induction evs as [| e evs IH]; intros x Hlen; cbn [world_run].
  - destruct (loop_cond (master x)); intros [= <-]; exists []; by rewrite app_nil_r.
  - destruct (loop_cond (master x)); [| intros [= <-]; exists []; by rewrite app_nil_r].
    destruct (world_step disk e x) as [x1 |] eqn:Hx1; [| done]. cbn [mbind option_bind].
    intros Hrun.
    destruct (world_step_outbox _ _ _ _ Hlen Hx1) as [ext1 Hext1].
    destruct (world_step_iteration _ _ _ _ Hx1) as [p Hp].
    destruct (IH x1 (iteration_lengths _ _ _ Hlen Hp) Hrun) as [ext Hext].
    exists (ext1 ++ ext). by rewrite Hext, Hext1, app_assoc.
Qed.

(** The invariant holds along every run in which no stop signal is sent. *)
Lemma quiet_run disk base evs x x' :
  quiet disk base x →
  world_run disk evs x = Some x' →
  Forall (λ dp, dp.2 ≠ Stop) (outbox (master x')) →
  quiet disk base x'.
Proof.
  revert x. induction evs as [| e evs IH]; intros x Hq; cbn [world_run].
  - destruct (loop_cond (master x)); by intros [= <-].
  - destruct (loop_cond (master x)); [| by intros [= <-]].
    destruct (world_step disk e x) as [x1 |] eqn:Hx1; [| done]. cbn [mbind option_bind].
    intros Hrun Hquiet. apply (IH x1); [| done | done].
    destruct (world_step_iteration _ _ _ _ Hx1) as [p Hp].
    pose proof (iteration_lengths _ _ _ (quiet_len _ _ _ Hq) Hp) as Hlen1.
    destruct (world_run_outbox _ _ _ _ Hlen1 Hrun) as [ext Hext].
    rewrite Hext, Forall_app in Hquiet. destruct Hquiet as [Hq1 _].
    destruct e as [clk | rank now].
    + by eapply quiet_tick.
    + by eapply quiet_reply.
Qed.

End Quiet.

Section InitialQuiet.

Implicit Types (ms ts : list Z) (s a : Master) (i k r : nat) (fi : list nat).

Lemma NoDup_omap_inj {A B} (f : A → option B) (l : list A) :
  NoDup l →
  (∀ x x' y, x ∈ l → x' ∈ l → f x = Some y → f x' = Some y → x = x') →
  NoDup (omap f l).
Proof.
  induction l as [| x l IH]; intros Hnd Hinj; cbn; [constructor |].
  apply NoDup_cons in Hnd as [Hx Hnd].
  assert (Hrest : NoDup (omap f l)).
  { apply IH; [done |]. intros x1 x2 y H1 H2. apply Hinj; by apply list_elem_of_further. }
  destruct (f x) as [y |] eqn:Hfx; [| done].
  constructor; [| done]. intros Hin. apply list_elem_of_omap in Hin as (x' & Hx' & Hfx').
  assert (x = x').
  { apply (Hinj x x' y); [apply list_elem_of_here | by apply list_elem_of_further | done | done]. }
  by subst.
Qed.

Lemma omap_single {A B} `{EqDecision A} (P : A → Prop) `{∀ x, Decision (P x)}
    (g : A → option B) (l : list A) (x0 : A) :
  NoDup l → (∀ x, P x ↔ x = x0) →
  omap (λ x, if decide (P x) then g x else None) l
  = if decide (x0 ∈ l) then option_list (g x0) else [].
Proof.
  intros Hnd HP. induction l as [| x l IH]; cbn.
  - case_decide as Hin; [by apply elem_of_nil in Hin | done].
  - apply NoDup_cons in Hnd as [Hx Hnd]. rewrite (IH Hnd).
    destruct (decide (P x)) as [Hp | Hp].
    + apply HP in Hp. subst x.
      rewrite (decide_True (P := x0 ∈ x0 :: l)) by apply list_elem_of_here.
      rewrite (decide_False (P := x0 ∈ l)) by done.
      destruct (g x0); by cbn.
    + assert (x ≠ x0) by (intros ->; apply Hp; by apply HP).
      destruct (decide (x0 ∈ l)) as [Hin | Hin].
      * by rewrite decide_True by by apply list_elem_of_further.
      * rewrite decide_False; [done |]. rewrite elem_of_cons. intros [? | ?]; congruence.
Qed.

Lemma first_indices_from_NoDup cap ms i0 collected :
  NoDup (first_indices_from i0 cap collected ms).
Proof.
  revert i0 collected.
  induction ms as [| v ms IH]; intros i0 collected; cbn [first_indices_from]; [constructor |].
  destruct (v =? 0); [| apply IH].
  constructor.
  - destruct (S collected =? cap)%nat; [apply not_elem_of_nil |].
    intros Hin. apply first_indices_from_pending in Hin as [Hle _]. lia.
  - destruct (S collected =? cap)%nat; [constructor | apply IH].
Qed.

Lemma initial_batch_elem r fi i :
  i ∈ initial_batch r fi ↔ ∃ j, (j < 10)%nat ∧ fi !! ((r - 1) * 10 + j)%nat = Some i.
Proof.
  unfold initial_batch. rewrite list_elem_of_omap. split.
  - intros (j & Hj & Hl). exists j. apply elem_of_seq in Hj. split; [lia | done].
  - intros (j & Hj & Hl). exists j. split; [apply elem_of_seq; lia | done].
Qed.

Lemma initial_batch_NoDup r fi : NoDup fi → NoDup (initial_batch r fi).
Proof.
  intros Hnd. unfold initial_batch. apply NoDup_omap_inj; [apply NoDup_seq |].
  intros j j' y _ _ H1 H2.
  pose proof (NoDup_lookup _ _ _ _ Hnd H1 H2). lia.
Qed.

Lemma initial_batch_disjoint r r' fi i :
  NoDup fi → (1 ≤ r)%nat → (1 ≤ r')%nat →
  i ∈ initial_batch r fi → i ∈ initial_batch r' fi → r = r'.
Proof.
  intros Hnd Hr Hr'. rewrite !initial_batch_elem.
  intros (j & Hj & H1) (j' & Hj' & H2).
  pose proof (NoDup_lookup _ _ _ _ Hnd H1 H2). lia.
Qed.

Lemma mark_batch_lookup w batch ms ms' i :
  mark_batch w batch ms = Some ms' →
  ms' !! i = if bool_decide (i ∈ batch) then Some w else ms !! i.
Proof.
  unfold mark_batch. revert ms. induction batch as [| k batch IH]; intros ms; cbn [foldl].
  - intros [= <-]. rewrite bool_decide_eq_false_2; [done | apply not_elem_of_nil].
  - cbn [mbind option_bind]. destruct (bool_decide (k < length ms)%nat) eqn:Hk.
    + apply bool_decide_eq_true_1 in Hk.
      intros H. rewrite (IH _ H). destruct (decide (i ∈ batch)) as [Hin | Hnin].
      * rewrite !bool_decide_eq_true_2; [done | by apply list_elem_of_further | done].
      * rewrite (bool_decide_eq_false_2 (i ∈ batch)) by done.
        destruct (decide (i = k)) as [-> | Hne].
        -- rewrite bool_decide_eq_true_2 by apply list_elem_of_here.
           by apply list_lookup_insert_eq.
        -- rewrite bool_decide_eq_false_2
             by (rewrite elem_of_cons; intros [? | ?]; congruence).
           by apply list_lookup_insert_ne.
    + by rewrite foldl_option_none.
Qed.

Lemma dispatch_to_spec fi clock a r a' :
  dispatch_to fi clock a r = Some a' →
  ∃ cmd,
    make_command (log_files a) (initial_batch r fi) = Some cmd
    ∧ outbox a' = outbox a ++ [(Z.of_nat r, Dispatch cmd)]
    ∧ (∀ i, maps a' !! i = if bool_decide (i ∈ initial_batch r fi)
                            then Some (Z.of_nat r) else maps a !! i)
    ∧ log_files a' = log_files a ∧ results a' = results a ∧ recieved a' = recieved a.
Proof.
  unfold dispatch_to.
  destruct (make_command (log_files a) (initial_batch r fi)) as [cmd |]; [| done].
  cbn [mbind option_bind].
  destruct (py_setitem _ (Z.of_nat r - 1) (clock r)) as [ts |]; [| done].
  cbn [mbind option_bind].
  destruct (mark_batch (Z.of_nat r) (initial_batch r fi) _) as [ms |] eqn:Hms; [| done].
  cbn [mbind option_bind]. intros [= <-]. exists cmd. cbn.
  repeat split; try done. intros i. by apply mark_batch_lookup.
Qed.

(** The state after the commands of the ranks in [l] have been sent. *)
Lemma initial_fold_spec fi clock s l a :
  foldl (λ acc i, a ← acc; dispatch_to fi clock a i) (Some s) l = Some a →
  log_files a = log_files s ∧ results a = results s ∧ recieved a = recieved s
  ∧ (∃ ext, outbox a = outbox s ++ ext
       ∧ Forall (λ dp, (∃ r, r ∈ l ∧ dp.1 = Z.of_nat r)
                       ∧ ∃ c, dp.2 = Dispatch c
                              ∧ Forall (λ e, log_files s !! e.2 = Some e.1) c) ext)
  ∧ (∀ rank, commands_to rank (outbox a)
             = commands_to rank (outbox s)
               ++ omap (λ r, if decide (Z.of_nat r = rank)
                             then make_command (log_files s) (initial_batch r fi)
                             else None) l)
  ∧ (∀ r, r ∈ l → ∃ cmd, make_command (log_files s) (initial_batch r fi) = Some cmd
                          ∧ cmd.*2 = initial_batch r fi)
  ∧ (∀ i, (∃ r, r ∈ l ∧ i ∈ initial_batch r fi ∧ maps a !! i = Some (Z.of_nat r))
          ∨ ((∀ r, r ∈ l → i ∉ initial_batch r fi) ∧ maps a !! i = maps s !! i)).
Proof.
  revert a. induction l as [| r l IH] using rev_ind; intros a.
  - cbn. intros [= <-]. repeat split; try done.
    + exists []. by rewrite app_nil_r.
    + intros rank. by rewrite app_nil_r.
    + intros r Hr. by apply elem_of_nil in Hr.
    + intros i. right. split; [| done]. intros r Hr. by apply elem_of_nil in Hr.
  - rewrite foldl_app. cbn [foldl].
    destruct (foldl _ (Some s) l) as [a0 |] eqn:Ha0; [| done]. cbn [mbind option_bind].
    intros Hstep.
    destruct (IH a0 eq_refl) as (Hlog & Hres & Hrec & (ext & Hout & Hext) & Hcmds & Hmk & Hmaps).
    destruct (dispatch_to_spec _ _ _ _ _ Hstep)
      as (cmd & Hcmd & Hout' & Hmaps' & Hlog' & Hres' & Hrec').
    rewrite Hlog in Hcmd. pose proof (make_command_spec _ _ _ Hcmd) as [Hidx Hfiles].
    split; [congruence |]. split; [congruence |]. split; [congruence |].
    split; [| split; [| split]].
    + exists (ext ++ [(Z.of_nat r, Dispatch cmd)]). split; [by rewrite Hout', Hout, app_assoc |].
      apply Forall_app. split.
      * eapply Forall_impl; [apply Hext |]. intros dp ((r0 & Hr0 & Hdp) & Hc).
        split; [| done]. exists r0. split; [| done]. apply elem_of_app. by left.
      * constructor; [| constructor]. cbn. split; [| eauto].
        exists r. split; [| done]. apply elem_of_app. right. apply list_elem_of_here.
    + intros rank. rewrite Hout', commands_to_app, Hcmds, commands_to_one, omap_app.
      rewrite <- app_assoc. f_equal. f_equal. unfold omap at 1, list_omap.
      case_decide; [by rewrite Hcmd |]. done.
    + intros r0 Hr0. apply elem_of_app in Hr0 as [Hr0 | Hr0]; [by apply Hmk |].
      apply list_elem_of_singleton in Hr0 as ->. eauto.
    + intros i. rewrite Hmaps'. case_bool_decide as Hin.
      * left. exists r. split; [| done]. apply elem_of_app. right. apply list_elem_of_here.
      * destruct (Hmaps i) as [(r0 & Hr0 & Hi0 & Hv) | [Hnone Hv]].
        -- left. exists r0. split; [| done]. apply elem_of_app. by left.
        -- right. split; [| done]. intros r0 Hr0.
           apply elem_of_app in Hr0 as [Hr0 | Hr0]; [by apply Hnone |].
           by apply list_elem_of_singleton in Hr0 as ->.
Qed.

Lemma done_sum_ext w ms ms' files :
  length ms = length ms' →
  (∀ i v v', ms !! i = Some v → ms' !! i = Some v' → v = -1 ↔ v' = -1) →
  done_sum w ms files = done_sum w ms' files.
Proof.
  revert ms' files. induction ms as [| v ms IH]; intros [| v' ms'] files Hlen Hsame;
    try done.
  destruct files as [| f files]; [done |]. cbn [done_sum].
  rewrite (IH ms' files); [| cbn in Hlen; lia | intros i; apply (Hsame (S i))].
  pose proof (Hsame 0%nat v v' eq_refl eq_refl) as H0.
  destruct (v =? -1) eqn:Hv, (v' =? -1) eqn:Hv'; zbool; try done; tauto.
Qed.

Lemma count_done_replicate p q :
  count_done (replicate p (-1) ++ replicate q 0) = p.
Proof.
  unfold count_done. rewrite filter_app, length_app.
  assert (H1 : ∀ n, length (filter (λ m, m = -1) (replicate n (-1))) = n).
  { induction n as [| n IH]; [done |]. cbn [replicate]. rewrite filter_cons.
    rewrite decide_True by done. cbn [length]. by rewrite IH. }
  assert (H0 : ∀ n, length (filter (λ m, m = -1) (replicate n 0)) = 0%nat).
  { induction n as [| n IH]; [done |]. cbn [replicate]. rewrite filter_cons.
    rewrite decide_False by done. by rewrite IH. }
  rewrite H1, H0. lia.
Qed.

Lemma setup_spec sz on_disk found s :
  setup sz on_disk found = Some s →
  size s = sz ∧ outbox s = [] ∧ results s = []
  ∧ Forall (λ v, v = 0 ∨ v = -1) (maps s)
  ∧ recieved s = count_done (maps s).
Proof.
  unfold setup. case_bool_decide; [done |]. intros [= <-].
  destruct on_disk as [ck |]; cbn [size outbox results maps recieved].
  - repeat split; try done.
    + apply Forall_app. split; apply Forall_replicate; auto.
    + by rewrite count_done_replicate.
  - repeat split; try done.
    + apply Forall_replicate. auto.
    + symmetry. apply (count_done_replicate 0 (length found)).
Qed.

(** The system is quiet when the loop starts. *)
Lemma start_quiet disk sz on_disk found clock t_loop s x :
  setup sz on_disk found = Some s →
  start sz on_disk found clock t_loop = Some x →
  quiet disk (λ level, done_sum (file_level disk level) (maps s) (log_files s)) x.
Proof.
  intros Hs. unfold start. rewrite Hs. cbn [mbind option_bind].
  destruct (initial_dispatch clock t_loop s) as [s1 |] eqn:Hs1; [| done].
  cbn [mbind option_bind]. intros [= <-].
  pose proof (setup_lengths _ _ _ _ Hs) as Hlen.
  destruct (initial_dispatch_lengths _ _ _ _ Hs1) as [Hlen1 Hlog1].
  destruct (setup_spec _ _ _ _ Hs) as (Hsz & Hout0 & Hres0 & Hvals & Hrec0).
  unfold initial_dispatch in Hs1.
  set (fi := first_indices (size s) (maps s)) in *.
  destruct (foldl _ _ _) as [a |] eqn:Ha; [| done]. cbn [mbind option_bind] in Hs1.
  injection Hs1 as <-.
  destruct (initial_fold_spec _ _ _ _ _ Ha)
    as (Hlog & Hres & Hrec & (ext & Hout & Hext) & Hcmds & Hmk & Hmaps).
  cbn [maps log_files set_checkpointer] in Hlen1, Hlog1.
  assert (Hfi : NoDup fi) by apply first_indices_from_NoDup.
  assert (Hfi0 : ∀ r i, i ∈ initial_batch r fi → maps s !! i = Some 0).
  { intros r i Hi. apply (first_indices_pending (size s)). by eapply initial_batch_subset. }
  assert (Hold : ∀ i v, maps s !! i = Some v → v = 0 ∨ v = -1).
  { intros i v Hv. rewrite Forall_forall in Hvals. apply Hvals.
    by eapply list_elem_of_lookup_2. }
  assert (Hdone : ∀ i v v', maps a !! i = Some v → maps s !! i = Some v' →
            v = -1 ↔ v' = -1).
  { intros i v v' Hv Hv'. destruct (Hmaps i) as [(r & Hr & Hi & Hvr) | [_ Hsame]].
    - rewrite (Hfi0 r i Hi) in Hv'. split; intros ->; [| congruence].
      assert (Z.of_nat r = -1) by congruence. lia.
    - split; intros ->; congruence. }
  split; cbn [master taken maps log_files outbox results recieved set_checkpointer].
  - congruence.
  - rewrite Hout, Hout0, Hlog. cbn. eapply Forall_impl; [apply Hext |].
    intros dp ((r & Hr & Hdp) & Hc). split; [| done].
    apply elem_of_seq in Hr. lia.
  - intros rank Hrank. unfold held. cbn [master taken outbox set_checkpointer].
    rewrite lookup_empty. cbn [default from_option]. change (id 0%nat) with 0%nat.
    rewrite drop_0, Hcmds, Hout0. cbn [commands_to omap app].
    rewrite (omap_single (λ r, Z.of_nat r = rank) _ _ (Z.to_nat rank));
      [| apply NoDup_seq | intros r; lia].
    destruct (decide (Z.to_nat rank ∈ seq 1 (size s - 1))) as [Hin | Hnin].
    + destruct (Hmk _ Hin) as (cmd & Hcmd & Hidx). rewrite Hcmd. cbn.
      rewrite app_nil_r, Hidx. split; [by apply initial_batch_NoDup |].
      intros i. split.
      * intros Hi. destruct (Hmaps i) as [(r & Hr & Hir & Hv) | [Hnone _]].
        -- assert (r = Z.to_nat rank).
           { apply (initial_batch_disjoint r (Z.to_nat rank) fi i); try done.
             - apply elem_of_seq in Hr. lia.
             - lia. }
           subst r. rewrite Hv. f_equal. lia.
        -- by destruct (Hnone _ Hin).
      * intros Hv. destruct (Hmaps i) as [(r & Hr & Hir & Hv') | [_ Hsame]].
        -- assert (r = Z.to_nat rank) by (assert (Z.of_nat r = rank) by congruence; lia).
           by subst r.
        -- rewrite Hsame in Hv. destruct (Hold _ _ Hv); lia.
    + cbn. split; [constructor |]. intros i. split; [intros Hi; by apply elem_of_nil in Hi |].
      intros Hv. exfalso. destruct (Hmaps i) as [(r & Hr & Hir & Hv') | [_ Hsame]].
      * apply Hnin. assert (Z.of_nat r = rank) by congruence.
        by replace (Z.to_nat rank) with r by lia.
      * rewrite Hsame in Hv. destruct (Hold _ _ Hv); lia.
  - rewrite Hrec, Hrec0. apply Nat2Z.inj.
    rewrite (count_done_sum (maps s) (log_files s)) by done.
    rewrite (count_done_sum (maps a) (log_files s)) by congruence.
    symmetry. apply done_sum_ext; [done |]. apply Hdone.
  - intros level. rewrite Hres, Hres0, Hlog. cbn.
    symmetry. apply done_sum_ext; [done |]. apply Hdone.
Qed.

End InitialQuiet.

Section QuietRuns.

Implicit Types (ms ts : list Z) (s : Master) (m : Completion) (i k : nat) (x : World).

Lemma iteration_keeps p s s' :
  length (maps s) = length (log_files s) →
  iteration p s = Some s' →
  total_counts s' = total_counts s ∧ log_files s' = log_files s.
Proof.
  intros Hlen. destruct p as [clk | m now]; cbn [iteration].
  - destruct (on_idle_spec clk s Hlen) as (s1 & -> & _ & _ & _ & _ & _ & Hlog & _ & Htc).
    by intros [= <-].
  - unfold on_completion. cbn.
    destruct (py_setitem (timers s) (c_worker m - 1) now) as [ts |]; [| done]. cbn.
    unfold redispatch. cbn [maps set_maps set_timers record_results log_files].
    case_bool_decide.
    + destruct (make_command (log_files s) _) as [cmd |]; [| done].
      cbn. by intros [= <-].
    + by intros [= <-].
Qed.

Lemma world_run_keeps disk evs x x' :
  length (maps (master x)) = length (log_files (master x)) →
  world_run disk evs x = Some x' →
  total_counts (master x') = total_counts (master x)
  ∧ log_files (master x') = log_files (master x).
Proof.
  revert x. induction evs as [| e evs IH]; intros x Hlen; cbn [world_run].
  - destruct (loop_cond (master x)); by intros [= <-].
  - destruct (loop_cond (master x)); [| by intros [= <-]].
    destruct (world_step disk e x) as [x1 |] eqn:Hx1; [| done]. cbn [mbind option_bind].
    intros Hrun. destruct (world_step_iteration _ _ _ _ Hx1) as [p Hp].
    destruct (iteration_keeps _ _ _ Hlen Hp) as [Htc Hlog].
    destruct (IH x1 (iteration_lengths _ _ _ Hlen Hp) Hrun) as [Htc' Hlog'].
    split; congruence.
Qed.

Lemma done_sum_none w ms files : -1 ∉ ms → done_sum w ms files = 0.
Proof.
  revert files. induction ms as [| v ms IH]; intros [| f files] Hnin; try done.
  cbn [done_sum]. apply not_elem_of_cons in Hnin as [Hv Hnin]. rewrite (IH files Hnin).
  destruct (v =? -1) eqn:Hv1; [zbool; congruence | done].
Qed.

Lemma done_sum_all disk level ms files :
  length ms = length files → is_complete ms = true →
  done_sum (file_level disk level) ms files
  = level_total (analyse_log_file disk <$> files) level.
Proof.
  unfold is_complete. revert files.
  induction ms as [| v ms IH]; intros [| f files] Hlen Hall; try done.
  cbn [forallb] in Hall. apply andb_true_iff in Hall as [Hv Hall].
  cbn [done_sum]. rewrite fmap_cons, level_total_cons, (IH files) by (cbn in Hlen; lia || done).
  unfold is_done in Hv. by rewrite Hv.
Qed.

(** In a run in which no stop signal has been sent, that is in which no
    worker has been timed out, one result has been received per finished
    unit, and the loop is left only when every unit is finished. *)
Lemma quiet_exit_is_complete disk sz on_disk found clock t_loop evs x x' :
  start sz on_disk found clock t_loop = Some x →
  world_run disk evs x = Some x' →
  Forall (λ dp, dp.2 ≠ Stop) (outbox (master x')) →
  recieved (master x') = count_done (maps (master x'))
  ∧ (loop_cond (master x') = false → is_complete (maps (master x')) = true).
Proof.
  intros Hstart Hrun Hquiet.
  destruct (setup sz on_disk found) as [s |] eqn:Hs;
    [| unfold start in Hstart; by rewrite Hs in Hstart].
  pose proof (quiet_run _ _ _ _ _ (start_quiet disk _ _ _ _ _ _ _ Hs Hstart) Hrun Hquiet)
    as [Hlen _ _ Hrec _].
  split; [done |]. intros Hexit.
  apply (loop_exit_state (master x') Hlen); [done | lia].
Qed.

(** In such a run started without a checkpoint, the aggregate reported at
    the end counts every file once. *)
Lemma quiet_aggregate_once disk sz found clock t_loop evs t_end x x' :
  start sz None found clock t_loop = Some x →
  world_run disk evs x = Some x' →
  Forall (λ dp, dp.2 ≠ Stop) (outbox (master x')) →
  loop_cond (master x') = false →
  ∃ final expected,
    finish t_end (master x') = Some final
    ∧ once_each disk found = Some expected
    ∧ ∀ level, level_count (items (total_counts final)) level
               = level_count (items expected) level.
Proof.
  intros Hstart Hrun Hquiet Hexit.
  destruct (setup sz None found) as [s |] eqn:Hs;
    [| unfold start in Hstart; by rewrite Hs in Hstart].
  pose proof (start_quiet disk _ _ _ _ _ _ _ Hs Hstart) as Hq0.
  pose proof (quiet_run _ _ _ _ _ Hq0 Hrun Hquiet) as [Hlen _ _ Hrec Hres].
  destruct (quiet_exit_is_complete _ _ _ _ _ _ _ _ _ Hstart Hrun Hquiet) as [_ Hall].
  specialize (Hall Hexit).
  (* what the fresh start fixes *)
  assert (Hfresh : log_files s = found ∧ total_counts s = defaultdict_int ∧ -1 ∉ maps s).
  { unfold setup in Hs. case_bool_decide; [done |]. injection Hs as <-. cbn.
    repeat split; try done. intros Hin. apply elem_of_replicate in Hin as [? _]. done. }
  destruct Hfresh as (Hfound & Htc0 & Hnone).
  assert (Hx : total_counts (master x) = total_counts s ∧ log_files (master x) = log_files s).
  { unfold start in Hstart. rewrite Hs in Hstart. cbn [mbind option_bind] in Hstart.
    destruct (initial_dispatch clock t_loop s) as [s1 |] eqn:Hs1; [| done].
    injection Hstart as <-. cbn [master].
    destruct (initial_dispatch_lengths _ _ _ _ Hs1) as [_ Hlog]. split; [| done].
    unfold initial_dispatch in Hs1.
    destruct (foldl _ _ _) as [a |] eqn:Ha; [| done]. injection Hs1 as <-. cbn.
    revert Ha. apply (foldl_option_rel _ (λ a b, total_counts b = total_counts a));
      [done | congruence |].
    intros a0 r a1 _. unfold dispatch_to.
    destruct (make_command _ _) as [cmd |]; [| done]. cbn [mbind option_bind].
    destruct (py_setitem _ _ _) as [ts |]; [| done]. cbn [mbind option_bind].
    destruct (mark_batch _ _ _) as [ms |]; [| done]. cbn [mbind option_bind].
    by intros [= <-]. }
  destruct Hx as [Htcx Hlogx].
  destruct (world_run_keeps _ _ _ _ (quiet_len _ _ _ Hq0) Hrun) as [Htc Hlog].
  (* the merge after the loop *)
  unfold finish.
  assert (Hb : ∀ s0, maps (broadcast_stop s0) = maps s0
                     ∧ log_files (broadcast_stop s0) = log_files s0
                     ∧ results (broadcast_stop s0) = results s0
                     ∧ total_counts (broadcast_stop s0) = total_counts s0).
  { intros s0. unfold broadcast_stop. generalize (seq 1 (size s0 - 1)). intros l. revert s0.
    induction l as [| j l IH]; intros s0; [done |]. cbn.
    destruct (IH (send (Z.of_nat j) Stop s0)) as (H1 & H2 & H3 & H4). by rewrite H1, H2, H3, H4. }
  destruct (Hb (master x')) as (Hbm & Hbl & Hbr & Hbt). rewrite Hbt, Hbr, Htc, Htcx, Htc0.
  destruct (merge_all_default defaultdict_int (results (master x')) eq_refl)
    as (total & Htotal & _).
  rewrite Htotal. cbn [mbind option_bind maps log_files set_total_counts]. rewrite Hbm, Hbl.
  destruct (snapshot_files_spec _ _ Hlen) as (p & q & Hsnap & _). rewrite Hsnap.
  cbn [mbind option_bind].
  destruct (merge_all_default defaultdict_int (analyse_log_file disk <$> found) eq_refl)
    as (expected & Hexp & _).
  eexists _, expected. split; [done |]. split; [done |]. intros level. cbn.
  rewrite (merge_all_count _ _ _ level Htotal), (merge_all_count _ _ _ level Hexp).
  f_equal. pose proof (Hres level) as Hl.
  rewrite (done_sum_none _ (maps s)) in Hl by done.
  rewrite (done_sum_all disk level) in Hl by done.
  rewrite Hlog, Hlogx, Hfound in Hl. lia.
Qed.

End QuietRuns.

Section ExactlyOnce.

(** C1 (as stated) fails.  In [takeover] files 0-9 are reported twice, by
    the timed-out rank 1 and by rank 2 that took them over.  Both reports
    are folded into the aggregate: the run ends with 40 results for 31 files
    and reports 40 INFO lines, while the files hold 31. *)
Lemma duplicate_report_is_counted_twice :
  ∃ final expected,
    clock_ok 1 takeover = true
    ∧ execution disk31 3 None files31 dispatch_clock 1 takeover 11 = Some final
    ∧ once_each disk31 files31 = Some expected
    ∧ items expected = {["INFO" := 31]}
    ∧ length (results final) = 40%nat
    ∧ items (total_counts final) = {["INFO" := 40]}
    ∧ items (total_counts final) ≠ items expected.
Proof.
  eexists _, _. split; [reflexivity |]. split; [vm_compute; reflexivity |].
  split; [vm_compute; reflexivity |]. split; [vm_compute; reflexivity |].
  split; [vm_compute; reflexivity |]. split; [vm_compute; reflexivity |].
  by vm_compute.
Qed.

End ExactlyOnce.

Section LoopExitRuns.

(** C3 (as the code has it).  The loop is left exactly when no unit is
    pending and the number of results received has reached the number of
    files.  That leaves every unit finished whenever no result has been
    received twice, that is whenever [recieved] does not exceed the number
    of finished units; a unit still held by a worker is not looked at.  In
    the runs in which no stop signal has been sent, that is in which no
    worker has been timed out, one result has been received per finished
    unit, so that the loop is left only when every unit is finished. *)
Theorem loop_exit_condition (s : Master) :
  length (maps s) = length (log_files s) →
  (loop_cond s = false
   ↔ (0 ∉ maps s) ∧ (length (log_files s) ≤ recieved s)%nat)
  ∧ (loop_cond s = false → (recieved s ≤ count_done (maps s))%nat →
     is_complete (maps s) = true)
  ∧ ∀ disk sz on_disk found clock t_loop evs x x',
      start sz on_disk found clock t_loop = Some x →
      world_run disk evs x = Some x' →
      Forall (λ dp, dp.2 ≠ Stop) (outbox (master x')) →
      recieved (master x') = count_done (maps (master x'))
      ∧ (loop_cond (master x') = false → is_complete (maps (master x')) = true).
Proof.
  intros Hlen. destruct (loop_exit_state s Hlen) as [Hiff Hdone].
  split; [done |]. split; [done |].
  intros disk sz on_disk found clock t_loop evs x x'. by apply quiet_exit_is_complete.
Qed.

Lemma loop_exit_condition_example :
  (loop_cond one_file_done = false
   ↔ (0 ∉ maps one_file_done)
     ∧ (length (log_files one_file_done) ≤ recieved one_file_done)%nat)
  ∧ (loop_cond one_file_done = false →
     (recieved one_file_done ≤ count_done (maps one_file_done))%nat →
     is_complete (maps one_file_done) = true)
  ∧ ∀ disk sz on_disk found clock t_loop evs x x',
      start sz on_disk found clock t_loop = Some x →
      world_run disk evs x = Some x' →
      Forall (λ dp, dp.2 ≠ Stop) (outbox (master x')) →
      recieved (master x') = count_done (maps (master x'))
      ∧ (loop_cond (master x') = false → is_complete (maps (master x')) = true).
Proof. apply (loop_exit_condition one_file_done). reflexivity. Defined.

(** C3 (as stated) fails.  At the end of [takeover] forty results have been
    received for thirty-one files and no unit is pending, so the loop ends,
    while file 30 is still held by rank 1 and has never been analysed.  The
    run then stops every worker and writes a final checkpoint that lists
    file 30 as pending. *)
Lemma loop_exits_with_assigned_unit :
  ∃ x final ck,
    clock_ok 1 takeover = true
    ∧ run31 takeover = Some x
    ∧ loop_cond (master x) = false
    ∧ maps (master x) !! 30%nat = Some 1
    ∧ is_complete (maps (master x)) = false
    ∧ recieved (master x) = 40%nat
    ∧ count_done (maps (master x)) = 30%nat
    ∧ execution disk31 3 None files31 dispatch_clock 1 takeover 11 = Some final
    ∧ store final = Some ck
    ∧ ck_pending_files ck = ["f30"%string].
Proof.
  eexists _, _, _. split; [reflexivity |]. split; [vm_compute; reflexivity |].
  split; [by vm_compute |]. split; [by vm_compute |]. split; [by vm_compute |].
  split; [by vm_compute |]. split; [by vm_compute |].
  split; [vm_compute; reflexivity |]. split; [reflexivity |]. reflexivity.
Qed.

End LoopExitRuns.

Section AnalyserCounts.

Lemma hits_cons P line lines :
  hits P (line :: lines) = (if P line then 1 else 0) + hits P lines.
Proof.
  unfold hits. rewrite filter_cons. destruct (P line) eqn:HP.
  - rewrite decide_True by done. cbn [length]. lia.
  - rewrite decide_False by congruence. lia.
Qed.

Lemma hits_app P l1 l2 : hits P (l1 ++ l2) = hits P l1 + hits P l2.
Proof. unfold hits. rewrite filter_app, length_app. lia. Qed.

Lemma level_count_incr level counts k :
  level_count (incr level counts) k
  = level_count counts k + (if decide (level = k) then 1 else 0).
Proof.
  unfold level_count, incr. case_decide as Hk.
  - subst. rewrite lookup_insert_eq. cbn. lia.
  - rewrite lookup_insert_ne by done. lia.
Qed.

Lemma level_count_scan_line counts line k :
  level_count (scan_line counts line) k
  = level_count counts k + (if reaches k line then 1 else 0).
Proof.
  rewrite scan_line_earliest_level. unfold reaches.
  destruct (earliest_level line) as [level |].
  - rewrite level_count_incr. case_decide; case_bool_decide; congruence || lia.
  - rewrite bool_decide_eq_false_2 by done. lia.
Qed.

Lemma level_count_scan_lines lines counts k :
  level_count (foldl scan_line counts lines) k
  = level_count counts k + hits (reaches k) lines.
Proof.
  revert counts. induction lines as [| line lines IH]; intros counts.
  - unfold hits. cbn. lia.
  - cbn [foldl]. rewrite IH, level_count_scan_line, hits_cons. lia.
Qed.

Lemma hits_ext P Q lines : (∀ l, P l = Q l) → hits P lines = hits Q lines.
Proof.
  intros H. induction lines as [| l lines IH]; [done |].
  by rewrite !hits_cons, IH, H.
Qed.

Lemma marked_one mk line :
  Exists (λ mk, contains mk line = true) [mk] ↔ contains mk line = true.
Proof. rewrite Exists_cons, Exists_nil. tauto. Qed.

Lemma marked_two mk mk' line :
  Exists (λ mk, contains mk line = true) [mk; mk']
  ↔ contains mk line || contains mk' line = true.
Proof. rewrite !Exists_cons, Exists_nil, orb_true_iff. tauto. Qed.

Lemma earliest_level_cases line :
  earliest_level line =
    if contains "[INFO]" line then Some "INFO"%string
    else if contains "[WARN]" line || contains "[WARNING]" line then Some "WARN"%string
    else if contains "[ERROR]" line then Some "ERROR"%string
    else if contains "[DEBUG]" line then Some "DEBUG"%string
    else None.
Proof.
  unfold earliest_level, level_markers.
  destruct (contains "[INFO]" line) eqn:Hinfo.
  { rewrite filter_cons_True; [done | by apply marked_one]. }
  rewrite filter_cons_False by (cbn; rewrite marked_one; congruence).
  destruct (contains "[WARN]" line || contains "[WARNING]" line) eqn:Hwarn.
  { rewrite filter_cons_True; [done | by apply marked_two]. }
  rewrite filter_cons_False by (cbn; rewrite marked_two; congruence).
  destruct (contains "[ERROR]" line) eqn:Herror.
  { rewrite filter_cons_True; [done | by apply marked_one]. }
  rewrite filter_cons_False by (cbn; rewrite marked_one; congruence).
  destruct (contains "[DEBUG]" line) eqn:Hdebug.
  { rewrite filter_cons_True; [done | by apply marked_one]. }
  rewrite filter_cons_False by (cbn; rewrite marked_one; congruence).
  done.
Qed.

End AnalyserCounts.

Section MergeCounts.

Implicit Types (total t : PyDict) (kvs : list (string * Z)).

Lemma PyDict_eq t t' :
  default_factory t = default_factory t' → items t = items t' → t = t'.
Proof. destruct t, t'. cbn. by intros -> ->. Qed.

Lemma add_level_spec total level count :
  match add_level total level count with
  | Some t =>
      default_factory t = default_factory total
      ∧ items t = <[level := level_count (items total) level + count]> (items total)
      ∧ (default_factory total = false → is_Some (items total !! level))
  | None => default_factory total = false ∧ items total !! level = None
  end.
Proof.
  unfold add_level, level_count. destruct (items total !! level) as [v |] eqn:Hl; cbn.
  - eauto.
  - destruct (default_factory total); cbn; [| done]. repeat split; done.
Qed.

Lemma merge_list_spec kvs total :
  NoDup kvs.*1 →
  match foldl (λ acc kv, t ← acc; add_level t kv.1 kv.2) (Some total) kvs with
  | Some t =>
      default_factory t = default_factory total
      ∧ (∀ k, items t !! k
              = merged_lookup (items total) (list_to_map kvs) k)
      ∧ (default_factory total = false → ∀ k, k ∈ kvs.*1 → is_Some (items total !! k))
  | None =>
      default_factory total = false ∧ ∃ k, k ∈ kvs.*1 ∧ items total !! k = None
  end.
Proof.
  revert total. induction kvs as [| [k0 c0] kvs IH]; intros total Hnd.
  - cbn. split; [done |]. split; [| intros _ k Hk; by apply elem_of_nil in Hk].
    intros k. unfold merged_lookup. by rewrite lookup_empty.
  - rewrite fmap_cons in Hnd. apply NoDup_cons in Hnd as [Hk0 Hnd]. cbn [foldl mbind option_bind fst snd].
    pose proof (add_level_spec total k0 c0) as Hadd.
    destruct (add_level total k0 c0) as [t1 |].
    + destruct Hadd as (Hf1 & Hi1 & Hp1). specialize (IH t1 Hnd).
      destruct (foldl _ (Some t1) kvs) as [t |].
      * destruct IH as (Hf & Hi & Hp). split; [congruence |]. split.
        -- intros k. rewrite Hi. unfold merged_lookup. cbn [list_to_map foldr uncurry fst snd].
           rewrite Hi1. destruct (decide (k = k0)) as [-> | Hne].
           ++ rewrite (not_elem_of_list_to_map_1 _ _ Hk0), !lookup_insert_eq. done.
           ++ rewrite !lookup_insert_ne by done. unfold level_count.
              by rewrite lookup_insert_ne by done.
        -- intros Hplain k Hk. rewrite fmap_cons in Hk. apply elem_of_cons in Hk as [-> | Hk].
           ++ by apply Hp1.
           ++ rewrite Hf1 in Hp. specialize (Hp Hplain k Hk). rewrite Hi1 in Hp.
              destruct (decide (k = k0)) as [-> | Hne]; [by apply Hp1 |].
              by rewrite lookup_insert_ne in Hp.
      * destruct IH as (Hplain & k & Hk & Hnone). split; [congruence |].
        exists k. split; [rewrite fmap_cons; by apply list_elem_of_further |].
        rewrite Hi1 in Hnone. destruct (decide (k = k0)) as [-> | Hne].
        -- by rewrite lookup_insert_eq in Hnone.
        -- by rewrite lookup_insert_ne in Hnone.
    + destruct Hadd as [Hplain Hnone].
      rewrite foldl_option_none. split; [done |]. exists k0. split; [| done].
      rewrite fmap_cons. apply list_elem_of_here.
Qed.

(** [merge_counts], whatever the kind of [total_counts]. *)
Lemma merge_counts_spec total new_counts :
  match merge_counts total new_counts with
  | Some t =>
      default_factory t = default_factory total
      ∧ (∀ k, items t !! k = merged_lookup (items total) new_counts k)
      ∧ (default_factory total = false →
         ∀ k, is_Some (new_counts !! k) → is_Some (items total !! k))
  | None =>
      default_factory total = false
      ∧ ∃ k, is_Some (new_counts !! k) ∧ items total !! k = None
  end.
Proof.
  unfold merge_counts.
  pose proof (merge_list_spec (map_to_list new_counts) total (NoDup_fst_map_to_list _)) as H.
  rewrite list_to_map_to_list in H.
  destruct (foldl _ _ _) as [t |].
  - destruct H as (Hf & Hi & Hp). split; [done |]. split; [done |].
    intros Hplain k [c Hk]. apply Hp; [done |].
    apply list_elem_of_fmap. exists (k, c). split; [done |]. by apply elem_of_map_to_list.
  - destruct H as (Hplain & k & Hk & Hnone). split; [done |]. exists k. split; [| done].
    apply list_elem_of_fmap in Hk as ([k' c] & -> & Hk). apply elem_of_map_to_list in Hk. by exists c.
Qed.

End MergeCounts.

Section MergeCounts2.

Implicit Types (total t : PyDict) (kvs : list (string * Z)).

Lemma merge_all_cons total r rs :
  merge_all total (r :: rs) = merge_counts total r ≫= λ t, merge_all t rs.
Proof.
  unfold merge_all. cbn [foldl mbind option_bind].
  destruct (merge_counts total r); [done |]. apply foldl_option_none.
Qed.

Lemma merge_counts_swap total x y :
  (merge_counts total x ≫= λ t, merge_counts t y)
  = (merge_counts total y ≫= λ t, merge_counts t x).
Proof.
  pose proof (merge_counts_spec total x) as Hx.
  pose proof (merge_counts_spec total y) as Hy.
  destruct (merge_counts total x) as [tx |], (merge_counts total y) as [ty |];
    cbn [mbind option_bind]; [| | | done].
  - destruct Hx as (Hfx & Hix & Hpx), Hy as (Hfy & Hiy & Hpy).
    pose proof (merge_counts_spec tx y) as Hxy.
    pose proof (merge_counts_spec ty x) as Hyx.
    destruct (merge_counts tx y) as [txy |], (merge_counts ty x) as [tyx |]; [| | | done].
    + destruct Hxy as (Hfxy & Hixy & _), Hyx as (Hfyx & Hiyx & _).
      f_equal. apply PyDict_eq; [congruence |]. apply map_eq. intros k.
      rewrite Hixy, Hiyx. unfold merged_lookup, level_count.
      rewrite Hix, Hiy. unfold merged_lookup, level_count.
      destruct (x !! k), (y !! k), (items total !! k); cbn; try done; f_equal; lia.
    + exfalso. destruct Hyx as (Hplain & k & Hk & Hnone).
      rewrite Hiy in Hnone. unfold merged_lookup in Hnone.
      destruct (y !! k); [done |].
      destruct (Hpx (eq_trans (eq_sym Hfy) Hplain) k Hk) as [v Hv]. congruence.
    + exfalso. destruct Hxy as (Hplain & k & Hk & Hnone).
      rewrite Hix in Hnone. unfold merged_lookup in Hnone.
      destruct (x !! k); [done |].
      destruct (Hpy (eq_trans (eq_sym Hfx) Hplain) k Hk) as [v Hv]. congruence.
  - destruct Hx as (Hfx & Hix & Hpx), Hy as (Hplain & k & Hk & Hnone).
    pose proof (merge_counts_spec tx y) as Hxy.
    destruct (merge_counts tx y) as [txy |]; [| done]. exfalso.
    destruct Hxy as (_ & _ & Hp). destruct (Hp (eq_trans Hfx Hplain) k Hk) as [v Hv].
    rewrite Hix in Hv. unfold merged_lookup in Hv.
    destruct (x !! k) as [c |] eqn:Hxk; [| congruence].
    destruct (Hpx Hplain k (mk_is_Some _ _ Hxk)) as [v' Hv']. congruence.
  - destruct Hy as (Hfy & Hiy & Hpy), Hx as (Hplain & k & Hk & Hnone).
    pose proof (merge_counts_spec ty x) as Hyx.
    destruct (merge_counts ty x) as [tyx |]; [| done]. exfalso.
    destruct Hyx as (_ & _ & Hp). destruct (Hp (eq_trans Hfy Hplain) k Hk) as [v Hv].
    rewrite Hiy in Hv. unfold merged_lookup in Hv.
    destruct (y !! k) as [c |] eqn:Hyk; [| congruence].
    destruct (Hpy Hplain k (mk_is_Some _ _ Hyk)) as [v' Hv']. congruence.
Qed.

Lemma merge_all_perm total rs rs' :
  rs ≡ₚ rs' → merge_all total rs = merge_all total rs'.
Proof.
  intros Hperm. revert total.
  induction Hperm as [| r rs rs' _ IH | r r' rs | rs1 rs2 rs3 _ IH1 _ IH2]; intros total.
  - done.
  - rewrite !merge_all_cons. destruct (merge_counts total r); cbn; [apply IH | done].
  - rewrite !merge_all_cons.
    pose proof (merge_counts_swap total r r') as Hswap.
    destruct (merge_counts total r) as [t1 |] eqn:H1, (merge_counts total r') as [t2 |] eqn:H2;
      cbn [mbind option_bind] in *.
    + rewrite !merge_all_cons. by rewrite Hswap.
    + rewrite merge_all_cons. by rewrite Hswap.
    + rewrite merge_all_cons. by rewrite <- Hswap.
    + done.
  - by rewrite IH1, IH2.
Qed.

(** X5.  On a [defaultdict(int)], [merge_counts] never raises and adds key by
    key: a level of [new_counts] ends with the sum of both counts (the count
    itself when [total_counts] did not have the level, also when that count
    is 0), every other level keeps its entry, and no other key appears. *)
Theorem merge_counts_defaultdict_adds (total : PyDict) (new_counts : gmap string Z) :
  default_factory total = true →
  ∃ t, merge_counts total new_counts = Some t
    ∧ default_factory t = true
    ∧ ∀ level,
        items t !! level
        = match new_counts !! level with
          | Some c => Some (default 0 (items total !! level) + c)
          | None => items total !! level
          end.
Proof.
  intros Hd. pose proof (merge_counts_spec total new_counts) as H.
  destruct (merge_counts total new_counts) as [t |].
  - destruct H as (Hf & Hi & _). exists t. split; [done |]. split; [congruence | done].
  - destruct H as [Hplain _]. congruence.
Qed.

Lemma merge_counts_defaultdict_adds_example :
  ∃ t, merge_counts (mkPyDict true {["INFO" := 2; "WARN" := 1]}) {["INFO" := 3; "DEBUG" := 0]}
       = Some t
    ∧ default_factory t = true
    ∧ ∀ level,
        items t !! level
        = match ({["INFO" := 3; "DEBUG" := 0]} : gmap string Z) !! level with
          | Some c => Some (default 0 (({["INFO" := 2; "WARN" := 1]} : gmap string Z) !! level) + c)
          | None => ({["INFO" := 2; "WARN" := 1]} : gmap string Z) !! level
          end.
Proof.
  exact (merge_counts_defaultdict_adds (mkPyDict true {["INFO" := 2; "WARN" := 1]})
           {["INFO" := 3; "DEBUG" := 0]} eq_refl).
Defined.

(** X6.  On a plain [dict] (the counts read back from a checkpoint),
    [merge_counts] raises [KeyError] exactly when [new_counts] has a level
    that [total_counts] lacks, whatever its count; when it does not raise,
    the keys of [total_counts] are unchanged and the counts are added. *)
Theorem merge_counts_plain_dict_raises (total : PyDict) (new_counts : gmap string Z) :
  default_factory total = false →
  (merge_counts total new_counts = None
   ↔ ∃ level, is_Some (new_counts !! level) ∧ items total !! level = None)
  ∧ ∀ t, merge_counts total new_counts = Some t →
      default_factory t = false
      ∧ dom (items t) = dom (items total)
      ∧ ∀ level,
          items t !! level
          = match new_counts !! level with
            | Some c => Some (default 0 (items total !! level) + c)
            | None => items total !! level
            end.
Proof.
  intros Hplain. pose proof (merge_counts_spec total new_counts) as H.
  destruct (merge_counts total new_counts) as [t |].
  - destruct H as (Hf & Hi & Hp). split.
    + split; [done |]. intros (k & Hk & Hnone).
      destruct (Hp Hplain k Hk) as [v Hv]. congruence.
    + intros t' [= <-]. split; [congruence |]. split; [| done].
      apply set_eq. intros k. rewrite !elem_of_dom, Hi. unfold merged_lookup.
      destruct (new_counts !! k) as [c |] eqn:Hk; [| done].
      split; [intros _; apply Hp; [done | by exists c] | by eauto].
  - destruct H as (_ & k & Hk & Hnone). split; [| done].
    split; [intros _; by exists k | done].
Qed.

Lemma merge_counts_plain_dict_raises_example :
  (merge_counts (mkPyDict false {["INFO" := 2]}) {["INFO" := 1; "WARN" := 0]} = None
   ↔ ∃ level, is_Some (({["INFO" := 1; "WARN" := 0]} : gmap string Z) !! level)
              ∧ ({["INFO" := 2]} : gmap string Z) !! level = None)
  ∧ ∀ t, merge_counts (mkPyDict false {["INFO" := 2]}) {["INFO" := 1; "WARN" := 0]} = Some t →
      default_factory t = false
      ∧ dom (items t) = dom ({["INFO" := 2]} : gmap string Z)
      ∧ ∀ level,
          items t !! level
          = match ({["INFO" := 1; "WARN" := 0]} : gmap string Z) !! level with
            | Some c => Some (default 0 (({["INFO" := 2]} : gmap string Z) !! level) + c)
            | None => ({["INFO" := 2]} : gmap string Z) !! level
            end.
Proof.
  exact (merge_counts_plain_dict_raises (mkPyDict false {["INFO" := 2]})
           {["INFO" := 1; "WARN" := 0]} eq_refl).
Defined.

(** X7.  The order in which results are merged does not matter: folding any
    rearrangement of the same results into the same [total_counts] gives the
    same dictionary, or raises in both orders. *)
Theorem merge_all_order_independent (total : PyDict) (rs rs' : list (gmap string Z)) :
  rs ≡ₚ rs' → merge_all total rs = merge_all total rs'.
Proof. apply merge_all_perm. Qed.

Lemma merge_all_order_independent_example :
  merge_all defaultdict_int [{["INFO" := 1]}; {["WARN" := 2]}; {["INFO" := 3]}]
  = merge_all defaultdict_int [{["INFO" := 3]}; {["INFO" := 1]}; {["WARN" := 2]}].
Proof.
  apply (merge_all_order_independent defaultdict_int).
  symmetry. apply (Permutation_cons_append [{["INFO" := 1]}; {["WARN" := 2]}] {["INFO" := 3]}).
Defined.

End MergeCounts2.

Section AnalyserCounts2.

Implicit Types (lines : list string) (counts : gmap string Z).

Lemma hits_nonneg P lines : 0 ≤ hits P lines.
Proof. unfold hits. lia. Qed.

Lemma reaches_cases k line :
  reaches k line
  = if contains "[INFO]" line then bool_decide (k = "INFO"%string)
    else if contains "[WARN]" line || contains "[WARNING]" line then bool_decide (k = "WARN"%string)
    else if contains "[ERROR]" line then bool_decide (k = "ERROR"%string)
    else if contains "[DEBUG]" line then bool_decide (k = "DEBUG"%string)
    else false.
Proof.
  unfold reaches. rewrite earliest_level_cases.
  destruct (contains "[INFO]" line); [apply bool_decide_ext; naive_solver |].
  destruct (contains "[WARN]" line || contains "[WARNING]" line);
    [apply bool_decide_ext; naive_solver |].
  destruct (contains "[ERROR]" line); [apply bool_decide_ext; naive_solver |].
  destruct (contains "[DEBUG]" line); [apply bool_decide_ext; naive_solver |].
  by apply bool_decide_eq_false_2.
Qed.

Lemma scan_lines_positive lines counts :
  (∀ k v, counts !! k = Some v → 1 ≤ v) →
  ∀ k v, foldl scan_line counts lines !! k = Some v → 1 ≤ v.
Proof.
  revert counts. induction lines as [| line lines IH]; intros counts Hpos; [done |].
  cbn [foldl]. apply IH. intros k v.
  destruct (scan_line_cases counts line) as [-> | (level & _ & ->)]; [apply Hpos |].
  unfold incr. destruct (decide (k = level)) as [-> | Hne].
  - rewrite lookup_insert_eq. intros [= <-].
    destruct (counts !! level) as [v0 |] eqn:Hl; cbn; [| lia].
    specialize (Hpos _ _ Hl). lia.
  - rewrite lookup_insert_ne by done. apply Hpos.
Qed.

(** The dictionary the scan of [lines] returns, key by key. *)
Lemma scan_lines_lookup lines k :
  foldl scan_line ∅ lines !! k
  = if decide (0 < hits (reaches k) lines) then Some (hits (reaches k) lines) else None.
Proof.
  pose proof (level_count_scan_lines lines ∅ k) as Hc.
  unfold level_count in Hc. rewrite lookup_empty in Hc. cbn [default] in Hc.
  pose proof (scan_lines_positive lines ∅) as Hpos.
  destruct (foldl scan_line ∅ lines !! k) as [v |] eqn:Hl; cbn in Hc.
  - assert (1 ≤ v) by (eapply Hpos; [intros ? ?; by rewrite lookup_empty | done]).
    rewrite decide_True by lia. f_equal. lia.
  - rewrite decide_False by lia. done.
Qed.

Lemma hits_none P lines : (∀ l, P l = false) → hits P lines = 0.
Proof.
  intros H. induction lines as [| l lines IH]; [done |]. by rewrite hits_cons, H, IH.
Qed.

(** X1.  The count [analyse_log_file] returns for a level is the number of
    lines that reach the level's branch of the [if]/[elif] chain: the lines
    with [[INFO]] for INFO; those without [[INFO]] and with [[WARN]] or
    [[WARNING]] for WARN; those with none of these and with [[ERROR]] for
    ERROR; those with none of these and with [[DEBUG]] for DEBUG.  A file
    that cannot be opened counts as one without lines. *)
Theorem analyse_log_file_counts (disk : gmap string (list string)) (filepath : string) :
  let lines := default [] (disk !! filepath) in
  let counts := analyse_log_file disk filepath in
  level_count counts "INFO" = hits (contains "[INFO]") lines
  ∧ level_count counts "WARN"
    = hits (λ l, negb (contains "[INFO]" l)
                 && (contains "[WARN]" l || contains "[WARNING]" l)) lines
  ∧ level_count counts "ERROR"
    = hits (λ l, negb (contains "[INFO]" l)
                 && negb (contains "[WARN]" l || contains "[WARNING]" l)
                 && contains "[ERROR]" l) lines
  ∧ level_count counts "DEBUG"
    = hits (λ l, negb (contains "[INFO]" l)
                 && negb (contains "[WARN]" l || contains "[WARNING]" l)
                 && negb (contains "[ERROR]" l)
                 && contains "[DEBUG]" l) lines.
Proof.
  intros lines counts.
  assert (Hc : ∀ k, level_count counts k = hits (reaches k) lines).
  { intros k. unfold counts, lines, analyse_log_file.
    destruct (disk !! filepath) as [ls |]; cbn [default].
    - rewrite level_count_scan_lines. unfold level_count. by rewrite lookup_empty.
    - unfold level_count. by rewrite lookup_empty. }
  rewrite !Hc. repeat split; apply hits_ext; intros l; rewrite reaches_cases;
    destruct (contains "[INFO]" l), (contains "[WARN]" l || contains "[WARNING]" l),
      (contains "[ERROR]" l), (contains "[DEBUG]" l); done.
Qed.

Lemma analyse_log_file_lookup disk filepath level v :
  analyse_log_file disk filepath !! level = Some v →
  level ∈ ["INFO"; "WARN"; "ERROR"; "DEBUG"]%string ∧ 1 ≤ v ∧ is_Some (disk !! filepath).
Proof.
  intros Hv.
  unfold analyse_log_file in Hv. destruct (disk !! filepath) as [lines |]; [| done].
  rewrite scan_lines_lookup in Hv. case_decide as Hpos; [| done]. injection Hv as <-.
  split; [| split; [lia | done]].
  destruct (decide (level ∈ ["INFO"; "WARN"; "ERROR"; "DEBUG"]%string)) as [| Hout]; [done |].
  exfalso. rewrite hits_none in Hpos; [lia |].
  intros l. rewrite reaches_cases.
  repeat match goal with |- context [if ?b then _ else _] => destruct b end;
    try done; apply bool_decide_eq_false_2; intros ->; apply Hout;
    apply (bool_decide_unpack _); by vm_compute.
Qed.

(** X2.  The dictionary [analyse_log_file] returns has no other keys than
    INFO, WARN, ERROR and DEBUG, and no zero entry: a key is present only
    when its count is at least 1, so a level without a line in the file is
    absent from the result (and the file was read). *)
Theorem analyse_log_file_keys (disk : gmap string (list string)) (filepath : string)
    (level : string) (v : Z) :
  analyse_log_file disk filepath !! level = Some v →
  level ∈ ["INFO"; "WARN"; "ERROR"; "DEBUG"]%string
  ∧ 1 ≤ v
  ∧ v = level_count (analyse_log_file disk filepath) level
  ∧ is_Some (disk !! filepath).
Proof.
  intros Hv. destruct (analyse_log_file_lookup _ _ _ _ Hv) as (H1 & H2 & H3).
  unfold level_count. by rewrite Hv.
Qed.

Lemma analyse_log_file_keys_example :
  "INFO"%string ∈ ["INFO"; "WARN"; "ERROR"; "DEBUG"]%string
  ∧ 1 ≤ 1
  ∧ 1 = level_count (analyse_log_file disk1 "a.log") "INFO"
  ∧ is_Some (disk1 !! "a.log"%string).
Proof. exact (analyse_log_file_keys disk1 "a.log" "INFO" 1 eq_refl). Defined.

End AnalyserCounts2.

Section AnalyserSplit.

Implicit Types (lines : list string) (counts : gmap string Z).

Lemma positive_map_eq (m m' : gmap string Z) :
  (∀ k v, m !! k = Some v → 1 ≤ v) → (∀ k v, m' !! k = Some v → 1 ≤ v) →
  (∀ k, level_count m k = level_count m' k) → m = m'.
Proof.
  intros Hm Hm' Hc. apply map_eq. intros k. specialize (Hc k). unfold level_count in Hc.
  destruct (m !! k) as [v |] eqn:H1, (m' !! k) as [v' |] eqn:H2; cbn in Hc.
  - by subst.
  - specialize (Hm _ _ H1). lia.
  - specialize (Hm' _ _ H2). lia.
  - done.
Qed.

Lemma analyse_log_file_positive disk f k v :
  analyse_log_file disk f !! k = Some v → 1 ≤ v.
Proof.
  unfold analyse_log_file. destruct (disk !! f) as [lines |]; [| done].
  apply scan_lines_positive. intros ? ?. by rewrite lookup_empty.
Qed.

Lemma merge_all_positive total rs t :
  (∀ k v, items total !! k = Some v → 1 ≤ v) →
  Forall (λ r : gmap string Z, ∀ k v, r !! k = Some v → 1 ≤ v) rs →
  merge_all total rs = Some t →
  ∀ k v, items t !! k = Some v → 1 ≤ v.
Proof.
  intros Htotal Hrs. revert total Htotal.
  induction Hrs as [| r rs Hr _ IH]; intros total Htotal.
  - intros [= <-]. done.
  - rewrite merge_all_cons. pose proof (merge_counts_spec total r) as Hspec.
    destruct (merge_counts total r) as [t1 |]; [| done]. cbn [mbind option_bind].
    apply IH. intros k v. destruct Hspec as (_ & -> & _). unfold merged_lookup, level_count.
    destruct (r !! k) as [c |] eqn:Hk; [| apply Htotal].
    intros [= <-]. specialize (Hr _ _ Hk).
    destruct (items total !! k) as [v0 |] eqn:H0; cbn; [| lia].
    specialize (Htotal _ _ H0). lia.
Qed.

Lemma level_count_analyse disk f k :
  level_count (analyse_log_file disk f) k = hits (reaches k) (default [] (disk !! f)).
Proof.
  unfold analyse_log_file. destruct (disk !! f) as [lines |]; cbn [default].
  - rewrite level_count_scan_lines. unfold level_count. by rewrite lookup_empty.
  - unfold level_count. by rewrite lookup_empty.
Qed.

Lemma level_total_analyse disk parts k :
  level_total (analyse_log_file disk <$> parts) k
  = hits (reaches k) (concat ((λ f, default [] (disk !! f)) <$> parts)).
Proof.
  induction parts as [| f parts IH]; [done |].
  rewrite !fmap_cons, level_total_cons, IH, level_count_analyse. cbn [concat].
  by rewrite hits_app.
Qed.

(** X4.  Counting is additive over files: when the lines of one file are the
    lines of a list of files put end to end, merging the results of
    [analyse_log_file] on the parts into an empty [defaultdict] gives
    exactly the dictionary [analyse_log_file] returns on the whole. *)
Theorem merged_parts_equal_whole (disk : gmap string (list string))
    (whole : string) (parts : list string) :
  default [] (disk !! whole) = concat ((λ f, default [] (disk !! f)) <$> parts) →
  ∃ t, merge_all defaultdict_int (analyse_log_file disk <$> parts) = Some t
    ∧ items t = analyse_log_file disk whole.
Proof.
  intros Hlines.
  destruct (merge_all_default defaultdict_int (analyse_log_file disk <$> parts) eq_refl)
    as (t & Ht & _).
  exists t. split; [done |]. apply positive_map_eq.
  - apply (merge_all_positive defaultdict_int (analyse_log_file disk <$> parts)); [| | done].
    + intros ? ?. cbn. by rewrite lookup_empty.
    + apply Forall_fmap, Forall_forall. intros f _ k v. apply analyse_log_file_positive.
  - intros k v. apply analyse_log_file_positive.
  - intros k. rewrite (merge_all_count _ _ _ k Ht), level_total_analyse.
    rewrite level_count_analyse, Hlines. unfold level_count. cbn. by rewrite lookup_empty.
Qed.

Lemma merged_parts_equal_whole_example :
  ∃ t, merge_all defaultdict_int
         (analyse_log_file
            {["w" := ["[INFO] a"; "[WARN] b"; "[INFO] c"]; "p" := ["[INFO] a"];
              "q" := ["[WARN] b"; "[INFO] c"]]}%string <$> ["p"; "q"]%string) = Some t
    ∧ items t
      = analyse_log_file
          {["w" := ["[INFO] a"; "[WARN] b"; "[INFO] c"]; "p" := ["[INFO] a"];
            "q" := ["[WARN] b"; "[INFO] c"]]}%string "w".
Proof.
  apply (merged_parts_equal_whole
           {["w" := ["[INFO] a"; "[WARN] b"; "[INFO] c"]; "p" := ["[INFO] a"];
             "q" := ["[WARN] b"; "[INFO] c"]]}%string "w" ["p"; "q"]%string).
  by vm_compute.
Defined.

Lemma prefix_spec (a b : string) :
  String.prefix a b = true ↔ ∃ post, b = a +:+ post.
Proof.
  revert b. induction a as [| c a IH]; intros b.
  - destruct b; cbn; (split; [intros _; by eexists | done]).
  - destruct b as [| c' b]; cbn.
    + split; [done | intros [post H]; done].
    + destruct (Ascii.ascii_dec c c') as [-> | Hne].
      * rewrite IH. split; intros [post H]; exists post; [by rewrite H | by injection H].
      * split; [done | intros [post H]; injection H as -> _; done].
Qed.

(** X3.  The test ['[INFO]' in line] of the scan holds exactly when the
    marker occurs somewhere in the line, wherever that is: a line counts for
    INFO as soon as the text [[INFO]] appears anywhere in it, the message
    included. *)
Theorem contains_is_substring (needle hay : string) :
  (contains needle hay = true ↔ ∃ pre post, hay = pre +:+ needle +:+ post)
  ∧ ∀ counts,
      level_count (scan_line counts hay) "INFO" = level_count counts "INFO" + 1
      ↔ ∃ pre post, hay = pre +:+ "[INFO]" +:+ post.
Proof.
  assert (Hsub : ∀ needle hay,
             contains needle hay = true ↔ ∃ pre post, hay = pre +:+ needle +:+ post).
  { clear. intros needle hay. split.
    - induction hay as [| c hay IH].
      + cbn [contains]. rewrite orb_false_r. intros H. apply prefix_spec in H as [post H].
        by exists EmptyString, post.
      + cbn [contains]. intros H. apply orb_true_iff in H as [H | H].
        * apply prefix_spec in H as [post H]. by exists EmptyString, post.
        * destruct (IH H) as (pre & post & ->). by exists (String c pre), post.
    - intros (pre & post & ->). induction pre as [| c pre IH].
      + destruct (needle +:+ post) eqn:E; cbn [contains]; apply orb_true_iff; left;
          apply prefix_spec; exists post; by rewrite <- E.
      + change (String c pre +:+ needle +:+ post) with (String c (pre +:+ needle +:+ post)).
        cbn [contains]. rewrite IH. apply orb_true_r. }
  split; [apply Hsub |].
  intros counts. rewrite <- Hsub, level_count_scan_line, reaches_cases.
  destruct (contains "[INFO]" hay).
  - rewrite bool_decide_eq_true_2 by done. split; [done | lia].
  - rewrite !(bool_decide_eq_false_2 ("INFO"%string = _)) by done.
    split; [| done].
    destruct (contains "[WARN]" hay || contains "[WARNING]" hay), (contains "[ERROR]" hay),
      (contains "[DEBUG]" hay); lia.
Qed.

End AnalyserSplit.

Section Sane.

Implicit Types (ms ts : list Z) (s : Master) (m : Completion) (i k : nat) (x : World).

Lemma omap_length_le {A B} (f : A → option B) (l : list A) :
  (length (omap f l) ≤ length l)%nat.
Proof. induction l as [| a l IH]; [done |]. cbn. destruct (f a); cbn; lia. Qed.

Lemma initial_batch_length r fi : (length (initial_batch r fi) ≤ 10)%nat.
Proof.
  unfold initial_batch. etrans; [apply omap_length_le |]. by rewrite length_seq.
Qed.

Lemma mark_batch_total w batch ms :
  (∀ k, k ∈ batch → (k < length ms)%nat) → is_Some (mark_batch w batch ms).
Proof.
  unfold mark_batch. revert ms. induction batch as [| k batch IH]; intros ms Hin; [by eexists |].
  cbn [foldl mbind option_bind]. rewrite bool_decide_eq_true_2 by (apply Hin; set_solver).
  apply IH. intros k' Hk'. rewrite length_insert. apply Hin. set_solver.
Qed.

(** One turn of the initial dispatch, field by field. *)
Lemma dispatch_to_total fi clock a r :
  length (maps a) = length (log_files a) →
  (∀ k, k ∈ fi → (k < length (maps a))%nat) →
  (1 ≤ r ≤ length (timers a))%nat →
  ∃ a' cmd,
    dispatch_to fi clock a r = Some a'
    ∧ make_command (log_files a) (initial_batch r fi) = Some cmd
    ∧ cmd.*2 = initial_batch r fi
    ∧ outbox a' = outbox a ++ [(Z.of_nat r, Dispatch cmd)]
    ∧ timers a' = <[(r - 1)%nat := clock r]> (timers a)
    ∧ (∀ i, maps a' !! i = if bool_decide (i ∈ initial_batch r fi)
                            then Some (Z.of_nat r) else maps a !! i)
    ∧ length (maps a') = length (maps a)
    ∧ log_files a' = log_files a ∧ results a' = results a ∧ recieved a' = recieved a
    ∧ size a' = size a ∧ total_counts a' = total_counts a ∧ store a' = store a.
Proof.
  intros Hlen Hfi Hr.
  destruct (make_command_total (log_files a) (initial_batch r fi)) as (cmd & Hcmd & Hidx).
  { intros k Hk. apply initial_batch_subset in Hk. rewrite <- Hlen. by apply Hfi. }
  destruct (mark_batch_total (Z.of_nat r) (initial_batch r fi) (maps a)) as [ms Hms].
  { intros k Hk. apply initial_batch_subset in Hk. by apply Hfi. }
  unfold dispatch_to. rewrite Hcmd. cbn [mbind option_bind].
  replace (Z.of_nat r - 1) with (Z.of_nat r - 1) by done.
  cbn [timers send]. rewrite (py_setitem_rank (timers a) (Z.of_nat r)) by lia.
  cbn [mbind option_bind maps send]. rewrite Hms. cbn [mbind option_bind].
  eexists _, cmd. split; [done |]. cbn.
  replace (Z.to_nat (Z.of_nat r - 1)) with (r - 1)%nat by lia.
  repeat split; try done.
  - intros i. by apply mark_batch_lookup.
  - by apply mark_batch_length in Hms.
Qed.

(** The initial dispatch to the ranks [1 .. n], field by field. *)
Lemma initial_fold_total fi clock s n :
  length (maps s) = length (log_files s) →
  (∀ k, k ∈ fi → (k < length (maps s))%nat) →
  (n ≤ length (timers s))%nat →
  ∃ a cmds,
    foldl (λ acc i, a ← acc; dispatch_to fi clock a i) (Some s) (seq 1 n) = Some a
    ∧ outbox a = outbox s ++ cmds
    ∧ Forall2 (λ r dp, ∃ c, make_command (log_files s) (initial_batch r fi) = Some c
                            ∧ c.*2 = initial_batch r fi
                            ∧ dp = (Z.of_nat r, Dispatch c)) (seq 1 n) cmds
    ∧ timers a = (clock <$> seq 1 n) ++ drop n (timers s)
    ∧ (∀ i, (∃ r, (1 ≤ r ≤ n)%nat ∧ i ∈ initial_batch r fi
                  ∧ maps a !! i = Some (Z.of_nat r))
            ∨ ((∀ r, (1 ≤ r ≤ n)%nat → i ∉ initial_batch r fi)
               ∧ maps a !! i = maps s !! i))
    ∧ length (maps a) = length (maps s)
    ∧ log_files a = log_files s ∧ results a = results s ∧ recieved a = recieved s
    ∧ size a = size s ∧ total_counts a = total_counts s ∧ store a = store s.
Proof.
  intros Hlen Hfi. induction n as [| n IH]; intros Hn.
  - exists s, []. cbn [seq foldl fmap list_fmap app]. rewrite app_nil_r, drop_0.
    split; [done |]. split; [done |]. split; [constructor |]. split; [done |].
    split; [| done]. intros i. right. split; [intros r Hr; lia | done].
  - destruct IH as (a & cmds & Ha & Hout & Hcmds & Hts & Hmaps & Hl & Hf & Hres & Hrec
                    & Hsz & Htc & Hst); [lia |].
    destruct (dispatch_to_total fi clock a (S n)) as
      (a' & cmd & Ha' & Hcmd & Hidx & Hout' & Hts' & Hmaps' & Hl' & Hf' & Hres' & Hrec'
       & Hsz' & Htc' & Hst').
    { congruence. }
    { intros k Hk. rewrite Hl. by apply Hfi. }
    { rewrite Hts, length_app, length_fmap, length_seq, length_drop. lia. }
    exists a', (cmds ++ [(Z.of_nat (S n), Dispatch cmd)]).
    rewrite seq_S, foldl_app, Ha. cbn [foldl mbind option_bind]. change (1 + n)%nat with (S n).
    split; [done |]. split; [by rewrite Hout', Hout, app_assoc |].
    split. { apply Forall2_app; [done |]. constructor; [| constructor].
             exists cmd. by rewrite <- Hf. }
    split.
    { rewrite Hts', Hts. replace (S n - 1)%nat with (n + 0)%nat by lia.
      assert (Hln : length (clock <$> seq 1 n) = n) by by rewrite length_fmap, length_seq.
      rewrite <- Hln at 1. rewrite insert_app_r.
      destruct (lookup_lt_is_Some_2 (timers s) n) as [t Ht]; [lia |].
      rewrite (drop_S _ _ _ Ht). cbn [insert list_insert].
      rewrite fmap_app. cbn [fmap list_fmap]. by rewrite <- app_assoc. }
    split.
    { intros i. rewrite Hmaps'. case_bool_decide as Hin.
      - left. exists (S n). split; [lia | done].
      - destruct (Hmaps i) as [(r & Hr & Hir & Hmi) | [Hnot Hmi]].
        + left. exists r. split; [lia | done].
        + right. split; [| done]. intros r Hr.
          destruct (decide (r = S n)) as [-> | Hne]; [done | apply Hnot; lia]. }
    repeat split; congruence.
Qed.

Lemma setup_fields sz on_disk found s :
  setup sz on_disk found = Some s →
  size s = sz ∧ timers s = replicate sz 0 ∧ outbox s = [] ∧ results s = []
  ∧ recieved s = resumed_units on_disk
  ∧ length (maps s) = length (log_files s)
  ∧ (∀ i, (i < resumed_units on_disk)%nat → maps s !! i = Some (-1))
  ∧ Forall (λ u, u = 0 ∨ u = -1) (maps s)
  ∧ store s = on_disk
  ∧ total_counts s = match on_disk with
                     | Some ck => mkPyDict false (ck_counts ck)
                     | None => defaultdict_int
                     end
  ∧ log_files s = match on_disk with
                  | Some ck => ck_processed_files ck ++ ck_pending_files ck
                  | None => found
                  end
  ∧ maps s = match on_disk with
             | Some ck => replicate (length (ck_processed_files ck)) (-1)
                          ++ replicate (length (ck_pending_files ck)) 0
             | None => replicate (length found) 0
             end.
Proof.
  intros Hs. pose proof (setup_lengths _ _ _ _ Hs) as Hlen.
  unfold setup in Hs. case_bool_decide; [done |]. injection Hs as <-.
  destruct on_disk as [ck |]; cbn.
  - repeat split; try done.
    + intros i Hi. rewrite lookup_app_l by by rewrite length_replicate.
      by apply lookup_replicate_2.
    + apply Forall_app. split; apply Forall_replicate; auto.
  - repeat split; try done; [intros i Hi; lia | apply Forall_replicate; auto].
Qed.

(** The start of [main] never raises, and the state at the head of the loop
    is as the invariant says. *)
Lemma start_total disk sz on_disk found clock t_loop s :
  setup sz on_disk found = Some s →
  ∃ a cmds,
    start sz on_disk found clock t_loop = Some (mkWorld (set_checkpointer t_loop a) ∅)
    ∧ outbox a = cmds
    ∧ Forall2 (λ r dp, ∃ c, make_command (log_files s)
                               (initial_batch r (first_indices sz (maps s))) = Some c
                            ∧ c.*2 = initial_batch r (first_indices sz (maps s))
                            ∧ dp = (Z.of_nat r, Dispatch c)) (seq 1 (sz - 1)) cmds
    ∧ timers a = (clock <$> seq 1 (sz - 1)) ++ drop (sz - 1) (replicate sz 0)
    ∧ (∀ i, (∃ r, (1 ≤ r ≤ sz - 1)%nat
                  ∧ i ∈ initial_batch r (first_indices sz (maps s))
                  ∧ maps a !! i = Some (Z.of_nat r))
            ∨ ((∀ r, (1 ≤ r ≤ sz - 1)%nat → i ∉ initial_batch r (first_indices sz (maps s)))
               ∧ maps a !! i = maps s !! i))
    ∧ length (maps a) = length (maps s)
    ∧ log_files a = log_files s ∧ results a = [] ∧ recieved a = resumed_units on_disk
    ∧ size a = sz ∧ total_counts a = total_counts s ∧ store a = on_disk
    ∧ sane disk (resumed_units on_disk) (mkWorld (set_checkpointer t_loop a) ∅).
Proof.
  intros Hs.
  destruct (setup_fields _ _ _ _ Hs)
    as (Hsz & Hts & Hout & Hres & Hrec & Hlen & Hdone & Hms & Hst & _).
  assert (Hfi : ∀ k, k ∈ first_indices sz (maps s) → maps s !! k = Some 0).
  { intros k. apply first_indices_pending. }
  destruct (initial_fold_total (first_indices sz (maps s)) clock s (sz - 1)) as
    (a & cmds & Ha & Hout' & Hcmds & Hts' & Hmaps' & Hl' & Hf' & Hres' & Hrec'
     & Hsz' & Htc' & Hst'); [done | | |].
  { intros k Hk. apply Hfi in Hk. by apply lookup_lt_Some in Hk. }
  { rewrite Hts, length_replicate. lia. }
  rewrite Hout in Hout'. cbn [app] in Hout'. rewrite Hts in Hts'.
  exists a, cmds. unfold start. rewrite Hs. cbn [mbind option_bind].
  unfold initial_dispatch. rewrite Hsz, Ha. cbn [mbind option_bind].
  split; [done |]. split; [done |]. split; [done |]. split; [done |]. split; [done |].
  split; [done |]. split; [done |]. split; [congruence |]. split; [congruence |].
  split; [congruence |]. split; [done |]. split; [congruence |].
  assert (Hin : ∀ r i, i ∈ initial_batch r (first_indices sz (maps s)) → maps s !! i = Some 0).
  { intros r i Hi. by apply Hfi, (initial_batch_subset r). }
  constructor; cbn [master set_checkpointer maps log_files timers size outbox recieved results].
  - congruence.
  - rewrite Hts', length_app, length_fmap, length_seq, length_drop, length_replicate, Hsz', Hsz.
    lia.
  - intros k t Hk Hge. rewrite Hts' in Hk. rewrite Hsz', Hsz in Hge.
    rewrite lookup_app_r in Hk by (rewrite length_fmap, length_seq; lia).
    rewrite lookup_drop in Hk. apply lookup_replicate in Hk as [-> _]. done.
  - apply Forall_lookup. intros i u Hi. rewrite Hsz', Hsz.
    destruct (Hmaps' i) as [(r & Hr & _ & Hmi) | [_ Hmi]].
    + rewrite Hmi in Hi. injection Hi as <-. lia.
    + rewrite Hmi in Hi. rewrite Forall_lookup in Hms. destruct (Hms i u Hi); lia.
  - intros i Hi. destruct (Hmaps' i) as [(r & _ & Hir & _) | [_ Hmi]].
    + apply Hin in Hir. rewrite (Hdone i Hi) in Hir. done.
    + rewrite Hmi. by apply Hdone.
  - rewrite Hout'. rewrite Hsz', Hsz. clear Ha Hout'.
    apply Forall_lookup. intros j dp Hj.
    destruct (Forall2_lookup_r _ _ _ _ _ Hcmds Hj) as (r & Hr & c & Hc & Hidx & ->).
    apply lookup_seq in Hr as [-> Hlt]. cbn [fst snd]. split; [lia |].
    intros c' [= <-]. split; [| split].
    + rewrite <- (length_fmap snd), Hidx. apply initial_batch_length.
    + rewrite Hidx. apply initial_batch_NoDup, first_indices_from_NoDup.
    + apply make_command_spec in Hc as [_ Hc]. rewrite Hf'.
      apply Forall_forall. intros fi Hfi'. rewrite Forall_forall in Hc. split; [| by apply Hc].
      assert (Hfi2 : fi.2 ∈ c.*2) by (apply list_elem_of_fmap; by exists fi).
      rewrite Hidx in Hfi2. apply Hin in Hfi2.
      destruct (decide (resumed_units on_disk ≤ fi.2)%nat) as [| Hlt']; [done |].
      rewrite Hdone in Hfi2 by lia. done.
  - rewrite Hres', Hres, Hrec', Hrec. done.
  - rewrite Hres', Hres. constructor.
Qed.

End Sane.

Section SaneSteps.

Implicit Types (ms ts : list Z) (s : Master) (m : Completion) (i k : nat) (x : World).

Lemma worker_replies_elem disk rank tasks m :
  m ∈ worker_replies disk rank tasks →
  ∃ c, Dispatch c ∈ tasks ∧ m = reply_to disk rank c.
Proof.
  induction tasks as [| [c |] tasks IH]; cbn [worker_replies].
  - intros H. by apply elem_of_nil in H.
  - intros H. apply elem_of_cons in H as [-> | H].
    + exists c. split; [apply list_elem_of_here | done].
    + destruct (IH H) as (c' & Hc' & ->). exists c'. split; [by apply list_elem_of_further | done].
  - intros H. by apply elem_of_nil in H.
Qed.

Lemma inbox_elem rank sent (p : Payload) : p ∈ inbox rank sent → (rank, p) ∈ sent.
Proof.
  unfold inbox. intros H. apply list_elem_of_fmap in H as ([d q] & -> & H).
  apply list_elem_of_filter in H as [Hd H]. cbn in Hd. by subst.
Qed.

Lemma next_reply_sent disk rank x m :
  next_reply disk rank x = Some m →
  ∃ c, (rank, Dispatch c) ∈ outbox (master x) ∧ m = reply_to disk rank c.
Proof.
  unfold next_reply. intros H. apply list_elem_of_lookup_2 in H.
  apply worker_replies_elem in H as (c & Hc & ->). exists c. split; [| done].
  by apply inbox_elem.
Qed.

Lemma expire_zero curr : expire curr 0 = 0.
Proof. unfold expire, expired. by rewrite andb_false_r. Qed.

Lemma expired_positive curr t : expired curr t = true → 0 < t.
Proof. unfold expired. intros H. zbool. lia. Qed.

Lemma sane_tick disk p x clk :
  sane disk p x →
  ∃ s', on_idle clk (master x) = Some s' ∧ sane disk p (mkWorld s' (taken x)).
Proof.
  intros [Hlen Hts Hlast Hunits Hdone Hsent Hrec Hres].
  destruct (on_idle_spec clk (master x) Hlen)
    as (s' & Hs' & Hmaps & Htimers & Hout & Hresults & Hrecieved & Hfiles & Hsize & _).
  exists s'. split; [done |].
  constructor; cbn [master]; rewrite ?Hmaps, ?Htimers, ?Hout, ?Hresults, ?Hrecieved, ?Hfiles,
    ?Hsize; try done.
  - by rewrite length_fmap.
  - by rewrite length_fmap.
  - intros k t Hk Hge. rewrite list_lookup_fmap in Hk.
    destruct (timers (master x) !! k) as [t0 |] eqn:Ht0; [| done].
    injection Hk as <-. rewrite (Hlast k t0 Ht0 Hge). apply expire_zero.
  - apply Forall_fmap. eapply Forall_impl; [exact Hunits |]. intros u Hu. cbn beta in Hu. unfold compose. cbn beta.
    destruct (declared_dead (t_scan clk) (timers (master x)) u); lia.
  - intros i Hi. rewrite list_lookup_fmap, (Hdone i Hi). cbn.
    unfold declared_dead. done.
  - apply Forall_app. split; [done |]. apply Forall_forall. intros [rank pl] Hdp.
    pose proof (stop_signals_stops _ _ _ Hdp) as Hstop. cbn in Hstop. subst pl.
    apply stop_signals_elem in Hdp as (k & t & Hk & Hex & ->). cbn [fst snd].
    split; [| done].
    destruct (decide (size (master x) - 1 ≤ k)%nat) as [Hge | Hlt].
    + apply expired_positive in Hex. rewrite (Hlast k t Hk Hge) in Hex. lia.
    + lia.
Qed.

Lemma sane_reply disk p x rank now m :
  sane disk p x →
  next_reply disk rank x = Some m →
  ∃ s', on_completion m now (master x) = Some s'
    ∧ sane disk p (mkWorld s' (<[rank := S (default 0%nat (taken x !! rank))]> (taken x))).
Proof.
  intros [Hlen Hts Hlast Hunits Hdone Hsent Hrec Hres] Hm.
  apply next_reply_sent in Hm as (c & Hc & ->).
  rewrite Forall_forall in Hsent. destruct (Hsent _ Hc) as [Hrank Hcmd]. cbn [fst snd] in *.
  destruct (Hcmd c eq_refl) as (Hc10 & Hcnd & Hcf).
  destruct (on_completion_spec (reply_to disk rank c) now (master x) Hlen)
    as (s' & cmd & Hs' & Hmk & Hidx & Hresults & Hrecieved & Htimers & Hmaps & Hout
        & Hfiles & Hsize & _).
  { cbn. lia. }
  cbn [reply_to c_result c_index c_worker] in *.
  set (ms1 := complete c.*2 (maps (master x))) in *.
  assert (Hpend : ∀ i, i ∈ next_files ms1 → ms1 !! i = Some 0) by apply next_files_pending.
  assert (Hdone1 : ∀ i, (i < p)%nat → ms1 !! i = Some (-1)).
  { intros i Hi. unfold ms1. rewrite complete_lookup, (Hdone i Hi).
    cbn [fmap option_fmap option_map]. by destruct (bool_decide (i ∈ c.*2)). }
  exists s'. split; [done |].
  constructor; cbn [master]; rewrite ?Hmaps, ?Htimers, ?Hout, ?Hresults, ?Hrecieved, ?Hfiles,
    ?Hsize.
  - unfold ms1. by rewrite assign_length, complete_length.
  - by rewrite length_insert.
  - intros k t Hk Hge. destruct (decide (k = Z.to_nat (rank - 1))) as [-> | Hne]; [lia |].
    rewrite list_lookup_insert_ne in Hk by done. by apply Hlast with k.
  - apply Forall_lookup. intros i u Hi. rewrite assign_lookup in Hi.
    destruct (ms1 !! i) as [u1 |] eqn:Hu1; [| done]. cbn in Hi. injection Hi as <-.
    destruct (bool_decide (i ∈ next_files ms1)); [lia |].
    unfold ms1 in Hu1. rewrite complete_lookup in Hu1.
    destruct (maps (master x) !! i) as [u0 |] eqn:Hu0; [| done]. cbn in Hu1.
    injection Hu1 as <-. rewrite Forall_lookup in Hunits. specialize (Hunits i u0 Hu0).
    cbn beta in Hunits. destruct (bool_decide (i ∈ c.*2)); lia.
  - intros i Hi. rewrite assign_lookup, (Hdone1 i Hi). cbn [fmap option_fmap option_map].
    destruct (bool_decide (i ∈ next_files ms1)) eqn:Hin; [| done].
    apply bool_decide_eq_true in Hin. apply Hpend in Hin. rewrite Hdone1 in Hin by done. done.
  - apply Forall_app. split; [by apply Forall_forall |].
    destruct (bool_decide (0 ∈ ms1)); [| constructor]. constructor; [| constructor].
    cbn [fst snd].
    split; [lia |]. intros c' [= <-]. split; [| split].
    + rewrite <- (length_fmap snd), Hidx. apply next_files_from_length.
    + rewrite Hidx. apply next_files_from_NoDup.
    + apply make_command_spec in Hmk as [_ Hmk].
      apply Forall_forall. intros fi Hfi. rewrite Forall_forall in Hmk. split; [| by apply Hmk].
      assert (Hfi2 : fi.2 ∈ cmd.*2) by (apply list_elem_of_fmap; by exists fi).
      rewrite Hidx in Hfi2. apply Hpend in Hfi2.
      destruct (decide (p ≤ fi.2)%nat) as [| Hlt]; [done |].
      rewrite Hdone1 in Hfi2 by lia. done.
  - rewrite length_app, length_fmap, Hrec. lia.
  - apply Forall_app. split; [done |]. apply Forall_fmap, Forall_forall. intros fi Hfi.
    rewrite Forall_forall in Hcf. destruct (Hcf fi Hfi) as [_ Hf]. cbn.
    exists fi.1. split; [by eapply list_elem_of_lookup_2 | done].
Qed.

(** A step of the system keeps the invariant, and raises only when there is
    no reply to take. *)
Lemma sane_step disk p e x :
  sane disk p x →
  match world_step disk e x with
  | Some x' => sane disk p x'
  | None => ∃ rank now, e = Reply rank now ∧ next_reply disk rank x = None
  end.
Proof.
  intros Hx. destruct e as [clk | rank now]; cbn [world_step].
  - destruct (sane_tick disk p x clk Hx) as (s' & -> & Hs'). done.
  - destruct (next_reply disk rank x) as [m |] eqn:Hm; cbn [mbind option_bind]; [| by eauto].
    destruct (sane_reply disk p x rank now m Hx Hm) as (s' & -> & Hs'). done.
Qed.

Lemma sane_run disk p evs x x' :
  sane disk p x → world_run disk evs x = Some x' → sane disk p x'.
Proof.
  revert x. induction evs as [| e evs IH]; intros x Hx Hrun; cbn [world_run] in Hrun.
  - destruct (loop_cond (master x)); congruence.
  - destruct (loop_cond (master x)); [| congruence].
    pose proof (sane_step disk p e x Hx) as Hstep.
    destruct (world_step disk e x) as [x1 |]; [| done]. by apply (IH x1).
Qed.

Lemma sane_reachable disk sz on_disk found clock t_loop evs x x' :
  start sz on_disk found clock t_loop = Some x →
  world_run disk evs x = Some x' →
  sane disk (resumed_units on_disk) x'.
Proof.
  intros Hstart Hrun. apply (sane_run disk _ evs x); [| done].
  destruct (setup sz on_disk found) as [s |] eqn:Hs.
  - destruct (start_total disk sz on_disk found clock t_loop s Hs) as (a & cmds & Ha & H).
    rewrite Hstart in Ha. injection Ha as ->. apply H.
  - unfold start in Hstart. by rewrite Hs in Hstart.
Qed.

End SaneSteps.

Section SaneRuns.

Implicit Types (ms ts : list Z) (s : Master) (m : Completion) (i k : nat) (x : World).

Lemma world_step_fixed disk p e x x' :
  sane disk p x → world_step disk e x = Some x' →
  size (master x') = size (master x)
  ∧ log_files (master x') = log_files (master x)
  ∧ total_counts (master x') = total_counts (master x).
Proof.
  intros Hx Hstep. destruct e as [clk | rank now]; cbn [world_step] in Hstep.
  - destruct (on_idle_spec clk (master x) (sane_len _ _ _ Hx))
      as (s' & Hs' & _ & _ & _ & _ & _ & Hfiles & Hsize & Htc).
    rewrite Hs' in Hstep. injection Hstep as <-. done.
  - destruct (next_reply disk rank x) as [m |] eqn:Hm; [| done]. cbn [mbind option_bind] in Hstep.
    pose proof Hm as Hm'. apply next_reply_sent in Hm' as (c & Hc & ->).
    pose proof (sane_sent _ _ _ Hx) as Hsent. rewrite Forall_forall in Hsent.
    destruct (Hsent _ Hc) as [Hrank _]. cbn [fst] in Hrank.
    destruct (on_completion_spec (reply_to disk rank c) now (master x) (sane_len _ _ _ Hx))
      as (s' & cmd & Hs' & _ & _ & _ & _ & _ & _ & _ & Hfiles & Hsize & Htc & _).
    { cbn. rewrite (sane_timers _ _ _ Hx). lia. }
    rewrite Hs' in Hstep. injection Hstep as <-. done.
Qed.

Lemma world_run_fixed disk p evs x x' :
  sane disk p x → world_run disk evs x = Some x' →
  size (master x') = size (master x)
  ∧ log_files (master x') = log_files (master x)
  ∧ total_counts (master x') = total_counts (master x).
Proof.
  revert x. induction evs as [| e evs IH]; intros x Hx Hrun; cbn [world_run] in Hrun.
  - destruct (loop_cond (master x)); by injection Hrun as <-.
  - destruct (loop_cond (master x)); [| by injection Hrun as <-].
    pose proof (sane_step disk p e x Hx) as Hsane.
    destruct (world_step disk e x) as [x1 |] eqn:Hx1; [| done].
    destruct (world_step_fixed disk p e x x1 Hx Hx1) as (H1 & H2 & H3).
    destruct (IH x1 Hsane Hrun) as (H4 & H5 & H6). repeat split; congruence.
Qed.

(** What a run starts from and keeps. *)
Lemma reachable_fixed disk sz on_disk found clock t_loop evs x x' :
  start sz on_disk found clock t_loop = Some x →
  world_run disk evs x = Some x' →
  sane disk (resumed_units on_disk) x'
  ∧ size (master x') = sz
  ∧ log_files (master x') = match on_disk with
                            | Some ck => ck_processed_files ck ++ ck_pending_files ck
                            | None => found
                            end
  ∧ total_counts (master x') = match on_disk with
                               | Some ck => mkPyDict false (ck_counts ck)
                               | None => defaultdict_int
                               end.
Proof.
  intros Hstart Hrun.
  destruct (setup sz on_disk found) as [s |] eqn:Hs;
    [| unfold start in Hstart; by rewrite Hs in Hstart].
  destruct (start_total disk sz on_disk found clock t_loop s Hs)
    as (a & cmds & Ha & _ & _ & _ & _ & _ & Hf & _ & _ & Hsz & Htc & _ & Hsane).
  rewrite Hstart in Ha. injection Ha as ->.
  destruct (setup_fields _ _ _ _ Hs) as (_ & _ & _ & _ & _ & _ & _ & _ & _ & Htc0 & Hf0 & _).
  destruct (world_run_fixed disk _ evs _ x' Hsane Hrun) as (H1 & H2 & H3).
  cbn [master set_checkpointer size log_files total_counts] in *.
  split; [by apply (sane_run disk _ evs _ x' Hsane) |]. repeat split; congruence.
Qed.

Lemma stops_outbox l s :
  let s' := foldl (λ a i, send (Z.of_nat i) Stop a) s l in
  outbox s' = outbox s ++ ((λ r, (Z.of_nat r, Stop)) <$> l)
  ∧ size s' = size s ∧ log_files s' = log_files s ∧ maps s' = maps s
  ∧ total_counts s' = total_counts s ∧ recieved s' = recieved s ∧ results s' = results s
  ∧ timers s' = timers s ∧ checkpointer s' = checkpointer s ∧ store s' = store s.
Proof.
  revert s. induction l as [| r l IH]; intros s; cbn [foldl fmap list_fmap].
  - by rewrite app_nil_r.
  - destruct (IH (send (Z.of_nat r) Stop s)) as (-> & -> & -> & -> & -> & -> & -> & -> & -> & ->).
    cbn. by rewrite <- app_assoc.
Qed.

(** [finish], field by field. *)
Lemma finish_fields t s s' :
  finish t s = Some s' →
  ∃ total completed_files todo_files,
    merge_all (total_counts s) (results s) = Some total
    ∧ snapshot_files (maps s) (log_files s) = Some (completed_files, todo_files)
    ∧ outbox s' = outbox s ++ ((λ r, (Z.of_nat r, Stop)) <$> seq 1 (size s - 1))
    ∧ total_counts s' = total
    ∧ store s' = Some (mkCheckpoint t (items total) completed_files todo_files)
    ∧ maps s' = maps s ∧ log_files s' = log_files s ∧ results s' = results s
    ∧ recieved s' = recieved s ∧ size s' = size s ∧ timers s' = timers s.
Proof.
  unfold finish, broadcast_stop.
  destruct (stops_outbox (seq 1 (size s - 1)) s)
    as (Hout & Hsz & Hf & Hm & Htc & Hrec & Hres & Hts & Hck & Hst).
  rewrite Htc, Hres. destruct (merge_all _ _) as [total |]; [| done].
  cbn [mbind option_bind]. cbn [set_total_counts maps log_files]. rewrite Hm, Hf.
  destruct (snapshot_files _ _) as [[p q] |]; [| done]. cbn [mbind option_bind].
  intros [= <-]. exists total, p, q. cbn. by rewrite Hout.
Qed.

Lemma finish_total t s :
  length (maps s) = length (log_files s) →
  is_Some (merge_all (total_counts s) (results s)) → is_Some (finish t s).
Proof.
  intros Hlen [total Htotal]. unfold finish, broadcast_stop.
  destruct (stops_outbox (seq 1 (size s - 1)) s)
    as (Hout & Hsz & Hf & Hm & Htc & Hrec & Hres & Hts & Hck & Hst).
  rewrite Htc, Hres, Htotal. cbn [mbind option_bind]. cbn [set_total_counts maps log_files].
  rewrite Hm, Hf. destruct (snapshot_files_spec _ _ Hlen) as (p & q & -> & _). by eexists.
Qed.

End SaneRuns.

Section RunInvariants.

Implicit Types (ms ts : list Z) (s : Master) (m : Completion) (i k : nat) (x : World).

(** X9.  Rank 0 only ever sends to worker ranks: in every state a run
    reaches, and after the final broadcast, each message is addressed to a
    rank from 1 to [size - 1]; each [maps] entry is -1, 0 or such a rank; and
    only the timers of these ranks are ever set, the last slot of [timers]
    staying 0. *)
Theorem messages_go_to_worker_ranks (disk : gmap string (list string)) (sz : nat)
    (on_disk : option Checkpoint) (found : list string) (clock : nat → Z) (t_loop : Z)
    (evs : list Event) (x x' : World) :
  start sz on_disk found clock t_loop = Some x →
  world_run disk evs x = Some x' →
  (∀ dest pl, (dest, pl) ∈ outbox (master x') → 1 ≤ dest < Z.of_nat sz)
  ∧ (∀ t_end final dest pl,
       finish t_end (master x') = Some final → (dest, pl) ∈ outbox final →
       1 ≤ dest < Z.of_nat sz)
  ∧ (∀ i u, maps (master x') !! i = Some u → u = -1 ∨ u = 0 ∨ 1 ≤ u < Z.of_nat sz)
  ∧ length (timers (master x')) = sz
  ∧ (∀ k t, timers (master x') !! k = Some t → t ≠ 0 → (k + 1 < sz)%nat).
Proof.
  intros Hstart Hrun.
  destruct (reachable_fixed disk sz on_disk found clock t_loop evs x x' Hstart Hrun)
    as ([Hlen Hts Hlast Hunits Hdone Hsent Hrec Hres] & Hsz & _).
  rewrite Hsz in *. rewrite Forall_forall in Hsent.
  assert (Hdest : ∀ dest pl, (dest, pl) ∈ outbox (master x') → 1 ≤ dest < Z.of_nat sz).
  { intros dest pl Hin. destruct (Hsent _ Hin) as [Hd _]. cbn [fst] in Hd. lia. }
  split; [done |]. split; [| split; [| split]].
  - intros t_end final dest pl Hfin Hin.
    apply finish_fields in Hfin as (_ & _ & _ & _ & _ & Hout & _).
    rewrite Hout, Hsz in Hin. apply elem_of_app in Hin as [Hin | Hin]; [by apply Hdest with pl |].
    apply list_elem_of_fmap in Hin as (r & [= -> _] & Hr). apply elem_of_seq in Hr. lia.
  - intros i u Hi. rewrite Forall_lookup in Hunits. specialize (Hunits i u Hi).
    cbn beta in Hunits. lia.
  - done.
  - intros k t Hk Ht. destruct (decide (sz - 1 ≤ k)%nat) as [Hge | Hlt].
    + by specialize (Hlast k t Hk Hge).
    + lia.
Qed.

Lemma messages_go_to_worker_ranks_example :
  (∀ dest pl, (dest, pl) ∈ outbox (master one_file_end) → 1 ≤ dest < Z.of_nat 2)
  ∧ (∀ t_end final dest pl,
       finish t_end (master one_file_end) = Some final → (dest, pl) ∈ outbox final →
       1 ≤ dest < Z.of_nat 2)
  ∧ (∀ i u, maps (master one_file_end) !! i = Some u → u = -1 ∨ u = 0 ∨ 1 ≤ u < Z.of_nat 2)
  ∧ length (timers (master one_file_end)) = 2%nat
  ∧ (∀ k t, timers (master one_file_end) !! k = Some t → t ≠ 0 → (k + 1 < 2)%nat).
Proof.
  apply (messages_go_to_worker_ranks disk1 2 None ["a.log"%string] dispatch_clock 1
           [Reply 1 3] one_file_start one_file_end); vm_compute; reflexivity.
Defined.

(** X10.  Every command rank 0 sends is well formed: it has at most ten
    entries, no index twice, and each entry pairs an index with the path
    [log_files] has at that index. *)
Theorem commands_are_well_formed (disk : gmap string (list string)) (sz : nat)
    (on_disk : option Checkpoint) (found : list string) (clock : nat → Z) (t_loop : Z)
    (evs : list Event) (x x' : World) :
  start sz on_disk found clock t_loop = Some x →
  world_run disk evs x = Some x' →
  ∀ dest c, (dest, Dispatch c) ∈ outbox (master x') →
    (length c ≤ 10)%nat
    ∧ NoDup c.*2
    ∧ ∀ f i, (f, i) ∈ c → log_files (master x') !! i = Some f.
Proof.
  intros Hstart Hrun dest c Hin.
  destruct (reachable_fixed disk sz on_disk found clock t_loop evs x x' Hstart Hrun)
    as ([Hlen Hts Hlast Hunits Hdone Hsent Hrec Hres] & _).
  rewrite Forall_forall in Hsent. destruct (Hsent _ Hin) as [_ Hc].
  destruct (Hc c eq_refl) as (H10 & Hnd & Hf). split; [done |]. split; [done |].
  intros f i Hfi. rewrite Forall_forall in Hf. by destruct (Hf _ Hfi).
Qed.

Lemma commands_are_well_formed_example :
  start 2 None ["a.log"%string] dispatch_clock 1 = Some one_file_start
  ∧ world_run disk1 [Reply 1 3] one_file_start = Some one_file_end
  ∧ ∀ dest c, (dest, Dispatch c) ∈ outbox (master one_file_end) →
      (length c ≤ 10)%nat
      ∧ NoDup c.*2
      ∧ ∀ f i, (f, i) ∈ c → log_files (master one_file_end) !! i = Some f.
Proof.
  split; [vm_compute; reflexivity |]. split; [vm_compute; reflexivity |].
  apply (commands_are_well_formed disk1 2 None ["a.log"%string] dispatch_clock 1
           [Reply 1 3] one_file_start one_file_end); vm_compute; reflexivity.
Defined.

(** X11.  The counter [recieved] is the number of results collected so far,
    plus the number of files the checkpoint listed as processed in a resumed
    run; and every result collected is what [analyse_log_file] returns for
    one of the files of [log_files]. *)
Theorem recieved_counts_results (disk : gmap string (list string)) (sz : nat)
    (on_disk : option Checkpoint) (found : list string) (clock : nat → Z) (t_loop : Z)
    (evs : list Event) (x x' : World) :
  start sz on_disk found clock t_loop = Some x →
  world_run disk evs x = Some x' →
  recieved (master x')
  = (length (results (master x'))
     + match on_disk with
       | Some ck => length (ck_processed_files ck)
       | None => 0
       end)%nat
  ∧ ∀ r, r ∈ results (master x') →
      ∃ f, f ∈ log_files (master x') ∧ r = analyse_log_file disk f.
Proof.
  intros Hstart Hrun.
  destruct (reachable_fixed disk sz on_disk found clock t_loop evs x x' Hstart Hrun)
    as ([Hlen Hts Hlast Hunits Hdone Hsent Hrec Hres] & _).
  split; [by rewrite Hrec |]. by apply Forall_forall.
Qed.

Lemma recieved_counts_results_example :
  recieved (master resumed_end)
  = (length (results (master resumed_end)) + length (ck_processed_files half_done))%nat
  ∧ ∀ r, r ∈ results (master resumed_end) →
      ∃ f, f ∈ log_files (master resumed_end) ∧ r = analyse_log_file disk1 f.
Proof.
  apply (recieved_counts_results disk1 2 (Some half_done) [] (λ _, 21) 21
           [Reply 1 23] resumed_start resumed_end); vm_compute; reflexivity.
Defined.

(** X12.  A run resumed from a checkpoint never sends out a file the
    checkpoint lists as processed: these units stay finished, and every
    entry of every command names a file of [pending_files], at its position
    in that list. *)
Theorem processed_files_are_not_sent_again (disk : gmap string (list string)) (sz : nat)
    (ck : Checkpoint) (found : list string) (clock : nat → Z) (t_loop : Z)
    (evs : list Event) (x x' : World) :
  start sz (Some ck) found clock t_loop = Some x →
  world_run disk evs x = Some x' →
  (∀ i, (i < length (ck_processed_files ck))%nat → maps (master x') !! i = Some (-1))
  ∧ ∀ dest c f i, (dest, Dispatch c) ∈ outbox (master x') → (f, i) ∈ c →
      (length (ck_processed_files ck) ≤ i)%nat
      ∧ ck_pending_files ck !! (i - length (ck_processed_files ck))%nat = Some f.
Proof.
  intros Hstart Hrun.
  destruct (reachable_fixed disk sz (Some ck) found clock t_loop evs x x' Hstart Hrun)
    as ([Hlen Hts Hlast Hunits Hdone Hsent Hrec Hres] & _ & Hfiles & _).
  cbn [resumed_units] in *. split; [done |].
  intros dest c f i Hin Hfi. rewrite Forall_forall in Hsent. destruct (Hsent _ Hin) as [_ Hc].
  destruct (Hc c eq_refl) as (_ & _ & Hf). rewrite Forall_forall in Hf.
  destruct (Hf _ Hfi) as [Hge Hl]. cbn [fst snd] in *. split; [done |].
  rewrite Hfiles in Hl. by rewrite lookup_app_r in Hl.
Qed.

Lemma processed_files_are_not_sent_again_example :
  (∀ i, (i < length (ck_processed_files half_done))%nat →
     maps (master resumed_end) !! i = Some (-1))
  ∧ ∀ dest c f i, (dest, Dispatch c) ∈ outbox (master resumed_end) → (f, i) ∈ c →
      (length (ck_processed_files half_done) ≤ i)%nat
      ∧ ck_pending_files half_done !! (i - length (ck_processed_files half_done))%nat
        = Some f.
Proof.
  apply (processed_files_are_not_sent_again disk1 2 half_done [] (λ _, 21) 21
           [Reply 1 23] resumed_start resumed_end); vm_compute; reflexivity.
Defined.


End RunInvariants.

Section FirstDispatch.

Implicit Types (ms ts : list Z) (s : Master) (m : Completion) (i k : nat) (x : World).

Lemma first_indices_from_fresh cap n i0 collected :
  (collected < cap)%nat →
  first_indices_from i0 cap collected (replicate n 0) = seq i0 (n `min` (cap - collected)).
Proof.
  revert i0 collected. induction n as [| n IH]; intros i0 collected Hc; [done |].
  cbn [replicate first_indices_from]. rewrite Z.eqb_refl.
  destruct (S collected =? cap)%nat eqn:Hcap.
  - apply Nat.eqb_eq in Hcap. replace (S n `min` (cap - collected))%nat with 1%nat by lia. done.
  - apply Nat.eqb_neq in Hcap. rewrite IH by lia.
    replace (S n `min` (cap - collected))%nat with (S (n `min` (cap - S collected))) by lia.
    done.
Qed.

Lemma first_indices_fresh sz n :
  (2 ≤ sz)%nat → first_indices sz (replicate n 0) = seq 0 (n `min` (10 * (sz - 1))).
Proof.
  intros Hsz. unfold first_indices. rewrite first_indices_from_fresh by lia.
  by rewrite Nat.sub_0_r.
Qed.

Lemma initial_batch_seq r L :
  initial_batch r (seq 0 L) = seq ((r - 1) * 10) (10 `min` (L - (r - 1) * 10)).
Proof.
  unfold initial_batch. generalize ((r - 1) * 10)%nat as b. intros b.
  generalize 10%nat as w. intros w. induction w as [| w IH]; [done |].
  rewrite seq_S, omap_app, IH. rewrite Nat.add_0_l. cbn [omap list_omap].
  destruct (decide (b + w < L)%nat) as [Hlt | Hge].
  - rewrite lookup_seq_lt by done. rewrite Nat.add_0_l.
    replace (S w `min` (L - b))%nat with (S (w `min` (L - b))) by lia.
    rewrite seq_S. f_equal. f_equal. lia.
  - rewrite lookup_seq_ge by lia. rewrite app_nil_r. f_equal. lia.
Qed.

(** X8.  The initial dispatch of a run started from the directory hands out
    the files in blocks of ten, in order: rank [r] is sent one command, the
    files at positions [10(r-1) .. 10(r-1)+9] that exist (none when the
    files run out, and the command is sent all the same), each with its
    index; so file [i] is held by rank [i/10 + 1] when [i < 10(size-1)] and
    stays pending otherwise; and the timer of every worker rank is set to
    the time of its send. *)
Theorem initial_dispatch_by_tens (sz : nat) (found : list string) (clock : nat → Z)
    (t_loop : Z) (x : World) :
  start sz None found clock t_loop = Some x →
  Forall2 (λ r dp, ∃ c, dp = (Z.of_nat r, Dispatch c)
                        ∧ c.*1 = take 10 (drop (10 * (r - 1)) found)
                        ∧ c.*2 = seq (10 * (r - 1)) (length c))
          (seq 1 (sz - 1)) (outbox (master x))
  ∧ (∀ i, (i < length found)%nat →
       maps (master x) !! i
       = Some (if (i <? 10 * (sz - 1))%nat then Z.of_nat (i / 10 + 1) else 0))
  ∧ (∀ r, (1 ≤ r ≤ sz - 1)%nat → timers (master x) !! (r - 1)%nat = Some (clock r))
  ∧ checkpointer (master x) = t_loop
  ∧ results (master x) = [] ∧ recieved (master x) = 0%nat.
Proof.
  intros Hstart.
  destruct (setup sz None found) as [s |] eqn:Hs;
    [| unfold start in Hstart; by rewrite Hs in Hstart].
  destruct (start_total ∅ sz None found clock t_loop s Hs)
    as (a & cmds & Ha & Hout & Hcmds & Hts & Hmaps & Hl & Hf & Hres & Hrec & _).
  rewrite Hstart in Ha. injection Ha as ->.
  destruct (setup_fields _ _ _ _ Hs) as (_ & _ & _ & _ & _ & _ & _ & _ & _ & _ & Hf0 & Hm0).
  cbn [master set_checkpointer outbox maps timers checkpointer results recieved].
  rewrite Hm0 in *. rewrite Hf0 in *. clear Hm0 Hf0 Hs.
  set (n := length found) in *.
  assert (Hfi : (2 ≤ sz)%nat →
                first_indices sz (replicate n 0) = seq 0 (n `min` (10 * (sz - 1)))).
  { apply first_indices_fresh. }
  split; [| split; [| split; [| done]]].
  - rewrite Hout. apply Forall2_same_length_lookup_2; [by eapply Forall2_length |].
    intros j r dp Hr Hdp.
    destruct (Forall2_lookup_lr _ _ _ _ _ _ Hcmds Hr Hdp) as (c & Hc & Hidx & ->).
    apply lookup_seq in Hr as [-> Hj]. rewrite Hfi in Hidx by lia.
    rewrite initial_batch_seq in Hidx.
    replace (1 + j - 1)%nat with j in * by lia.
    assert (Hlc : length c = (10 `min` (n `min` (10 * (sz - 1)) - j * 10))%nat).
    { by rewrite <- (length_fmap snd), Hidx, length_seq. }
    exists c. split; [done |]. split.
    + apply make_command_spec in Hc as [_ Hc]. apply list_eq. intros q.
      rewrite list_lookup_fmap.
      destruct (c !! q) as [[f i] |] eqn:Hq; cbn [fmap option_fmap option_map fst].
      * pose proof (lookup_lt_Some _ _ _ Hq) as Hlt.
        assert (Hi : c.*2 !! q = Some i) by by rewrite list_lookup_fmap, Hq.
        rewrite Hidx in Hi. apply lookup_seq in Hi as [-> _].
        rewrite Forall_lookup in Hc. specialize (Hc _ _ Hq). cbn [fst snd] in Hc.
        rewrite lookup_take_lt by lia. rewrite lookup_drop.
        replace (10 * j + q)%nat with (j * 10 + q)%nat by lia. done.
      * apply lookup_ge_None in Hq. symmetry.
        destruct (decide (10 ≤ q)%nat) as [Hq10 | Hq10]; [by apply lookup_take_ge |].
        rewrite lookup_take_lt by lia. rewrite lookup_drop. apply lookup_ge_None.
        fold n. lia.
    + rewrite Hidx, Hlc. f_equal. lia.
  - intros i Hi.
    destruct (Hmaps i) as [(r & Hr & Hir & Hmi) | [Hnot Hmi]].
    + rewrite Hmi. f_equal. rewrite Hfi in Hir by lia.
      apply initial_batch_elem in Hir as (j & Hj & Hlk). apply lookup_seq in Hlk as [Hl2 HL].
      cbn in Hl2. subst i.
      replace ((r - 1) * 10 + j <? 10 * (sz - 1))%nat with true
        by (symmetry; apply Nat.ltb_lt; lia).
      f_equal. rewrite Nat.div_add_l by lia. rewrite (Nat.div_small j) by lia. lia.
    + rewrite Hmi. rewrite lookup_replicate_2 by done. f_equal.
      destruct (i <? 10 * (sz - 1))%nat eqn:Hlt; [| done]. apply Nat.ltb_lt in Hlt.
      exfalso. apply (Hnot (i / 10 + 1)%nat).
      * pose proof (Nat.Div0.div_lt_upper_bound i 10 (sz - 1)). lia.
      * rewrite Hfi by lia. apply initial_batch_elem. exists (i mod 10)%nat.
        split; [apply Nat.mod_upper_bound; lia |].
        replace ((i / 10 + 1 - 1) * 10 + i mod 10)%nat with i
          by (pose proof (Nat.div_mod_eq i 10); lia).
        apply lookup_seq. split; [done | lia].
  - intros r Hr. rewrite Hts. rewrite lookup_app_l by (rewrite length_fmap, length_seq; lia).
    rewrite list_lookup_fmap, lookup_seq_lt by lia. cbn. f_equal. f_equal. lia.
Qed.

Lemma initial_dispatch_by_tens_example :
  Forall2 (λ r dp, ∃ c, dp = (Z.of_nat r, Dispatch c)
                        ∧ c.*1 = take 10 (drop (10 * (r - 1)) ["a.log"%string])
                        ∧ c.*2 = seq (10 * (r - 1)) (length c))
          (seq 1 (2 - 1)) (outbox (master one_file_start))
  ∧ (∀ i, (i < length ["a.log"%string])%nat →
       maps (master one_file_start) !! i
       = Some (if (i <? 10 * (2 - 1))%nat then Z.of_nat (i / 10 + 1) else 0))
  ∧ (∀ r, (1 ≤ r ≤ 2 - 1)%nat →
       timers (master one_file_start) !! (r - 1)%nat = Some (dispatch_clock r))
  ∧ checkpointer (master one_file_start) = 1
  ∧ results (master one_file_start) = []
  ∧ recieved (master one_file_start) = 0%nat.
Proof.
  apply (initial_dispatch_by_tens 2 ["a.log"%string] dispatch_clock 1
           one_file_start).
  vm_compute; reflexivity.
Defined.

(** X14.  Run as a single process (MPI size 1) on a directory with log files,
    rank 0 never finishes: nothing is sent, no reply can come, every
    iteration without a message leaves the state as it is, and the loop
    condition holds for ever, so no report is produced. *)
Theorem single_process_never_finishes (disk : gmap string (list string))
    (found : list string) (clock : nat → Z) (t_loop : Z) :
  found ≠ [] →
  ∃ x, start 1 None found clock t_loop = Some x
    ∧ (∀ clks, ∃ x', world_run disk (Tick <$> clks) x = Some x')
    ∧ (∀ evs x', world_run disk evs x = Some x' →
         loop_cond (master x') = true
         ∧ outbox (master x') = []
         ∧ maps (master x') = replicate (length found) 0)
    ∧ ∀ evs t_end, execution disk 1 None found clock t_loop evs t_end = None.
Proof.
  intros Hfound.
  assert (Hs : setup 1 None found
               = Some (mkMaster 1 found (replicate (length found) 0) defaultdict_int
                         0 [] [0] 0 [] None)).
  { unfold setup. cbn. by rewrite bool_decide_eq_false_2. }
  set (idle c st := mkWorld (mkMaster 1 found (replicate (length found) 0) defaultdict_int
                               0 [] [0] c [] st) ∅).
  assert (Hstart : start 1 None found clock t_loop = Some (idle t_loop None)).
  { unfold start. rewrite Hs. done. }
  assert (Hcond : ∀ c st, loop_cond (master (idle c st)) = true).
  { intros c st. unfold loop_cond. cbn. apply orb_true_iff. left.
    apply bool_decide_eq_true. destruct found; [done |]. cbn. apply list_elem_of_here. }
  assert (Htick : ∀ c st clk, ∃ c' st',
             world_step disk (Tick clk) (idle c st) = Some (idle c' st')).
  { intros c st clk. cbn [world_step].
    destruct (on_idle_spec clk (master (idle c st)))
      as (s' & Hs' & Hmaps & Htimers & Hout & Hresults & Hrecieved & Hfiles & Hsize & Htc).
    { cbn. by rewrite length_replicate. }
    rewrite Hs'. cbn [mbind option_bind]. exists (checkpointer s'), (store s').
    destruct s' as [sz' f' m' tc' rc' rs' ts' ck' ob' st'].
    cbn [size log_files maps total_counts recieved results timers outbox checkpointer store
         master idle] in *.
    subst. unfold idle. f_equal. f_equal. f_equal.
    - rewrite <- list_fmap_id. apply list_fmap_ext. intros i u Hu.
      apply lookup_replicate in Hu as [-> _]. done.
    - cbn [fmap list_fmap]. by rewrite expire_zero.
    - unfold stop_signals, expired. cbn. by rewrite andb_false_r. }
  assert (Hreply : ∀ c st rank now, world_step disk (Reply rank now) (idle c st) = None).
  { intros c st rank now. cbn [world_step]. unfold next_reply. cbn. done. }
  assert (Hrun : ∀ evs c st x',
             world_run disk evs (idle c st) = Some x' → ∃ c' st', x' = idle c' st').
  { induction evs as [| e evs IH]; intros c st x' Hx'; cbn [world_run] in Hx'.
    - rewrite Hcond in Hx'. injection Hx' as <-. eauto.
    - rewrite Hcond in Hx'. destruct e as [clk | rank now].
      + destruct (Htick c st clk) as (c1 & st1 & H1). rewrite H1 in Hx'.
        cbn [mbind option_bind] in Hx'. by apply IH in Hx'.
      + by rewrite Hreply in Hx'. }
  exists (idle t_loop None). split; [done |]. split; [| split].
  - intros clks. generalize t_loop (@None Checkpoint).
    induction clks as [| clk clks IH]; intros c st; cbn [fmap list_fmap world_run].
    + rewrite Hcond. eauto.
    + rewrite Hcond. destruct (Htick c st clk) as (c1 & st1 & ->). cbn [mbind option_bind].
      apply IH.
  - intros evs x' Hx'. apply Hrun in Hx' as (c & st & ->). split; [apply Hcond | done].
  - intros evs t_end. unfold execution. rewrite Hstart. cbn [mbind option_bind].
    destruct (world_run disk evs (idle t_loop None)) as [x' |] eqn:Hx'; [| done].
    cbn [mbind option_bind]. apply Hrun in Hx' as (c & st & ->). by rewrite Hcond.
Qed.

Lemma single_process_never_finishes_example :
  ∃ x, start 1 None ["a.log"%string] dispatch_clock 1 = Some x
    ∧ (∀ clks, ∃ x', world_run disk1 (Tick <$> clks) x = Some x')
    ∧ (∀ evs x', world_run disk1 evs x = Some x' →
         loop_cond (master x') = true
         ∧ outbox (master x') = []
         ∧ maps (master x') = replicate (length ["a.log"%string]) 0)
    ∧ ∀ evs t_end, execution disk1 1 None ["a.log"%string] dispatch_clock 1 evs t_end = None.
Proof. apply (single_process_never_finishes disk1 ["a.log"%string] dispatch_clock 1). done. Defined.

End FirstDispatch.

Section ResumeComplete.

Implicit Types (ms ts : list Z) (s : Master) (m : Completion) (i k : nat) (x : World).

Lemma first_indices_from_no_pending cap ms i0 collected :
  0 ∉ ms → first_indices_from i0 cap collected ms = [].
Proof.
  revert i0. induction ms as [| u ms IH]; intros i0 Hin; [done |].
  cbn [first_indices_from]. destruct (u =? 0) eqn:Hu.
  - apply Z.eqb_eq in Hu. subst. exfalso. apply Hin, list_elem_of_here.
  - apply IH. intros H. by apply Hin, list_elem_of_further.
Qed.

Lemma initial_batch_nil r : initial_batch r [] = [].
Proof. done. Qed.

Lemma snapshot_files_all_done (files : list string) :
  snapshot_files (replicate (length files) (-1)) files = Some (files, []).
Proof. induction files as [| f files IH]; [done |]. cbn. by rewrite IH. Qed.

Lemma is_complete_replicate n : is_complete (replicate n (-1)) = true.
Proof. induction n as [| n IH]; [done |]. cbn. apply IH. Qed.

(** X15.  A run resumed from a checkpoint that lists every file as processed
    analyses nothing: each worker is sent an empty command and then the stop
    signal, the loop is not entered whatever the workers do, and the run
    reports the counts of the checkpoint and writes them back with the same
    list of processed files. *)
Theorem resume_from_complete_checkpoint (disk : gmap string (list string)) (sz : nat)
    (ck : Checkpoint) (found : list string) (clock : nat → Z) (t_loop : Z)
    (evs : list Event) (t_end : Z) :
  ck_pending_files ck = [] → ck_processed_files ck ≠ [] →
  ∃ final,
    execution disk sz (Some ck) found clock t_loop evs t_end = Some final
    ∧ total_counts final = mkPyDict false (ck_counts ck)
    ∧ store final = Some (mkCheckpoint t_end (ck_counts ck) (ck_processed_files ck) [])
    ∧ outbox final = ((λ r, (Z.of_nat r, Dispatch [])) <$> seq 1 (sz - 1))
                     ++ ((λ r, (Z.of_nat r, Stop)) <$> seq 1 (sz - 1))
    ∧ results final = []
    ∧ is_complete (maps final) = true.
Proof.
  intros Hpend Hproc.
  assert (Hs : is_Some (setup sz (Some ck) found)).
  { unfold setup. cbn. rewrite Hpend, app_nil_r. rewrite bool_decide_eq_false_2 by done.
    by eexists. }
  destruct Hs as [s Hs].
  destruct (start_total disk sz (Some ck) found clock t_loop s Hs)
    as (a & cmds & Ha & Hout & Hcmds & Hts & Hmaps & Hl & Hf & Hres & Hrec & Hsz & Htc
        & Hst & Hsane).
  destruct (setup_fields _ _ _ _ Hs)
    as (_ & _ & _ & _ & _ & _ & _ & _ & _ & Htc0 & Hf0 & Hm0).
  rewrite Hpend in Hm0, Hf0. cbn [length replicate] in Hm0. rewrite app_nil_r in Hm0, Hf0.
  assert (Hfi : first_indices sz (maps s) = []).
  { unfold first_indices. apply first_indices_from_no_pending. rewrite Hm0.
    intros H. by apply elem_of_replicate in H as [? _]. }
  rewrite Hfi in Hcmds, Hmaps.
  assert (Hma : maps a = maps s).
  { apply list_eq. intros i. destruct (Hmaps i) as [(r & _ & Hir & _) | [_ Hmi]]; [| done].
    rewrite initial_batch_nil in Hir. by apply elem_of_nil in Hir. }
  assert (Hcm : cmds = (λ r, (Z.of_nat r, Dispatch [])) <$> seq 1 (sz - 1)).
  { clear -Hcmds. induction Hcmds as [| r dp rs dps (c & Hc & _ & ->) _ IH]; [done |].
    cbn [fmap list_fmap]. rewrite IH. rewrite initial_batch_nil in Hc.
    cbn in Hc. by injection Hc as <-. }
  assert (Hcond : loop_cond (set_checkpointer t_loop a) = false).
  { unfold loop_cond. cbn [set_checkpointer maps recieved log_files].
    rewrite Hma, Hm0, Hrec, Hf, Hf0. cbn [resumed_units]. apply orb_false_iff. split.
    - apply bool_decide_eq_false_2. intros H. by apply elem_of_replicate in H as [? _].
    - apply bool_decide_eq_false_2. lia. }
  unfold execution. rewrite Ha. cbn [mbind option_bind].
  assert (Hrun : world_run disk evs (mkWorld (set_checkpointer t_loop a) ∅)
                 = Some (mkWorld (set_checkpointer t_loop a) ∅)).
  { destruct evs; cbn [world_run master]; by rewrite Hcond. }
  rewrite Hrun. cbn [mbind option_bind master]. rewrite Hcond.
  set (s0 := set_checkpointer t_loop a) in *.
  assert (Hm1 : maps s0 = replicate (length (ck_processed_files ck)) (-1))
    by (unfold s0; cbn; congruence).
  assert (Hf1 : log_files s0 = ck_processed_files ck) by (unfold s0; cbn; congruence).
  assert (Hr1 : results s0 = []) by (unfold s0; cbn; congruence).
  assert (Ht1 : total_counts s0 = mkPyDict false (ck_counts ck))
    by (unfold s0; cbn; congruence).
  destruct (finish_total t_end s0) as [final Hfin].
  { by rewrite Hm1, Hf1, length_replicate. }
  { rewrite Hr1. by eexists. }
  exists final. split; [done |].
  apply finish_fields in Hfin
    as (total & p & q & Hmerge & Hsnap & Hout' & Htc' & Hst' & Hm' & _ & Hres' & _).
  rewrite Hr1 in Hmerge. cbn in Hmerge. injection Hmerge as Heq. subst total.
  rewrite Hm1, Hf1, snapshot_files_all_done in Hsnap. injection Hsnap as Hp Hq. subst p q.
  rewrite Htc', Hst', Hout', Hres', Hm', Hr1, Hm1, Htc, Htc0. cbn [items].
  split; [done |]. split; [done |].
  split; [unfold s0; cbn [set_checkpointer outbox size]; by rewrite Hout, Hcm, Hsz |].
  split; [done |]. apply is_complete_replicate.
Qed.

Lemma resume_from_complete_checkpoint_example :
  ∃ final,
    execution disk1 2 (Some (mkCheckpoint 4 {["INFO" := 1]} ["a.log"%string] []))
      [] dispatch_clock 21 [Reply 1 22] 23 = Some final
    ∧ total_counts final
      = mkPyDict false (ck_counts (mkCheckpoint 4 {["INFO" := 1]} ["a.log"%string] []))
    ∧ store final
      = Some (mkCheckpoint 23
                (ck_counts (mkCheckpoint 4 {["INFO" := 1]} ["a.log"%string] []))
                (ck_processed_files (mkCheckpoint 4 {["INFO" := 1]} ["a.log"%string] [])) [])
    ∧ outbox final = ((λ r, (Z.of_nat r, Dispatch [])) <$> seq 1 (2 - 1))
                     ++ ((λ r, (Z.of_nat r, Stop)) <$> seq 1 (2 - 1))
    ∧ results final = []
    ∧ is_complete (maps final) = true.
Proof.
  apply (resume_from_complete_checkpoint disk1 2
           (mkCheckpoint 4 {["INFO" := 1]} ["a.log"%string] []) [] dispatch_clock 21
           [Reply 1 22] 23); done.
Defined.

End ResumeComplete.

Section CheckpointCounts.

Implicit Types (ms ts : list Z) (s : Master) (m : Completion) (i k : nat) (x : World).

Lemma done_sum_snapshot disk level ms files p q :
  snapshot_files ms files = Some (p, q) →
  done_sum (file_level disk level) ms files
  = level_total (analyse_log_file disk <$> p) level.
Proof.
  revert files p q. induction ms as [| u ms IH]; intros [| f files] p q; cbn [snapshot_files].
  - by intros [= <- <-].
  - by intros [= <- <-].
  - done.
  - destruct (snapshot_files ms files) as [[p' q'] |] eqn:Hs; [| done].
    cbn [mbind option_bind]. cbn [done_sum]. rewrite (IH _ _ _ Hs).
    destruct (u =? -1); intros [= <- <-].
    + rewrite fmap_cons, level_total_cons. done.
    + lia.
Qed.

(** X17.  In a run started from the directory in which no worker has been
    timed out, the periodic checkpoint is consistent whenever it is written:
    its counts are, level by level, the sums of the counts of the files it
    lists as processed. *)
Theorem checkpoint_counts_match_processed (disk : gmap string (list string)) (sz : nat)
    (found : list string) (clock : nat → Z) (t_loop : Z) (evs : list Event)
    (x x' : World) (t : Z) :
  start sz None found clock t_loop = Some x →
  world_run disk evs x = Some x' →
  Forall (λ dp, dp.2 ≠ Stop) (outbox (master x')) →
  ∃ s' ck,
    periodic_checkpoint t (master x') = Some s'
    ∧ store s' = Some ck
    ∧ ∀ level, level_count (ck_counts ck) level
               = level_total (analyse_log_file disk <$> ck_processed_files ck) level.
Proof.
  intros Hstart Hrun Hquiet.
  destruct (setup sz None found) as [s |] eqn:Hs;
    [| unfold start in Hstart; by rewrite Hs in Hstart].
  pose proof (start_quiet disk sz None found clock t_loop s x Hs Hstart) as Hq.
  pose proof (quiet_run disk _ evs x x' Hq Hrun Hquiet) as Hq'.
  destruct (periodic_checkpoint_total t (master x') (quiet_len _ _ _ Hq'))
    as (cc & p & q & Hcc & Hsnap & Hper).
  eexists _, _. split; [exact Hper |]. split; [done |]. cbn [ck_counts ck_processed_files].
  intros level. rewrite (merge_all_count _ _ _ level Hcc).
  pose proof (quiet_results _ _ _ Hq' level) as Hres.
  rewrite (done_sum_snapshot disk level _ _ p q Hsnap) in Hres.
  destruct (setup_fields _ _ _ _ Hs) as (_ & _ & _ & _ & _ & _ & _ & _ & _ & _ & _ & Hm0).
  rewrite done_sum_none in Hres.
  - unfold level_count at 1. cbn. rewrite lookup_empty. cbn. lia.
  - rewrite Hm0. intros H. by apply elem_of_replicate in H as [? _].
Qed.

Lemma checkpoint_counts_match_processed_example :
  ∃ s' ck,
    periodic_checkpoint 9 (master one_file_end) = Some s'
    ∧ store s' = Some ck
    ∧ ∀ level, level_count (ck_counts ck) level
               = level_total (analyse_log_file disk1 <$> ck_processed_files ck) level.
Proof.
  apply (checkpoint_counts_match_processed disk1 2 ["a.log"%string] dispatch_clock 1
           [Reply 1 3] one_file_start one_file_end 9).
  - vm_compute; reflexivity.
  - vm_compute; reflexivity.
  - repeat constructor; done.
Defined.

End CheckpointCounts.

Section Liveness.

Implicit Types (ms ts : list Z) (s : Master) (m : Completion) (i k : nat) (x : World).

Lemma sum_list_with_agree (f g : nat → nat) (l : list nat) :
  (∀ r, r ∈ l → g r = f r) → sum_list_with g l = sum_list_with f l.
Proof.
  induction l as [| r l IH]; intros H; [done |]. cbn [sum_list_with].
  rewrite (H r) by apply list_elem_of_here. rewrite IH; [done |].
  intros r' Hr'. apply H. by apply list_elem_of_further.
Qed.

Lemma sum_list_with_update (f g : nat → nat) (l : list nat) (r0 a b : nat) :
  NoDup l → r0 ∈ l →
  (∀ r, r ∈ l → r ≠ r0 → g r = f r) →
  (g r0 + a = f r0 + b)%nat →
  (sum_list_with g l + a = sum_list_with f l + b)%nat.
Proof.
  intros Hnd Hin Hother Hr0. induction l as [| r l IH]; [by apply elem_of_nil in Hin |].
  apply NoDup_cons in Hnd as [Hr Hnd]. cbn [sum_list_with].
  destruct (decide (r = r0)) as [-> | Hne].
  - assert (Hsame : sum_list_with g l = sum_list_with f l).
    { apply sum_list_with_agree. intros r' Hr'. apply Hother.
      - by apply list_elem_of_further.
      - intros ->. done. }
    lia.
  - rewrite (Hother r) by (done || apply list_elem_of_here).
    apply elem_of_cons in Hin as [-> | Hin]; [done |].
    assert (IH' : (sum_list_with g l + a = sum_list_with f l + b)%nat).
    { apply IH; [done | done |]. intros r' Hr'. apply Hother. by apply list_elem_of_further. }
    lia.
Qed.

Lemma commands_to_intro rank sent c :
  (rank, Dispatch c) ∈ sent → c ∈ commands_to rank sent.
Proof.
  intros Hin. unfold commands_to. apply list_elem_of_omap. exists (rank, Dispatch c).
  split; [done |]. cbn. by rewrite decide_True.
Qed.

Lemma count_done_short ms :
  (count_done ms < length ms)%nat → ∃ i u, ms !! i = Some u ∧ u ≠ -1.
Proof.
  unfold count_done. induction ms as [| u ms IH]; cbn [length]; [lia |].
  rewrite filter_cons. destruct (decide (u = -1)) as [-> | Hu].
  - cbn [length]. intros H. destruct IH as (i & u & Hi & Hu); [lia |].
    by exists (S i), u.
  - intros _. by exists 0%nat, u.
Qed.

Lemma drop_head {A} (l : list A) t c rest :
  drop t l = c :: rest → l !! t = Some c ∧ drop (S t) l = rest ∧ (t < length l)%nat.
Proof.
  intros H. assert (Hc : l !! t = Some c).
  { rewrite <- (Nat.add_0_r t), <- lookup_drop, H. done. }
  split; [done |]. split; [| by eapply lookup_lt_Some].
  rewrite (drop_S _ _ _ Hc) in H. by injection H.
Qed.

(** When a file or a result is missing, some worker has a command to
    answer. *)
Lemma quiet_progress disk base p x :
  quiet disk base x → sane disk p x → busy x →
  (2 ≤ size (master x))%nat →
  loop_cond (master x) = true →
  ∃ rank c rest, unanswered x rank = c :: rest.
Proof.
  intros Hq Hs Hb Hsz Hcond.
  assert (Hpend : 0 ∈ maps (master x) → ∃ rank c rest, unanswered x rank = c :: rest).
  { intros H0. assert (Hb1 : unanswered x 1 ≠ []) by (apply (Hb H0 1); lia).
    destruct (unanswered x 1) as [| c rest] eqn:Hu; [done |]. by exists 1, c, rest. }
  unfold loop_cond in Hcond. apply orb_true_iff in Hcond as [H0 | Hrec].
  { apply bool_decide_eq_true in H0. by apply Hpend. }
  apply bool_decide_eq_true in Hrec.
  rewrite (quiet_recieved _ _ _ Hq), <- (quiet_len _ _ _ Hq) in Hrec.
  apply count_done_short in Hrec as (i & u & Hi & Hu).
  pose proof (sane_units _ _ _ Hs) as Hunits. rewrite Forall_lookup in Hunits.
  specialize (Hunits i u Hi). cbn beta in Hunits.
  destruct (decide (u = 0)) as [-> | Hu0].
  { apply Hpend. by eapply list_elem_of_lookup_2. }
  destruct (quiet_held _ _ _ Hq u) as [_ Hiff]; [lia |].
  apply Hiff in Hi. unfold held in Hi. fold (unanswered x u) in Hi.
  destruct (unanswered x u) as [| c rest] eqn:Hun.
  - cbn in Hi. by apply elem_of_nil in Hi.
  - by exists u, c, rest.
Qed.

End Liveness.

Section Liveness2.

Implicit Types (ms ts : list Z) (s : Master) (m : Completion) (i k : nat) (x : World).

Lemma assign_pending batch w ms : w ≠ 0 → 0 ∈ assign batch w ms → 0 ∈ ms.
Proof.
  intros Hw Hin. apply list_elem_of_lookup in Hin as [i Hi]. rewrite assign_lookup in Hi.
  destruct (ms !! i) as [u |] eqn:Hu; [| done]. cbn in Hi.
  destruct (bool_decide (i ∈ batch)); [congruence |]. injection Hi as ->.
  by eapply list_elem_of_lookup_2.
Qed.

Lemma complete_pending index ms : 0 ∈ complete index ms → 0 ∈ ms.
Proof.
  intros Hin. apply list_elem_of_lookup in Hin as [i Hi]. rewrite complete_lookup in Hi.
  destruct (ms !! i) as [u |] eqn:Hu; [| done]. cbn in Hi.
  destruct (bool_decide (i ∈ index)); [congruence |]. injection Hi as ->.
  by eapply list_elem_of_lookup_2.
Qed.

Lemma command_weight_bound (c : list (string * nat)) :
  (2 ≤ 2 * length c + command_weight c)%nat.
Proof.
  unfold command_weight. case_decide as Hc; [lia |]. destruct c; [done | cbn [length]; lia].
Qed.

(** A worker answering its oldest command: the step succeeds, what holds
    of a run without a timeout still holds, and less work is left. *)
Lemma quiet_reply_step disk base p x rank c rest now :
  quiet disk base x → sane disk p x → busy x →
  unanswered x rank = c :: rest →
  ∃ x', world_step disk (Reply rank now) x = Some x'
    ∧ quiet disk base x' ∧ sane disk p x' ∧ busy x'
    ∧ size (master x') = size (master x)
    ∧ (work_left x' < work_left x)%nat.
Proof.
  intros Hq Hs Hb Hun. unfold unanswered in Hun.
  set (t := default 0%nat (taken x !! rank)) in *.
  set (cmds := commands_to rank (outbox (master x))) in *.
  destruct (drop_head cmds t c rest Hun) as (Hc & Hrest & Hlt).
  assert (Hnext : next_reply disk rank x = Some (reply_to disk rank c)).
  { unfold next_reply. rewrite worker_replies_quiet.
    - fold cmds t. by rewrite list_lookup_fmap, Hc.
    - eapply Forall_impl; [apply (quiet_sent _ _ _ Hq) |]. intros dp (_ & c' & Hc' & _). eauto. }
  destruct (sane_reply disk p x rank now _ Hs Hnext) as (s' & Hs' & Hsane').
  fold t in Hsane'.
  set (x' := mkWorld s' (<[rank := S t]> (taken x))) in *.
  assert (Hstep : world_step disk (Reply rank now) x = Some x').
  { cbn [world_step]. rewrite Hnext. cbn [mbind option_bind]. rewrite Hs'. done. }
  pose proof (quiet_reply disk base x rank now x' Hq Hstep) as Hq'.
  assert (Hrank : 1 ≤ rank ≤ Z.of_nat (size (master x) - 1)).
  { assert (Hin : (rank, Dispatch c) ∈ outbox (master x))
      by (apply commands_to_elem; by eapply list_elem_of_lookup_2).
    pose proof (sane_sent _ _ _ Hs) as Hsent. rewrite Forall_forall in Hsent.
    by destruct (Hsent _ Hin). }
  destruct (on_completion_spec (reply_to disk rank c) now (master x) (sane_len _ _ _ Hs))
    as (s'' & cmd & Hs'' & Hmk & Hidx & Hresults & Hrecieved & Htimers & Hmaps & Hout
        & Hfiles & Hsize & _).
  { cbn. rewrite (sane_timers _ _ _ Hs). lia. }
  rewrite Hs' in Hs''. injection Hs'' as <-.
  cbn [reply_to c_result c_index c_worker] in *.
  set (ms1 := complete c.*2 (maps (master x))) in *.
  set (new := if bool_decide (0 ∈ ms1) then [cmd] else []).
  assert (Hcmds' : ∀ r, commands_to r (outbox s')
                        = commands_to r (outbox (master x))
                          ++ (if decide (rank = r) then new else [])).
  { intros r. rewrite Hout, commands_to_app. f_equal. unfold new.
    destruct (bool_decide (0 ∈ ms1)); [apply commands_to_one | by case_decide]. }
  assert (Hun_other : ∀ r, r ≠ rank → unanswered x' r = unanswered x r).
  { intros r Hr. unfold unanswered, x'. cbn [taken master].
    rewrite lookup_insert_ne by done. rewrite Hcmds', decide_False by done.
    by rewrite app_nil_r. }
  assert (Hun_rank : unanswered x' rank = rest ++ new).
  { unfold unanswered, x'. cbn [taken master]. rewrite lookup_insert_eq. cbn [default].
    rewrite Hcmds', decide_True by done. fold cmds.
    unfold id. rewrite drop_app_le by lia. by rewrite Hrest. }
  assert (Hcmd_ne : 0 ∈ ms1 → cmd ≠ []).
  { intros H0 ->. cbn in Hidx. destruct (next_files_from_first 9 ms1 0 H0) as (k & l & Hk).
    unfold next_files in Hidx. rewrite Hk in Hidx. done. }
  exists x'. split; [done |]. split; [done |]. split; [done |]. split; [| split; [done |]].
  - (* every worker still has a command while a file is pending *)
    intros H0' r Hr. unfold x' in H0', Hr. cbn [master] in H0', Hr.
    rewrite Hmaps in H0'. rewrite Hsize in Hr.
    apply assign_pending in H0'; [| lia].
    destruct (decide (r = rank)) as [-> | Hne].
    + rewrite Hun_rank. unfold new. rewrite bool_decide_eq_true_2 by done.
      intros Hnil. apply app_eq_nil in Hnil as [_ Hnil]. done.
    + rewrite (Hun_other r Hne). apply Hb; [| done]. by apply complete_pending in H0'.
  - (* the measure *)
    unfold work_left. cbn [x' master]. rewrite Hsize.
    assert (Hlen' : length (maps s') = length (maps (master x))).
    { rewrite Hmaps. unfold ms1. by rewrite assign_length, complete_length. }
    assert (Hcd : count_done (maps s') = (count_done (maps (master x)) + length c)%nat).
    { pose proof (quiet_recieved _ _ _ Hq') as H1. pose proof (quiet_recieved _ _ _ Hq) as H2.
      unfold x' in H1. cbn [master] in H1. rewrite Hrecieved, length_fmap in H1. lia. }
    pose proof (count_done_le (maps s')) as Hle. rewrite Hlen', Hcd in Hle.
    rewrite Hlen', Hcd.
    assert (Hsum :
      (sum_list_with (λ r, sum_list_with command_weight (unanswered x' (Z.of_nat r)))
         (seq 1 (size (master x) - 1)) + command_weight c
       = sum_list_with (λ r, sum_list_with command_weight (unanswered x (Z.of_nat r)))
           (seq 1 (size (master x) - 1)) + length new)%nat).
    { apply (sum_list_with_update _ _ _ (Z.to_nat rank)).
      - apply NoDup_seq.
      - apply elem_of_seq. lia.
      - intros r _ Hr. rewrite Hun_other; [done | lia].
      - replace (Z.of_nat (Z.to_nat rank)) with rank by lia.
        rewrite Hun_rank. unfold unanswered. fold t cmds. rewrite Hun.
        rewrite sum_list_with_app. cbn [sum_list_with].
        assert (Hnew : sum_list_with command_weight new = length new).
        { unfold new. destruct (bool_decide (0 ∈ ms1)) eqn:H0; [| done].
          apply bool_decide_eq_true in H0. cbn. unfold command_weight.
          rewrite decide_False by by apply Hcmd_ne. done. }
        lia. }
    assert (Hnew1 : (length new ≤ 1)%nat).
    { unfold new. destruct (bool_decide (0 ∈ ms1)); cbn; lia. }
    pose proof (command_weight_bound c). unfold x' in *. lia.
Qed.

End Liveness2.

Section Liveness3.

Implicit Types (ms ts : list Z) (s : Master) (m : Completion) (i k : nat) (x : World).

(** Replies alone bring a run without a timeout to the end of the loop. *)
Lemma quiet_drain disk base p now n x :
  (work_left x < n)%nat →
  quiet disk base x → sane disk p x → busy x → (2 ≤ size (master x))%nat →
  ∃ evs x', Forall (λ e, ∃ rank, e = Reply rank now) evs
    ∧ world_run disk evs x = Some x'
    ∧ loop_cond (master x') = false
    ∧ quiet disk base x'.
Proof.
  revert x. induction n as [| n IH]; intros x Hn Hq Hs Hb Hsz; [lia |].
  destruct (loop_cond (master x)) eqn:Hcond.
  - destruct (quiet_progress disk base p x Hq Hs Hb Hsz Hcond) as (rank & c & rest & Hun).
    destruct (quiet_reply_step disk base p x rank c rest now Hq Hs Hb Hun)
      as (x1 & Hstep & Hq1 & Hs1 & Hb1 & Hsz1 & Hless).
    destruct (IH x1) as (evs & x' & Hevs & Hrun & Hexit & Hq'); [lia | done | done | done | lia |].
    exists (Reply rank now :: evs), x'. split; [constructor; eauto |].
    split; [| done]. cbn [world_run]. rewrite Hcond, Hstep. done.
  - exists [], x. split; [constructor |]. split; [| done]. cbn [world_run]. by rewrite Hcond.
Qed.

(** X16.  With at least one worker, a run started from the directory can
    always be completed when no worker fails: there is a sequence of replies
    (no time-out, no iteration without a message needed) after which the
    loop ends, every unit is finished, and the report gives for every level
    the sum of the counts of all files, each file once. *)
Theorem failure_free_run_completes (disk : gmap string (list string)) (sz : nat)
    (found : list string) (clock : nat → Z) (t_loop now t_end : Z) :
  (2 ≤ sz)%nat → found ≠ [] →
  ∃ evs final expected,
    Forall (λ e, ∃ rank, e = Reply rank now) evs
    ∧ execution disk sz None found clock t_loop evs t_end = Some final
    ∧ is_complete (maps final) = true
    ∧ once_each disk found = Some expected
    ∧ ∀ level, level_count (items (total_counts final)) level
               = level_count (items expected) level.
Proof.
  intros Hsz Hfound.
  assert (Hs : is_Some (setup sz None found)).
  { unfold setup. cbn. rewrite bool_decide_eq_false_2 by done. by eexists. }
  destruct Hs as [s Hs].
  destruct (start_total disk sz None found clock t_loop s Hs)
    as (a & cmds & Ha & Hout & Hcmds & _ & _ & _ & _ & _ & _ & Hsize & _ & _ & Hsane).
  set (x0 := mkWorld (set_checkpointer t_loop a) ∅) in *.
  pose proof (start_quiet disk sz None found clock t_loop s x0 Hs Ha) as Hq.
  assert (Hb : busy x0).
  { intros _ rank Hr. unfold unanswered. subst x0.
    cbn [taken master set_checkpointer outbox size] in *.
    rewrite lookup_empty. cbn [default]. rewrite drop_0, Hout.
    rewrite Hsize in Hr.
    destruct (lookup_lt_is_Some_2 (seq 1 (sz - 1)) (Z.to_nat rank - 1)) as [r Hr'].
    { rewrite length_seq. lia. }
    destruct (Forall2_lookup_l _ _ _ _ _ Hcmds Hr') as (dp & Hdp & c & _ & _ & ->).
    apply lookup_seq in Hr' as [-> _].
    assert (Hin : c ∈ commands_to rank cmds).
    { apply commands_to_intro. replace rank with (Z.of_nat (1 + (Z.to_nat rank - 1))) at 1 by lia.
      by eapply list_elem_of_lookup_2. }
    intros Hnil. rewrite Hnil in Hin. by apply elem_of_nil in Hin. }
  destruct (quiet_drain disk _ 0 now (S (work_left x0)) x0 (Nat.lt_succ_diag_r _) Hq Hsane Hb)
    as (evs & x' & Hevs & Hrun & Hexit & Hq').
  { unfold x0. cbn [master set_checkpointer size]. lia. }
  assert (Hnostop : Forall (λ dp, dp.2 ≠ Stop) (outbox (master x'))).
  { eapply Forall_impl; [apply (quiet_sent _ _ _ Hq') |].
    intros dp (_ & c & Hc & _). by rewrite Hc. }
  destruct (quiet_aggregate_once disk sz found clock t_loop evs t_end x0 x' Ha Hrun Hnostop Hexit)
    as (final & expected & Hfin & Hexp & Hlevels).
  exists evs, final, expected. split; [done |].
  split; [unfold execution; rewrite Ha; cbn [mbind option_bind]; rewrite Hrun;
          cbn [mbind option_bind]; by rewrite Hexit |].
  split.
  { destruct (quiet_exit_is_complete disk sz None found clock t_loop evs x0 x' Ha Hrun Hnostop)
      as [_ Hcomplete].
    apply finish_fields in Hfin as (_ & _ & _ & _ & _ & _ & _ & _ & -> & _). by apply Hcomplete. }
  done.
Qed.

Lemma failure_free_run_completes_example :
  ∃ evs final expected,
    Forall (λ e, ∃ rank, e = Reply rank 3) evs
    ∧ execution disk1 2 None ["a.log"%string] dispatch_clock 1 evs 4 = Some final
    ∧ is_complete (maps final) = true
    ∧ once_each disk1 ["a.log"%string] = Some expected
    ∧ ∀ level, level_count (items (total_counts final)) level
               = level_count (items expected) level.
Proof.
  apply (failure_free_run_completes disk1 2 ["a.log"%string] dispatch_clock 1 3 4);
    [lia | done].
Defined.

End Liveness3.

Section WorkerLoop.

Implicit Types (ms ts : list Z) (s : Master) (m : Completion) (i k : nat) (x : World).

Lemma inbox_app rank sent1 sent2 :
  inbox rank (sent1 ++ sent2) = inbox rank sent1 ++ inbox rank sent2.
Proof. unfold inbox. by rewrite filter_app, fmap_app. Qed.

Lemma worker_replies_stop disk rank tasks rest :
  worker_replies disk rank (tasks ++ Stop :: rest) = worker_replies disk rank tasks.
Proof.
  induction tasks as [| [c |] tasks IH]; cbn [app worker_replies]; [done | | done].
  by rewrite IH.
Qed.

Lemma worker_replies_commands disk rank sent :
  Forall (λ dp, dp.1 = rank → dp.2 ≠ Stop) sent →
  worker_replies disk rank (inbox rank sent) = reply_to disk rank <$> commands_to rank sent.
Proof.
  unfold inbox, commands_to. induction 1 as [| [w pl] sent Hpl _ IH]; [done |].
  cbn [fst snd] in Hpl. cbn [omap list_omap fst snd].
  destruct (decide (w = rank)) as [-> | Hw].
  - rewrite filter_cons_True by done.
    destruct pl as [c |]; [| by destruct Hpl].
    cbn [fmap list_fmap snd worker_replies]. rewrite IH. done.
  - rewrite filter_cons_False by done.
    destruct pl as [c |]; apply IH.
Qed.

(** X18.  A worker answers each command it receives before its first stop
    signal with one message, in order, carrying its rank, the indices of the
    command and one result per index; whatever is sent to it after the stop
    signal is never answered: once the earlier commands are answered, no
    reply of that rank can be received any more. *)
Theorem stopped_worker_answers_nothing_more (disk : gmap string (list string))
    (rank : Z) (pre post : list (Z * Payload)) :
  worker_replies disk rank (inbox rank (pre ++ (rank, Stop) :: post))
  = worker_replies disk rank (inbox rank pre)
  ∧ (Forall (λ dp, dp.1 = rank → dp.2 ≠ Stop) pre →
     worker_replies disk rank (inbox rank pre)
     = reply_to disk rank <$> commands_to rank pre)
  ∧ (∀ m, m ∈ worker_replies disk rank (inbox rank pre) →
       c_worker m = rank ∧ length (c_result m) = length (c_index m))
  ∧ ∀ x now,
      outbox (master x) = pre ++ (rank, Stop) :: post →
      (length (commands_to rank pre) ≤ default 0%nat (taken x !! rank))%nat →
      world_step disk (Reply rank now) x = None.
Proof.
  assert (Hcut : worker_replies disk rank (inbox rank (pre ++ (rank, Stop) :: post))
                 = worker_replies disk rank (inbox rank pre)).
  { rewrite inbox_app. unfold inbox at 2. rewrite filter_cons_True by done.
    cbn [fmap list_fmap snd]. apply worker_replies_stop. }
  assert (Hlen : (length (worker_replies disk rank (inbox rank pre))
                  ≤ length (commands_to rank pre))%nat).
  { clear Hcut. unfold inbox, commands_to. induction pre as [| [w pl] pre IH]; [done |].
    cbn [omap list_omap fst snd].
    destruct (decide (w = rank)) as [-> | Hw].
    - rewrite filter_cons_True by done.
      destruct pl as [c |]; cbn [fmap list_fmap snd worker_replies length];
        [apply le_n_S, IH | apply Nat.le_0_l].
    - rewrite filter_cons_False by done.
      destruct pl; apply IH. }
  split; [done |]. split; [apply worker_replies_commands |]. split.
  - intros m Hm. apply worker_replies_elem in Hm as (c & _ & ->). cbn.
    by rewrite !length_fmap.
  - intros x now Hout Htaken. cbn [world_step]. unfold next_reply. rewrite Hout, Hcut.
    rewrite lookup_ge_None_2 by lia. done.
Qed.

End WorkerLoop.

Section Report.

Lemma ascii_compare_N (a b : Ascii.ascii) :
  Ascii.compare a b = (Ascii.N_of_ascii a ?= Ascii.N_of_ascii b)%N.
Proof. done. Qed.

Lemma string_compare_trans_le (a b c : string) :
  String.compare a b ≠ Gt → String.compare b c ≠ Gt → String.compare a c ≠ Gt.
Proof.
  revert b c. induction a as [| x a IH]; intros [| y b] [| z c]; cbn [String.compare];
    try done.
  rewrite !ascii_compare_N.
  destruct (N.compare_spec (Ascii.N_of_ascii x) (Ascii.N_of_ascii y)) as [Hxy | Hxy | Hxy];
    destruct (N.compare_spec (Ascii.N_of_ascii y) (Ascii.N_of_ascii z)) as [Hyz | Hyz | Hyz];
    try done; intros H1 H2.
  - rewrite Hxy, Hyz, N.compare_refl. by apply (IH b c).
  - rewrite Hxy. by apply N.compare_lt_iff in Hyz as ->.
  - rewrite <- Hyz. by apply N.compare_lt_iff in Hxy as ->.
  - assert (Hxz : (Ascii.N_of_ascii x < Ascii.N_of_ascii z)%N) by lia.
    by apply N.compare_lt_iff in Hxz as ->.
Qed.

Lemma string_le_trans : Transitive string_le.
Proof.
  intros a b c. unfold string_le, String.leb. intros H1 H2.
  pose proof (string_compare_trans_le a b c) as H.
  destruct (String.compare a b), (String.compare b c), (String.compare a c); try done;
    exfalso; by apply H.
Qed.

Lemma string_le_total : Total string_le.
Proof. intros a b. apply String.leb_total. Qed.

Lemma string_le_antisym : AntiSymm eq string_le.
Proof. intros a b. apply String.leb_antisym. Qed.

Lemma sorted_keys_elem counts k : k ∈ sorted_keys counts ↔ is_Some (counts !! k).
Proof.
  unfold sorted_keys. rewrite merge_sort_Permutation, list_elem_of_fmap. split.
  - intros ([k' v] & -> & Hin). apply elem_of_map_to_list in Hin. by exists v.
  - intros [v Hv]. exists (k, v). split; [done |]. by apply elem_of_map_to_list.
Qed.

Lemma sorted_keys_NoDup counts : NoDup (sorted_keys counts).
Proof. unfold sorted_keys. rewrite merge_sort_Permutation. apply NoDup_fst_map_to_list. Qed.

Lemma sorted_keys_sorted counts : StronglySorted string_le (sorted_keys counts).
Proof.
  apply (@StronglySorted_merge_sort _ string_le _ string_le_trans string_le_total).
Qed.

End Report.

Section Report2.

Lemma StronglySorted_filter {A} (R : relation A) (P : A → Prop) `{∀ x, Decision (P x)}
    (l : list A) :
  StronglySorted R l → StronglySorted R (filter P l).
Proof.
  induction 1 as [| a l Hl IH Hall]; [constructor |].
  rewrite filter_cons. case_decide; [| done]. constructor; [done |].
  apply Forall_forall. intros y Hy. apply list_elem_of_filter in Hy as [_ Hy].
  rewrite Forall_forall in Hall. by apply Hall.
Qed.

Lemma level_total_nonneg rs k :
  Forall (λ r : gmap string Z, ∀ k v, r !! k = Some v → 1 ≤ v) rs → 0 ≤ level_total rs k.
Proof.
  induction 1 as [| r rs Hr _ IH]; [done |]. rewrite level_total_cons.
  unfold level_count. destruct (r !! k) as [v |] eqn:Hk; cbn; [| lia].
  specialize (Hr _ _ Hk). lia.
Qed.

Lemma level_total_outside disk rs k :
  Forall (λ r, ∃ f, r = analyse_log_file disk f) rs →
  k ∉ ["INFO"; "WARN"; "ERROR"; "DEBUG"]%string → level_total rs k = 0.
Proof.
  intros Hrs Hk. induction Hrs as [| r rs (f & ->) _ IH]; [done |].
  rewrite level_total_cons, IH. unfold level_count.
  destruct (analyse_log_file disk f !! k) as [v |] eqn:Hv; [| done].
  apply analyse_log_file_lookup in Hv as [Hin _]. done.
Qed.

(** The aggregate of a list of per-file results, key by key. *)
Lemma merge_all_analyses disk rs total k :
  Forall (λ r, ∃ f, r = analyse_log_file disk f) rs →
  merge_all defaultdict_int rs = Some total →
  items total !! k
  = if decide (0 < level_total rs k) then Some (level_total rs k) else None.
Proof.
  intros Hrs Htotal.
  assert (Hpos : Forall (λ r : gmap string Z, ∀ k v, r !! k = Some v → 1 ≤ v) rs).
  { eapply Forall_impl; [exact Hrs |]. intros r (f & ->) k' v.
    apply analyse_log_file_positive. }
  pose proof (merge_all_count _ _ _ k Htotal) as Hc.
  unfold level_count at 2 in Hc. cbn in Hc. rewrite lookup_empty in Hc. cbn in Hc.
  unfold level_count in Hc.
  destruct (items total !! k) as [v |] eqn:Hv; cbn in Hc.
  - assert (1 ≤ v).
    { eapply (merge_all_positive defaultdict_int rs total); [| done | done | done].
      intros ? ?. cbn. by rewrite lookup_empty. }
    rewrite decide_True by lia. f_equal. lia.
  - rewrite decide_False by lia. done.
Qed.

(** X19.  The report of a run started from the directory, whatever happened
    during the run, has at most four lines, in the order DEBUG, ERROR, INFO,
    WARN ([sorted] on the level names): a level has a line exactly when the
    results collected hold at least one line of that level, and the line
    shows the sum of that level over the results collected.  In general the
    report has one line per key of [total_counts], ascending in the keys. *)
Theorem report_lists_levels_in_order (disk : gmap string (list string)) (sz : nat)
    (found : list string) (clock : nat → Z) (t_loop : Z) (evs : list Event) (t_end : Z)
    (final : Master) :
  execution disk sz None found clock t_loop evs t_end = Some final →
  report (total_counts final)
  = (λ level, level +:+ ": " +:+ pretty (level_total (results final) level))
      <$> filter (λ level, 0 < level_total (results final) level)
                 ["DEBUG"; "ERROR"; "INFO"; "WARN"]%string
  ∧ ∀ total : PyDict,
      length (report total) = length (map_to_list (items total))
      ∧ StronglySorted string_le (sorted_keys (items total))
      ∧ ∀ level, level ∈ sorted_keys (items total) ↔ is_Some (items total !! level).
Proof.
  intros Hexec. split.
  2:{ intros total. split; [| split; [apply sorted_keys_sorted | apply sorted_keys_elem]].
      unfold report, sorted_keys.
      by rewrite length_fmap, merge_sort_Permutation, length_fmap. }
  unfold execution in Hexec.
  destruct (start sz None found clock t_loop) as [x |] eqn:Hstart; [| done].
  cbn [mbind option_bind] in Hexec.
  destruct (world_run disk evs x) as [x' |] eqn:Hrun; [| done].
  cbn [mbind option_bind] in Hexec.
  destruct (loop_cond (master x')); [done |].
  destruct (reachable_fixed disk sz None found clock t_loop evs x x' Hstart Hrun)
    as (Hsane & _ & _ & Htc).
  apply finish_fields in Hexec
    as (total & p & q & Hmerge & _ & _ & Htotal & _ & _ & _ & Hres & _).
  rewrite Htc in Hmerge. rewrite Htotal, Hres. clear Htotal Hres final.
  set (rs := results (master x')) in *.
  assert (Hrs : Forall (λ r, ∃ f, r = analyse_log_file disk f) rs).
  { eapply Forall_impl; [apply (sane_results _ _ _ Hsane) |]. intros r (f & _ & ->). eauto. }
  pose proof (λ k, merge_all_analyses disk rs total k Hrs Hmerge) as Hlookup.
  assert (Hkeys : sorted_keys (items total)
                  = filter (λ level, 0 < level_total rs level)
                           ["DEBUG"; "ERROR"; "INFO"; "WARN"]%string).
  { apply (@StronglySorted_unique _ string_le string_le_antisym).
    - apply sorted_keys_sorted.
    - apply StronglySorted_filter. repeat constructor.
    - apply NoDup_Permutation.
      + apply sorted_keys_NoDup.
      + apply NoDup_filter. apply (bool_decide_unpack _). by vm_compute.
      + intros k. rewrite sorted_keys_elem, list_elem_of_filter, Hlookup.
        case_decide as Hpos.
        * split; [| by eexists]. intros _. split; [done |].
          destruct (decide (k ∈ ["INFO"; "WARN"; "ERROR"; "DEBUG"]%string)) as [Hin | Hout].
          -- rewrite !elem_of_cons, elem_of_nil in Hin |- *. tauto.
          -- rewrite (level_total_outside disk rs k Hrs Hout) in Hpos. lia.
        * split; [by intros [? ?] | by intros [? _]]. }
  unfold report. rewrite Hkeys. apply list_fmap_ext. intros i level Hi.
  apply list_elem_of_lookup_2, list_elem_of_filter in Hi as [Hpos _].
  rewrite Hlookup, decide_True by done. done.
Qed.

Lemma report_lists_levels_in_order_example :
  report (total_counts one_file_final)
  = (λ level, level +:+ ": " +:+ pretty (level_total (results one_file_final) level))
      <$> filter (λ level, 0 < level_total (results one_file_final) level)
                 ["DEBUG"; "ERROR"; "INFO"; "WARN"]%string
  ∧ ∀ total : PyDict,
      length (report total) = length (map_to_list (items total))
      ∧ StronglySorted string_le (sorted_keys (items total))
      ∧ ∀ level, level ∈ sorted_keys (items total) ↔ is_Some (items total !! level).
Proof.
  apply (report_lists_levels_in_order disk1 2 ["a.log"%string] dispatch_clock 1
           [Reply 1 3] 4 one_file_final).
  vm_compute; reflexivity.
Defined.

Example report_of_one_file_run : report (total_counts one_file_final) = ["INFO: 1"%string].
Proof. by vm_compute. Qed.

End Report2.

Section OneLevelPerLine.

Lemma sum_counts_scan_line_level counts line :
  sum_counts (scan_line counts line)
  = sum_counts counts + match earliest_level line with Some _ => 1 | None => 0 end.
Proof.
  rewrite scan_line_earliest_level. destruct (earliest_level line) as [level |]; [| lia].
  apply sum_counts_incr.
Qed.

Lemma sum_counts_scan_lines_level lines counts :
  sum_counts (foldl scan_line counts lines)
  = sum_counts counts + hits (λ l, bool_decide (is_Some (earliest_level l))) lines.
Proof.
  revert counts. induction lines as [| line lines IH]; intros counts.
  - cbn. unfold hits. cbn. lia.
  - cbn [foldl]. rewrite IH, sum_counts_scan_line_level, hits_cons.
    destruct (earliest_level line) as [level |].
    + rewrite bool_decide_eq_true_2 by by eexists. lia.
    + rewrite bool_decide_eq_false_2 by (by intros [? ?]). lia.
Qed.

Lemma hits_le P lines : hits P lines ≤ Z.of_nat (length lines).
Proof. unfold hits. pose proof (length_filter (λ l, P l = true) lines). lia. Qed.

(** C9.  [analyse_log_file] puts every line of the file in at most one
    category, the first of INFO, WARN (marker [WARN] or [WARNING]), ERROR,
    DEBUG with a marker in the line.  For one line: the count of that level
    grows by one and no other count changes.  For the file: the count
    returned for a level is the number of lines whose first level in that
    order it is (nothing when the file cannot be opened), the counts sum to
    the number of lines with a marker at all, hence to at most the number of
    lines. *)
Theorem analyse_log_file_one_level_per_line
    (disk : gmap string (list string)) (filepath : string)
    (counts : gmap string Z) (line : string) :
  match earliest_level line with
  | Some level =>
      scan_line counts line !! level = Some (default 0 (counts !! level) + 1)
      ∧ ∀ l, l ≠ level → scan_line counts line !! l = counts !! l
  | None => scan_line counts line = counts
  end
  ∧ sum_counts (scan_line counts line) ≤ sum_counts counts + 1
  ∧ analyse_log_file disk filepath = foldl scan_line ∅ (default [] (disk !! filepath))
  ∧ (∀ level, level_count (analyse_log_file disk filepath) level
              = hits (reaches level) (default [] (disk !! filepath)))
  ∧ sum_counts (analyse_log_file disk filepath)
    = hits (λ l, bool_decide (is_Some (earliest_level l))) (default [] (disk !! filepath))
  ∧ sum_counts (analyse_log_file disk filepath)
    ≤ Z.of_nat (length (default [] (disk !! filepath))).
Proof.
  assert (Hfold : analyse_log_file disk filepath
                  = foldl scan_line ∅ (default [] (disk !! filepath))).
  { unfold analyse_log_file. by destruct (disk !! filepath). }
  assert (Hsum : sum_counts (analyse_log_file disk filepath)
                 = hits (λ l, bool_decide (is_Some (earliest_level l)))
                     (default [] (disk !! filepath))).
  { rewrite Hfold, sum_counts_scan_lines_level, sum_counts_empty. lia. }
  split; [| split; [| split; [| split; [| split]]]].
  - rewrite scan_line_earliest_level. destruct (earliest_level line) as [level |]; [| done].
    split; [apply lookup_insert_eq | intros l Hl; by apply incr_other].
  - apply sum_counts_scan_line.
  - done.
  - intros level. apply level_count_analyse.
  - done.
  - rewrite Hsum. apply hits_le.
Qed.

(** A file of three lines: the first has markers of three levels and counts
    for INFO only, the second has none and counts for nothing. *)
Example three_lines_two_counted :
  analyse_log_file
    {["a.log" := ["[ERROR] retry after [INFO] notice [DEBUG]"; "no marker"; "[WARNING] x"]]}%string
    "a.log"
  = {["INFO" := 1; "WARN" := 1]}.
Proof. by vm_compute. Qed.

End OneLevelPerLine.

Section CheckpointRecords.

Implicit Types (ms ts : list Z) (s : Master) (m : Completion) (i k : nat).

(** C8.  The two file lists of every checkpoint record, periodic or final,
    split the work units: together they are the files of [log_files], each
    unit once; the finished units are in [processed_files] and all others,
    the held ones included, in [pending_files]; so the two lengths add up to
    the number of units, and no path is in both lists when the paths are
    distinct.  The periodic record is always written; the final one is
    written exactly when the merge before it does not raise, which is always
    so when [total_counts] is a [defaultdict] (a run started without a
    checkpoint). *)
Theorem checkpoint_partitions_units (s : Master) (t : Z) :
  length (maps s) = length (log_files s) →
  is_Some (periodic_checkpoint t s)
  ∧ (is_Some (finish t s) ↔ is_Some (merge_all (total_counts s) (results s)))
  ∧ (default_factory (total_counts s) = true → is_Some (finish t s))
  ∧ ∀ s', periodic_checkpoint t s = Some s' ∨ finish t s = Some s' →
      ∃ ck, store s' = Some ck
        ∧ ck_processed_files ck ++ ck_pending_files ck ≡ₚ log_files s
        ∧ (length (ck_processed_files ck) + length (ck_pending_files ck)
           = length (maps s))%nat
        ∧ (∀ i f, maps s !! i = Some (-1) → log_files s !! i = Some f →
             f ∈ ck_processed_files ck)
        ∧ (∀ i u f, maps s !! i = Some u → u ≠ -1 → log_files s !! i = Some f →
             f ∈ ck_pending_files ck)
        ∧ (NoDup (log_files s) →
           ∀ f, ¬ (f ∈ ck_processed_files ck ∧ f ∈ ck_pending_files ck)).
Proof.
  intros Hlen.
  destruct (periodic_checkpoint_total t s Hlen) as (cc & p0 & q0 & _ & Hsnap0 & Hper).
  split; [by rewrite Hper |].
  assert (Hfin : is_Some (finish t s) ↔ is_Some (merge_all (total_counts s) (results s))).
  { split.
    - intros [s' Hs']. apply finish_fields in Hs' as (total & _ & _ & Htotal & _).
      by exists total.
    - by apply finish_total. }
  split; [done |]. split.
  { intros Hd. apply Hfin.
    destruct (merge_all_default (total_counts s) (results s) Hd) as (total & Htotal & _).
    by exists total. }
  destruct (snapshot_files_spec _ _ Hlen) as (p & q & Hsnap & Hperm & Hsum & Hdone & Hrest).
  assert (Hck : ∀ s', periodic_checkpoint t s = Some s' ∨ finish t s = Some s' →
                  ∃ counts, store s' = Some (mkCheckpoint t counts p q)).
  { intros s' [Hs' | Hs'].
    - rewrite Hper in Hs'. injection Hs' as <-. cbn.
      exists (items cc). repeat f_equal; congruence.
    - apply finish_fields in Hs' as (total & p' & q' & _ & Hsnap' & _ & _ & Hst & _).
      exists (items total). rewrite Hst. repeat f_equal; congruence. }
  intros s' Hs'. destruct (Hck s' Hs') as (counts & Hst).
  eexists. split; [done |]. cbn. repeat split; try done.
  intros Hnd f [Hp Hq]. rewrite <- Hperm in Hnd.
  apply NoDup_app in Hnd as (_ & Hdisj & _). by apply (Hdisj f).
Qed.

Lemma checkpoint_partitions_units_example :
  run31 [Reply 2 3] = Some (mkWorld mixed_units {[2 := 1%nat]})
  ∧ is_Some (periodic_checkpoint 9 mixed_units)
  ∧ (is_Some (finish 9 mixed_units)
     ↔ is_Some (merge_all (total_counts mixed_units) (results mixed_units)))
  ∧ (default_factory (total_counts mixed_units) = true → is_Some (finish 9 mixed_units))
  ∧ ∀ s', periodic_checkpoint 9 mixed_units = Some s' ∨ finish 9 mixed_units = Some s' →
      ∃ ck, store s' = Some ck
        ∧ ck_processed_files ck ++ ck_pending_files ck ≡ₚ log_files mixed_units
        ∧ (length (ck_processed_files ck) + length (ck_pending_files ck)
           = length (maps mixed_units))%nat
        ∧ (∀ i f, maps mixed_units !! i = Some (-1) →
             log_files mixed_units !! i = Some f → f ∈ ck_processed_files ck)
        ∧ (∀ i u f, maps mixed_units !! i = Some u → u ≠ -1 →
             log_files mixed_units !! i = Some f → f ∈ ck_pending_files ck)
        ∧ (NoDup (log_files mixed_units) →
           ∀ f, ¬ (f ∈ ck_processed_files ck ∧ f ∈ ck_pending_files ck)).
Proof.
  split; [vm_compute; reflexivity |].
  apply (checkpoint_partitions_units mixed_units 9). reflexivity.
Defined.

(** The records written in that state: the ten finished files are listed as
    processed; the ten files held by rank 1, the ten held by rank 2 and the
    pending one are listed as pending, in the order of [log_files]. *)
Example mixed_units_records :
  (store <$> periodic_checkpoint 9 mixed_units)
  = Some (Some (mkCheckpoint 9 {["INFO" := 10]} (take 10 (drop 10 files31))
                  (take 10 files31 ++ drop 20 files31)))
  ∧ (store <$> finish 9 mixed_units)
    = Some (Some (mkCheckpoint 9 {["INFO" := 10]} (take 10 (drop 10 files31))
                    (take 10 files31 ++ drop 20 files31))).
Proof. split; vm_compute; reflexivity. Qed.

End CheckpointRecords.

Section ExactlyOnceRuns.

Implicit Types (ms ts : list Z) (s : Master) (m : Completion) (i k : nat) (x : World).

Lemma units_sum_app w files l1 l2 :
  units_sum w files (l1 ++ l2) = units_sum w files l1 + units_sum w files l2.
Proof.
  induction l1 as [| i l1 IH]; [done |].
  rewrite <- app_comm_cons, !units_sum_cons, IH. lia.
Qed.

Lemma units_sum_perm w files l1 l2 :
  l1 ≡ₚ l2 → units_sum w files l1 = units_sum w files l2.
Proof.
  induction 1 as [| i l1 l2 _ IH | i j l | l1 l2 l3 _ IH1 _ IH2]; [done | | | congruence].
  - by rewrite !units_sum_cons, IH.
  - rewrite !units_sum_cons. lia.
Qed.

Lemma units_sum_shift w f files l :
  units_sum w (f :: files) (S <$> l) = units_sum w files l.
Proof.
  induction l as [| i l IH]; [done |]. rewrite fmap_cons, !units_sum_cons, IH. done.
Qed.

(** Every unit once: the sum over the files. *)
Lemma units_sum_all disk level files :
  units_sum (file_level disk level) files (seq 0 (length files))
  = level_total (analyse_log_file disk <$> files) level.
Proof.
  induction files as [| f files IH]; [done |].
  cbn [length seq]. rewrite units_sum_cons, <- fmap_S_seq, units_sum_shift, IH.
  rewrite fmap_cons, level_total_cons. done.
Qed.

Lemma all_units_once (l : list nat) (n : nat) :
  NoDup l → Forall (λ i, (i < n)%nat) l → (n ≤ length l)%nat → l ≡ₚ seq 0 n.
Proof.
  intros Hnd Hlt Hlen. apply submseteq_length_Permutation.
  - apply NoDup_submseteq; [done |]. intros i Hi. rewrite Forall_forall in Hlt.
    apply elem_of_seq. specialize (Hlt i Hi). lia.
  - by rewrite length_seq.
Qed.

(** What one iteration adds to [results]: the results of the message it
    received, which count the files of the units the message lists. *)
Lemma step_results disk p e x x' :
  sane disk p x → world_step disk e x = Some x' →
  results (master x') = results (master x) ++ concat (c_result <$> received disk e x)
  ∧ length (concat (c_result <$> received disk e x))
    = length (concat (c_index <$> received disk e x))
  ∧ Forall (λ i, (i < length (log_files (master x)))%nat)
      (concat (c_index <$> received disk e x))
  ∧ ∀ level, level_total (concat (c_result <$> received disk e x)) level
             = units_sum (file_level disk level) (log_files (master x))
                 (concat (c_index <$> received disk e x)).
Proof.
  intros Hx Hstep. destruct e as [clk | rank now]; cbn [world_step received] in *.
  - destruct (on_idle_spec clk (master x) (sane_len _ _ _ Hx))
      as (s' & Hs' & _ & _ & _ & Hres & _).
    rewrite Hs' in Hstep. injection Hstep as <-. cbn. by rewrite app_nil_r.
  - destruct (next_reply disk rank x) as [m |] eqn:Hm; [| done].
    cbn [mbind option_bind] in Hstep.
    pose proof Hm as Hm'. apply next_reply_sent in Hm' as (c & Hc & ->).
    pose proof (sane_sent _ _ _ Hx) as Hsent. rewrite Forall_forall in Hsent.
    destruct (Hsent _ Hc) as [Hrank Hcmd]. cbn [fst snd] in Hrank, Hcmd.
    destruct (Hcmd c eq_refl) as (_ & _ & Hcf).
    destruct (on_completion_spec (reply_to disk rank c) now (master x) (sane_len _ _ _ Hx))
      as (s' & cmd & Hs' & _ & _ & Hres & _).
    { cbn. rewrite (sane_timers _ _ _ Hx). lia. }
    rewrite Hs' in Hstep. injection Hstep as <-. cbn [master fmap list_fmap concat].
    rewrite !app_nil_r. cbn [reply_to c_result c_index] in *.
    split; [done |]. split; [by rewrite !length_fmap |]. split.
    + apply Forall_fmap. eapply Forall_impl; [exact Hcf |]. intros [f i] [_ Hf]. cbn in *.
      by apply lookup_lt_Some in Hf.
    + intros level. apply level_total_replies.
      eapply Forall_impl; [exact Hcf |]. by intros [f i] [_ Hf].
Qed.

(** The results a run has collected are those of the reports it received. *)
Lemma run_results disk p evs x x' :
  sane disk p x → world_run disk evs x = Some x' →
  length (results (master x'))
  = (length (results (master x)) + length (reported disk evs x))%nat
  ∧ Forall (λ i, (i < length (log_files (master x)))%nat) (reported disk evs x)
  ∧ ∀ level, level_total (results (master x')) level
             = level_total (results (master x)) level
               + units_sum (file_level disk level) (log_files (master x))
                   (reported disk evs x).
Proof.
  unfold reported. revert x. induction evs as [| e evs IH]; intros x Hx Hrun;
    cbn [world_run reports] in *.
  - destruct (loop_cond (master x)); injection Hrun as <-; cbn;
      (split; [lia |]; split; [done |]; intros; lia).
  - destruct (loop_cond (master x)).
    2: { injection Hrun as <-. cbn. split; [lia |]. split; [done |]. intros; lia. }
    pose proof (sane_step disk p e x Hx) as Hsane.
    destruct (world_step disk e x) as [x1 |] eqn:Hx1; [| done].
    cbn [mbind option_bind] in Hrun.
    destruct (step_results disk p e x x1 Hx Hx1) as (Hres & Hlen & Hlt & Hsum).
    destruct (world_step_fixed disk p e x x1 Hx Hx1) as (_ & Hfiles & _).
    destruct (IH x1 Hsane Hrun) as (Hlen' & Hlt' & Hsum').
    rewrite Hfiles in Hlt', Hsum'.
    rewrite fmap_app, concat_app. split; [| split].
    + rewrite Hlen', Hres, !length_app, Hlen. lia.
    + by apply Forall_app.
    + intros level. rewrite Hsum', Hres, level_total_app, Hsum, units_sum_app. lia.
Qed.

(** The aggregate a run started without a checkpoint reports at the end. *)
Lemma fresh_aggregate disk sz found clock t_loop evs t_end x x' :
  start sz None found clock t_loop = Some x →
  world_run disk evs x = Some x' →
  ∃ final expected,
    finish t_end (master x') = Some final
    ∧ once_each disk found = Some expected
    ∧ recieved (master x') = length (reported disk evs x)
    ∧ Forall (λ i, (i < length found)%nat) (reported disk evs x)
    ∧ log_files (master x') = found
    ∧ length (maps (master x')) = length found
    ∧ (∀ level, level_count (items (total_counts final)) level
                = units_sum (file_level disk level) found (reported disk evs x))
    ∧ (∀ level, level_count (items expected) level
                = level_total (analyse_log_file disk <$> found) level).
Proof.
  intros Hstart Hrun.
  destruct (setup sz None found) as [s |] eqn:Hs;
    [| unfold start in Hstart; by rewrite Hs in Hstart].
  destruct (start_total disk sz None found clock t_loop s Hs)
    as (a & cmds & Ha & _ & _ & _ & _ & _ & Hlog & Hres & _ & _ & _ & _ & Hsane).
  rewrite Hstart in Ha. injection Ha as ->.
  destruct (setup_fields _ _ _ _ Hs) as (_ & _ & _ & _ & _ & _ & _ & _ & _ & _ & Hfound & _).
  cbn in Hfound.
  destruct (reachable_fixed disk sz None found clock t_loop evs _ x' Hstart Hrun)
    as (Hsane' & _ & Hfiles' & Htc').
  destruct (run_results disk _ evs _ x' Hsane Hrun) as (Hlen & Hlt & Hsum).
  cbn [master set_checkpointer results log_files] in Hlen, Hlt, Hsum.
  rewrite Hres in Hlen, Hsum. rewrite Hlog, Hfound in Hlt, Hsum. cbn in Hlen.
  destruct (merge_all_default defaultdict_int (results (master x')) eq_refl)
    as (total & Htotal & _).
  destruct (finish_total t_end (master x') (sane_len _ _ _ Hsane')) as [final Hfinal].
  { rewrite Htc'. by exists total. }
  destruct (merge_all_default defaultdict_int (analyse_log_file disk <$> found) eq_refl)
    as (expected & Hexp & _).
  exists final, expected. split; [done |]. split; [done |].
  split; [rewrite (sane_recieved _ _ _ Hsane'); cbn; lia |].
  split; [done |]. split; [done |].
  split; [by rewrite (sane_len _ _ _ Hsane'), Hfiles' |].
  split.
  - intros level.
    destruct (finish_fields _ _ _ Hfinal) as (total' & pf & qf & Htotal' & _ & _ & Htc & _).
    rewrite Htc' in Htotal'. assert (Heq : total' = total) by congruence. rewrite Heq in Htc.
    rewrite Htc, (merge_all_count _ _ _ level Htotal), Hsum.
    change (level_count (items defaultdict_int) level) with 0.
    change (level_total [] level) with 0. lia.
  - intros level. rewrite (merge_all_count _ _ _ level Hexp).
    change (level_count (items defaultdict_int) level) with 0. lia.
Qed.

(** C1 (as the code has it).  Handling the same completion message twice
    changes the states of the reported units once: they are finished after
    the first handling and stay so.  The results are not filtered by that:
    each handling appends all the results of the message to [results] and
    adds their number to [recieved], so after the two handlings every level
    of the aggregate has grown by twice the message's count.  In a run
    started without a checkpoint the aggregate reported after the loop
    counts the file of a unit once for every received report that lists the
    unit.  So every file counts exactly once whenever no unit is listed by
    two of the reports received, time-outs or not; in particular when no
    stop signal was sent, that is when no worker was timed out. *)
Theorem completion_counts_every_report
    (s : Master) (m : Completion) (now now' : Z) :
  length (maps s) = length (log_files s) →
  1 ≤ c_worker m ≤ Z.of_nat (length (timers s)) →
  complete (c_index m) (complete (c_index m) (maps s)) = complete (c_index m) (maps s)
  ∧ (∃ s1 s2,
      on_completion m now s = Some s1
      ∧ on_completion m now' s1 = Some s2
      ∧ (∀ i, i ∈ c_index m → (i < length (maps s))%nat →
           maps s1 !! i = Some (-1) ∧ maps s2 !! i = Some (-1))
      ∧ results s1 = results s ++ c_result m
      ∧ results s2 = results s ++ c_result m ++ c_result m
      ∧ recieved s1 = (recieved s + length (c_result m))%nat
      ∧ recieved s2 = (recieved s + 2 * length (c_result m))%nat
      ∧ ∃ before after,
          merge_all defaultdict_int (results s) = Some before
          ∧ merge_all defaultdict_int (results s2) = Some after
          ∧ ∀ level, level_count (items after) level
                     = level_count (items before) level
                       + 2 * level_total (c_result m) level)
  ∧ ∀ disk sz found clock t_loop evs t_end x x',
      start sz None found clock t_loop = Some x →
      world_run disk evs x = Some x' →
      loop_cond (master x') = false →
      ∃ final expected,
        finish t_end (master x') = Some final
        ∧ once_each disk found = Some expected
        ∧ (∀ level, level_count (items (total_counts final)) level
                    = units_sum (file_level disk level) found (reported disk evs x))
        ∧ (NoDup (reported disk evs x) →
           reported disk evs x ≡ₚ seq 0 (length found)
           ∧ ∀ level, level_count (items (total_counts final)) level
                      = level_count (items expected) level)
        ∧ (Forall (λ dp, dp.2 ≠ Stop) (outbox (master x')) →
           ∀ level, level_count (items (total_counts final)) level
                    = level_count (items expected) level).
Proof.
  intros Hlen Hw.
  destruct (completion_twice s m now now' Hlen Hw) as [Hidem Htwice].
  split; [done |]. split; [done |].
  intros disk sz found clock t_loop evs t_end x x' Hstart Hrun Hexit.
  destruct (fresh_aggregate disk sz found clock t_loop evs t_end x x' Hstart Hrun)
    as (final & expected & Hfinal & Hexp & Hrec & Hlt & Hfiles & Hmaps & Hagg & Hsum).
  exists final, expected. split; [done |]. split; [done |]. split; [done |]. split.
  - intros Hnd.
    assert (Hperm : reported disk evs x ≡ₚ seq 0 (length found)).
    { apply all_units_once; [done | done |].
      destruct (loop_exit_state (master x')) as [Hiff _]; [by rewrite Hmaps, Hfiles |].
      apply Hiff in Hexit as [_ Hge]. rewrite Hfiles, Hrec in Hge. done. }
    split; [done |]. intros level.
    rewrite Hagg, Hsum, (units_sum_perm _ _ _ _ Hperm). apply units_sum_all.
  - intros Hquiet level.
    destruct (quiet_aggregate_once disk sz found clock t_loop evs t_end x x'
                Hstart Hrun Hquiet Hexit) as (final' & expected' & Hf' & He' & Heq).
    assert (final' = final) by congruence. assert (expected' = expected) by congruence.
    subst. apply Heq.
Qed.

Lemma completion_counts_every_report_example :
  complete (c_index one_file_reply) (complete (c_index one_file_reply) (maps one_file_held))
  = complete (c_index one_file_reply) (maps one_file_held)
  ∧ (∃ s1 s2,
      on_completion one_file_reply 3 one_file_held = Some s1
      ∧ on_completion one_file_reply 4 s1 = Some s2
      ∧ (∀ i, i ∈ c_index one_file_reply → (i < length (maps one_file_held))%nat →
           maps s1 !! i = Some (-1) ∧ maps s2 !! i = Some (-1))
      ∧ results s1 = results one_file_held ++ c_result one_file_reply
      ∧ results s2
        = results one_file_held ++ c_result one_file_reply ++ c_result one_file_reply
      ∧ recieved s1 = (recieved one_file_held + length (c_result one_file_reply))%nat
      ∧ recieved s2 = (recieved one_file_held + 2 * length (c_result one_file_reply))%nat
      ∧ ∃ before after,
          merge_all defaultdict_int (results one_file_held) = Some before
          ∧ merge_all defaultdict_int (results s2) = Some after
          ∧ ∀ level, level_count (items after) level
                     = level_count (items before) level
                       + 2 * level_total (c_result one_file_reply) level)
  ∧ ∀ disk sz found clock t_loop evs t_end x x',
      start sz None found clock t_loop = Some x →
      world_run disk evs x = Some x' →
      loop_cond (master x') = false →
      ∃ final expected,
        finish t_end (master x') = Some final
        ∧ once_each disk found = Some expected
        ∧ (∀ level, level_count (items (total_counts final)) level
                    = units_sum (file_level disk level) found (reported disk evs x))
        ∧ (NoDup (reported disk evs x) →
           reported disk evs x ≡ₚ seq 0 (length found)
           ∧ ∀ level, level_count (items (total_counts final)) level
                      = level_count (items expected) level)
        ∧ (Forall (λ dp, dp.2 ≠ Stop) (outbox (master x')) →
           ∀ level, level_count (items (total_counts final)) level
                    = level_count (items expected) level).
Proof.
  apply (completion_counts_every_report one_file_held one_file_reply 3 4);
    [reflexivity | simpl; lia].
Defined.

(** A run with a time-out in which every file counts once.  In
    [silent_rank] rank 1 is timed out at time 7 (it is sent the stop signal)
    and never reports; rank 2 reports every file.  No unit is listed twice,
    and the run reports 31 INFO lines for the 31 files. *)
Example timed_out_rank_stays_silent :
  clock_ok 1 silent_rank = true
  ∧ (reported disk31 silent_rank <$> start 3 None files31 dispatch_clock 1)
    = Some (seq 10 10 ++ seq 20 10 ++ seq 0 10 ++ [30%nat])
  ∧ NoDup (seq 10 10 ++ seq 20 10 ++ seq 0 10 ++ [30%nat])
  ∧ ∃ final,
      execution disk31 3 None files31 dispatch_clock 1 silent_rank 12 = Some final
      ∧ (1, Stop) ∈ outbox final
      ∧ length (results final) = 31%nat
      ∧ items (total_counts final) = {["INFO" := 31]}.
Proof.
  split; [reflexivity |]. split; [vm_compute; reflexivity |].
  split; [apply (bool_decide_unpack _); by vm_compute |].
  eexists. split; [vm_compute; reflexivity |].
  split; [apply (bool_decide_unpack _); by vm_compute |].
  split; by vm_compute.
Qed.

(** In [takeover] files 0-9 are listed by two reports. *)
Example takeover_lists_units_twice :
  (reported disk31 takeover <$> start 3 None files31 dispatch_clock 1)
  = Some (seq 10 10 ++ seq 20 10 ++ seq 0 10 ++ seq 0 10).
Proof. vm_compute; reflexivity. Qed.

End ExactlyOnceRuns.

Section Stalled.

Implicit Types (ms ts : list Z) (s : Master) (m : Completion) (i k : nat) (x : World).

Lemma worker_replies_stops disk rank tasks stops :
  Forall (λ pl, pl = Stop) stops →
  worker_replies disk rank (tasks ++ stops) = worker_replies disk rank tasks.
Proof.
  intros Hstops. destruct Hstops as [| pl stops -> _].
  - by rewrite app_nil_r.
  - apply worker_replies_stop.
Qed.

Lemma silent_all disk p x :
  sane disk p x → silent disk x = true → ∀ rank, next_reply disk rank x = None.
Proof.
  intros Hs Hsil rank. destruct (next_reply disk rank x) as [m |] eqn:Hm; [| done].
  exfalso. pose proof Hm as Hm'. apply next_reply_sent in Hm' as (c & Hc & _).
  pose proof (sane_sent _ _ _ Hs) as Hsent. rewrite Forall_forall in Hsent.
  destruct (Hsent _ Hc) as [Hrank _]. cbn [fst] in Hrank.
  unfold silent in Hsil. rewrite forallb_forall in Hsil.
  specialize (Hsil (Z.to_nat rank)).
  replace (Z.of_nat (Z.to_nat rank)) with rank in Hsil by lia. rewrite Hm in Hsil.
  assert (false = true); [| done]. apply Hsil. apply in_seq. lia.
Qed.

Lemma all_silent disk x : (∀ rank, next_reply disk rank x = None) → silent disk x = true.
Proof. intros H. unfold silent. apply forallb_forall. intros r _. by rewrite H. Qed.

(** An iteration without a message gives no worker anything to answer. *)
Lemma tick_keeps_silent disk p x clk x' :
  sane disk p x →
  (∀ rank, next_reply disk rank x = None) →
  world_step disk (Tick clk) x = Some x' →
  (∀ rank, next_reply disk rank x' = None)
  ∧ (0 ∈ maps (master x) → 0 ∈ maps (master x'))
  ∧ results (master x') = results (master x)
  ∧ recieved (master x') = recieved (master x).
Proof.
  intros Hs Hsil Hstep. cbn [world_step] in Hstep.
  destruct (on_idle_spec clk (master x) (sane_len _ _ _ Hs))
    as (s' & Hs' & Hmaps & _ & Hout & Hres & Hrec & _).
  rewrite Hs' in Hstep. injection Hstep as <-. cbn [master taken].
  split; [| split; [| done]].
  - intros rank. specialize (Hsil rank). unfold next_reply in *. cbn [master taken].
    rewrite Hout, inbox_app, worker_replies_stops; [done |].
    unfold inbox. apply Forall_fmap, Forall_forall. intros dp Hdp.
    apply list_elem_of_filter in Hdp as [_ Hdp]. by apply stop_signals_stops in Hdp.
  - intros H0. rewrite Hmaps. apply list_elem_of_fmap. exists 0. split; [| done].
    unfold declared_dead. done.
Qed.

(** X20.  Pending files are handed out only when a worker reports.  Once no
    worker has a reply left to send (each has answered what it was sent
    before its first stop signal) while a file is pending, the run is
    stalled: whatever follows, no reply can be received, the file stays
    pending, nothing is added to the results, and the loop never ends. *)
Theorem pending_files_wait_for_a_report (disk : gmap string (list string)) (sz : nat)
    (on_disk : option Checkpoint) (found : list string) (clock : nat → Z) (t_loop : Z)
    (evs : list Event) (x : World) :
  start sz on_disk found clock t_loop ≫= world_run disk evs = Some x →
  0 ∈ maps (master x) →
  silent disk x = true →
  ∀ evs' x', world_run disk evs' x = Some x' →
    loop_cond (master x') = true
    ∧ 0 ∈ maps (master x')
    ∧ silent disk x' = true
    ∧ results (master x') = results (master x)
    ∧ Forall (λ e, ∃ clk, e = Tick clk) evs'.
Proof.
  intros Hreach H0 Hsil.
  destruct (start sz on_disk found clock t_loop) as [x0 |] eqn:Hstart; [| done].
  cbn [mbind option_bind] in Hreach.
  pose proof (sane_reachable disk sz on_disk found clock t_loop evs x0 x Hstart Hreach) as Hs.
  pose proof (silent_all disk _ x Hs Hsil) as Hall. clear Hsil Hreach Hstart.
  set (p := resumed_units on_disk) in *. clearbody p.
  intros evs'. revert x Hs H0 Hall.
  induction evs' as [| e evs' IH]; intros x Hs H0 Hall x' Hrun; cbn [world_run] in Hrun.
  - assert (Hcond : loop_cond (master x) = true).
    { unfold loop_cond. apply orb_true_iff. left. by apply bool_decide_eq_true. }
    rewrite Hcond in Hrun. injection Hrun as <-.
    split; [done |]. split; [done |]. split; [by apply all_silent |]. split; [done |].
    constructor.
  - assert (Hcond : loop_cond (master x) = true).
    { unfold loop_cond. apply orb_true_iff. left. by apply bool_decide_eq_true. }
    rewrite Hcond in Hrun. destruct e as [clk | rank now].
    + destruct (world_step disk (Tick clk) x) as [x1 |] eqn:Hx1; [| done].
      cbn [mbind option_bind] in Hrun.
      pose proof (sane_step disk p (Tick clk) x Hs) as Hs1. rewrite Hx1 in Hs1.
      destruct (tick_keeps_silent disk p x clk x1 Hs Hall Hx1) as (Hall1 & H01 & Hres1 & _).
      destruct (IH x1 Hs1 (H01 H0) Hall1 x' Hrun) as (H1 & H2 & H3 & H4 & H5).
      split; [done |]. split; [done |]. split; [done |]. split; [congruence |].
      constructor; [by eexists | done].
    + cbn [world_step] in Hrun. by rewrite Hall in Hrun.
Qed.

Lemma pending_files_wait_for_a_report_example :
  start 2 None files11 dispatch_clock 1
    ≫= world_run disk31 [tick_at 7; Reply 1 8; tick_at 14] = Some stalled
  ∧ ∀ evs' x', world_run disk31 evs' stalled = Some x' →
      loop_cond (master x') = true
      ∧ 0 ∈ maps (master x')
      ∧ silent disk31 x' = true
      ∧ results (master x') = results (master stalled)
      ∧ Forall (λ e, ∃ clk, e = Tick clk) evs'.
Proof.
  split; [vm_compute; reflexivity |].
  apply (pending_files_wait_for_a_report disk31 2 None files11 dispatch_clock 1
           [tick_at 7; Reply 1 8; tick_at 14] stalled).
  - vm_compute; reflexivity.
  - apply (bool_decide_unpack _). by vm_compute.
  - vm_compute; reflexivity.
Defined.

End Stalled.

Section Stage1.

Lemma concat_chunks {A} (l : list A) (c m : nat) :
  concat ((λ i, take c (drop i l)) <$> ((λ k, (k * c)%nat) <$> seq 0 m)) = take (m * c) l.
Proof.
  induction m as [| m IH]; [done |].
  rewrite seq_S, !fmap_app, concat_app, IH. cbn [fmap list_fmap concat]. rewrite app_nil_r.
  rewrite Nat.add_0_l. rewrite take_take_drop. f_equal. lia.
Qed.

Lemma ceil_bounds (n c : nat) :
  (1 ≤ c)%nat →
  (n ≤ (n + c - 1) / c * c)%nat ∧ (1 ≤ n → ((n + c - 1) / c - 1) * c < n)%nat.
Proof.
  intros Hc. pose proof (Nat.div_mod_eq (n + c - 1) c) as Hdm.
  pose proof (Nat.mod_upper_bound (n + c - 1) c) as Hm.
  split; [nia |]. intros Hn. nia.
Qed.

Lemma chunked_spec (sz : nat) (files : list string) :
  (1 ≤ sz)%nat →
  (chunked sz files = None ↔ (length files < sz)%nat)
  ∧ ∀ chunks, chunked sz files = Some chunks →
      concat chunks = files
      ∧ Forall (λ c, (1 ≤ length c ≤ length files / sz)%nat) chunks
      ∧ (length chunks = sz ↔ (length files mod sz = 0)%nat).
Proof.
  intros Hsz. unfold chunked, py_range. set (n := length files). set (c := (n / sz)%nat).
  destruct (c =? 0)%nat eqn:Hc0.
  - apply Nat.eqb_eq in Hc0. split; [| done].
    split; [| done]. intros _. unfold c in Hc0. apply Nat.div_small_iff in Hc0; lia.
  - apply Nat.eqb_neq in Hc0.
    assert (Hn : (sz ≤ n)%nat).
    { destruct (decide (sz ≤ n)%nat) as [| Hlt]; [done |].
      exfalso. apply Hc0. unfold c. apply Nat.div_small. lia. }
    split; [split; [done | lia] |].
    intros chunks [= <-].
    destruct (ceil_bounds n c) as [Hup Hlow]; [lia |].
    set (m := ((n + c - 1) / c)%nat) in *.
    split; [| split].
    + rewrite concat_chunks. apply take_ge. fold n. lia.
    + apply Forall_fmap, Forall_fmap, Forall_forall. intros k Hk. apply elem_of_seq in Hk.
      cbn. rewrite length_take, length_drop. fold n.
      assert ((k * c ≤ (m - 1) * c)%nat) by (apply Nat.mul_le_mono_r; lia). lia.
    + rewrite !length_fmap, length_seq.
      pose proof (Nat.div_mod_eq n sz) as Hdm. fold c in Hdm.
      pose proof (Nat.mod_upper_bound n sz) as Hmod.
      split.
      * intros Hm. rewrite Hm in Hup. nia.
      * intros Hr. rewrite Hr, Nat.add_0_r in Hdm.
        assert (Hlow' : ((m - 1) * c < n)%nat) by (apply Hlow; lia).
        assert (m ≤ sz)%nat by nia. assert (sz ≤ m)%nat by nia. lia.
Qed.


(** X21.  The chunks of stage 1, for the non-empty list of files with which
    the chunking is reached.  With fewer files than processes the chunk
    size is 0 and [range] raises [ValueError].  Otherwise the chunks are
    consecutive slices that put end to end give [log_files] back, none is
    empty and none longer than [len(log_files) // size]; and their number
    is [size], so that every process gets one, exactly when [size] divides
    the number of files. *)
Theorem chunked_covers_files (sz : nat) (files : list string) :
  (1 ≤ sz)%nat → files ≠ [] →
  (chunked sz files = None ↔ (length files < sz)%nat)
  ∧ ∀ chunks, chunked sz files = Some chunks →
      concat chunks = files
      ∧ Forall (λ c, (1 ≤ length c ≤ length files / sz)%nat) chunks
      ∧ (length chunks = sz ↔ (length files mod sz = 0)%nat).
Proof. intros Hsz _. by apply chunked_spec. Qed.

Lemma chunked_covers_files_example :
  (chunked 2 ["a"; "b"; "c"; "d"; "e"]%string = None
   ↔ (length ["a"; "b"; "c"; "d"; "e"]%string < 2)%nat)
  ∧ ∀ chunks, chunked 2 ["a"; "b"; "c"; "d"; "e"]%string = Some chunks →
      concat chunks = ["a"; "b"; "c"; "d"; "e"]%string
      ∧ Forall (λ c, (1 ≤ length c ≤ length ["a"; "b"; "c"; "d"; "e"]%string / 2)%nat) chunks
      ∧ (length chunks = 2%nat ↔ (length ["a"; "b"; "c"; "d"; "e"]%string mod 2 = 0)%nat).
Proof. apply (chunked_covers_files 2 ["a"; "b"; "c"; "d"; "e"]%string); [lia | done]. Defined.

Example five_files_two_processes :
  chunked 2 ["a"; "b"; "c"; "d"; "e"]%string = Some [["a"; "b"]; ["c"; "d"]; ["e"]]%string.
Proof. reflexivity. Qed.

Lemma mapM_once_each disk (chunks : list (list string)) :
  ∃ locals, mapM (once_each disk) chunks = Some locals
            ∧ Forall2 (λ c l, once_each disk c = Some l) chunks locals.
Proof.
  assert (H : is_Some (mapM (once_each disk) chunks)).
  { apply mapM_is_Some, Forall_forall. intros c _.
    destruct (merge_all_default defaultdict_int (analyse_log_file disk <$> c) eq_refl)
      as (t & Ht & _). by exists t. }
  destruct H as [locals H]. exists locals. split; [done |]. by apply mapM_Some in H.
Qed.

Lemma analyses_positive disk (fs : list string) :
  Forall (λ r : gmap string Z, ∀ k v, r !! k = Some v → 1 ≤ v) (analyse_log_file disk <$> fs).
Proof. apply Forall_fmap, Forall_forall. intros f _ k v. apply analyse_log_file_positive. Qed.

Lemma once_each_positive disk fs t k v :
  once_each disk fs = Some t → items t !! k = Some v → 1 ≤ v.
Proof.
  intros Ht. eapply merge_all_positive; [| apply analyses_positive | exact Ht].
  intros ? ?. cbn. by rewrite lookup_empty.
Qed.

Lemma once_each_count disk fs t k :
  once_each disk fs = Some t → level_count (items t) k = level_total (analyse_log_file disk <$> fs) k.
Proof.
  intros Ht. rewrite (merge_all_count _ _ _ k Ht). unfold level_count. cbn.
  by rewrite lookup_empty.
Qed.

Lemma locals_total disk chunks locals k :
  Forall2 (λ c l, once_each disk c = Some l) chunks locals →
  level_total (items <$> locals) k = level_total (analyse_log_file disk <$> concat chunks) k.
Proof.
  induction 1 as [| c l chunks locals Hl _ IH]; [done |].
  cbn [concat]. rewrite fmap_app, level_total_app, fmap_cons, level_total_cons, IH.
  by rewrite (once_each_count _ _ _ k Hl).
Qed.

Lemma gathered_concat disk chunks :
  ∃ total, gathered disk chunks = Some total ∧ once_each disk (concat chunks) = Some total.
Proof.
  destruct (mapM_once_each disk chunks) as (locals & Hm & Hl).
  unfold gathered. rewrite Hm. cbn [mbind option_bind].
  destruct (merge_all_default defaultdict_int (items <$> locals) eq_refl) as (t & Ht & Hdt).
  destruct (merge_all_default defaultdict_int (analyse_log_file disk <$> concat chunks) eq_refl)
    as (s & Hs & Hds).
  exists t. split; [done |]. unfold once_each. rewrite Hs. f_equal.
  destruct t as [dt it], s as [ds its]. cbn in Hdt, Hds. subst dt ds. f_equal.
  apply positive_map_eq.
  - intros k v. apply (once_each_positive disk (concat chunks) _ k v Hs).
  - intros k v. apply (merge_all_positive defaultdict_int (items <$> locals) (mkPyDict true it));
      [| | done].
    { intros ? ?. cbn. by rewrite lookup_empty. }
    apply Forall_fmap, Forall_forall. intros l Hin k' v'.
    apply list_elem_of_lookup in Hin as [i Hi].
    destruct (Forall2_lookup_r _ _ _ _ _ Hl Hi) as (c & _ & Hc).
    apply (once_each_positive _ _ _ _ _ Hc).
  - intros k. pose proof (once_each_count disk _ _ k Hs) as H1.
    pose proof (merge_all_count _ _ _ k Ht) as H2. cbn [items] in H1, H2.
    rewrite H1, H2, (locals_total _ _ _ _ Hl). unfold level_count, defaultdict_int. cbn [items].
    rewrite lookup_empty. cbn. lia.
Qed.

(** X22.  Stage 1 agrees with the sequential analyser whenever it can hand
    every process a chunk: if the number of files is a positive multiple of
    [size], the chunking yields exactly [size] chunks of
    [len(log_files) // size] files each, and merging the per-process totals
    gives the very dictionary the sequential loop over all files builds. *)
Theorem stage1_equals_sequential (disk : gmap string (list string)) (sz : nat)
    (files : list string) :
  (1 ≤ sz)%nat → files ≠ [] → (length files mod sz = 0)%nat →
  ∃ chunks total,
    chunked sz files = Some chunks
    ∧ length chunks = sz
    ∧ Forall (λ c, length c = (length files / sz)%nat) chunks
    ∧ gathered disk chunks = Some total
    ∧ once_each disk files = Some total.
Proof.
  intros Hsz Hne Hmod. destruct (chunked_spec sz files Hsz) as [Hnone Hsome].
  destruct (chunked sz files) as [chunks |] eqn:Hch.
  - destruct (Hsome chunks eq_refl) as (Hcat & Hlen & Hnum).
    destruct (gathered_concat disk chunks) as (total & Hg & Ho). rewrite Hcat in Ho.
    exists chunks, total. split; [done |].
    assert (Hn : length chunks = sz) by by apply Hnum.
    split; [done |]. split; [| done].
    (* the chunk lengths add up to the number of files *)
    assert (Hsum : length files = sum_list (length <$> chunks)).
    { rewrite <- Hcat at 1. clear. induction chunks as [| c cs IH]; [done |].
      cbn. rewrite length_app, IH. done. }
    pose proof (Nat.div_mod_eq (length files) sz) as Hdm. rewrite Hmod, Nat.add_0_r in Hdm.
    set (q := (length files / sz)%nat) in *.
    assert (Hfull : ∀ cs : list (list string),
      Forall (λ c, (1 ≤ length c ≤ q)%nat) cs →
      sum_list (length <$> cs) = (length cs * q)%nat → Forall (λ c, length c = q) cs).
    { clear. induction 1 as [| c cs Hc Hcs IH]; [done |]. cbn. intros Hs.
      assert (Hle : (sum_list (length <$> cs) ≤ length cs * q)%nat).
      { clear -Hcs. induction Hcs as [| c cs Hc _ IH]; cbn; lia. }
      assert (length c = q) by lia. constructor; [done |]. apply IH. lia. }
    apply Hfull; [done |]. rewrite <- Hsum, Hn. lia.
  - exfalso. assert (length files < sz)%nat by by apply Hnone.
    assert (length files ≠ 0)%nat by (by destruct files).
    rewrite Nat.mod_small in Hmod; lia.
Qed.

Lemma stage1_equals_sequential_example :
  ∃ chunks total,
    chunked 2 ["a"; "b"; "c"; "d"]%string = Some chunks
    ∧ length chunks = 2%nat
    ∧ Forall (λ c, length c = (length ["a"; "b"; "c"; "d"]%string / 2)%nat) chunks
    ∧ gathered {["a" := ["[INFO] x"]; "c" := ["[WARN] y"; "[INFO] z"]]}%string chunks
      = Some total
    ∧ once_each {["a" := ["[INFO] x"]; "c" := ["[WARN] y"; "[INFO] z"]]}%string
        ["a"; "b"; "c"; "d"]%string = Some total.
Proof.
  apply (stage1_equals_sequential
           {["a" := ["[INFO] x"]; "c" := ["[WARN] y"; "[INFO] z"]]}%string 2
           ["a"; "b"; "c"; "d"]%string); [lia | done | reflexivity].
Defined.

End Stage1.

Section Generator.

Lemma prefix_head_ne a m b s : a ≠ b → String.prefix (String a m) (String b s) = false.
Proof. intros Hne. cbn. by destruct (Ascii.ascii_dec a b). Qed.

Lemma prefix_head_eq a m s : String.prefix (String a m) (String a s) = String.prefix m s.
Proof. cbn. by destruct (Ascii.ascii_dec a a). Qed.

Lemma iso_char_not c (d : ascii) : iso_char c = true → iso_char d = false → d ≠ c.
Proof. intros Hc Hd ->. congruence. Qed.

(** A marker [[X...] with [X] a letter that no time stamp has does not occur
    before the bracket that closes the time stamp. *)
Lemma contains_after_timestamp (c2 : ascii) (m ts rest : string) :
  iso_char c2 = false → c2 ≠ "]"%char → isoformat_like ts = true →
  contains (String "[" (String c2 m)) ("[" +:+ ts +:+ String "]" rest)
  = contains (String "[" (String c2 m)) (String "]" rest).
Proof.
  intros Hc2 Hc2' Hts.
  change ("[" +:+ ts +:+ String "]" rest)%string with (String "[" (ts +:+ String "]" rest)).
  cbn [contains]. rewrite prefix_head_eq.
  assert (Hp : String.prefix (String c2 m) (ts +:+ String "]" rest) = false).
  { destruct ts as [| t ts].
    - by apply prefix_head_ne.
    - cbn in Hts. apply andb_true_iff in Hts as [Ht _]. apply prefix_head_ne.
      by apply (iso_char_not t). }
  rewrite Hp, orb_false_l. clear Hp.
  induction ts as [| t ts IH]; [done |].
  cbn in Hts. apply andb_true_iff in Hts as [Ht Hts].
  change (String t ts +:+ String "]" rest)%string with (String t (ts +:+ String "]" rest)).
  cbn [contains]. rewrite prefix_head_ne, orb_false_l; [by apply IH |].
  apply (iso_char_not t); [done | by vm_compute].
Qed.

Lemma messages_of_cases level messages :
  messages_of level = Some messages →
  (level, messages) ∈ MESSAGES.
Proof.
  unfold messages_of. destruct (head _) as [[l ms] |] eqn:Hh; [| done].
  intros [= <-]. apply head_Some_elem_of in Hh. apply list_elem_of_filter in Hh as [Hl Hin].
  cbn in Hl. by subst.
Qed.

(** The branch of the scan that an entry of level [level] reaches. *)
Lemma entry_reaches ts choice level line k :
  isoformat_like ts = true → generate_log_entry ts choice level = Some line →
  reaches k line = bool_decide (k = level).
Proof.
  intros Hts. unfold generate_log_entry.
  destruct (messages_of level) as [messages |] eqn:Hm; [| done].
  destruct (messages !! choice) as [message |] eqn:Hc; [| done]. intros [= <-].
  apply messages_of_cases in Hm. apply list_elem_of_lookup_2 in Hc.
  rewrite reaches_cases.
  change ("[" +:+ ts +:+ "] [" +:+ level +:+ "] " +:+ message +:+ newline)%string
    with ("[" +:+ ts +:+ String "]" (" [" +:+ level +:+ "] " +:+ message +:+ newline))%string.
  rewrite !contains_after_timestamp by (done || by vm_compute).
  unfold MESSAGES in Hm.
  repeat (apply elem_of_cons in Hm as [[= -> ->] | Hm];
          [repeat (apply elem_of_cons in Hc as [-> | Hc]; [by vm_compute |]);
           by apply elem_of_nil in Hc |]).
  by apply elem_of_nil in Hm.
Qed.

Lemma hits_perm P (l1 l2 : list string) : l1 ≡ₚ l2 → hits P l1 = hits P l2.
Proof. intros H. unfold hits. by rewrite H. Qed.

(** X23.  What the generator writes, the analysers count.  An entry
    [generate_log_entry] returns for a level, whatever message is drawn and
    whatever the time stamp (any text of digits, [-], [:], [.] and [T]), is
    counted by the scan under that level and under no other.  So a file
    whose lines are generated entries, in any order, gives for every level
    exactly the number of entries generated for it. *)
Theorem generated_entries_are_counted (disk : gmap string (list string)) (f : string)
    (entries : list (string * nat * string)) (written lines : list string) :
  Forall (λ e : string * nat * string, isoformat_like e.1.1 = true) entries →
  mapM entry_line entries = Some written →
  lines ≡ₚ written →
  disk !! f = Some lines →
  (∀ line counts, line ∈ lines →
     ∃ level, level ∈ ["INFO"; "WARN"; "ERROR"; "DEBUG"]%string
              ∧ scan_line counts line = incr level counts)
  ∧ ∀ level, level_count (analyse_log_file disk f) level
             = Z.of_nat (length (filter (λ e : string * nat * string, e.2 = level) entries)).
Proof.
  intros Hts Hw Hperm Hf. apply mapM_Some in Hw.
  split.
  - intros line counts Hin. rewrite Hperm in Hin.
    apply list_elem_of_lookup in Hin as [i Hi].
    destruct (Forall2_lookup_r _ _ _ _ _ Hw Hi) as ([[ts choice] level] & He & Hgen).
    rewrite Forall_forall in Hts. apply list_elem_of_lookup_2 in He.
    specialize (Hts _ He). unfold entry_line in Hgen. cbn [fst snd] in Hts, Hgen. exists level. split.
    + revert Hgen. unfold generate_log_entry.
      destruct (messages_of level) as [messages |] eqn:Hm; [intros _ | done].
      apply messages_of_cases in Hm. unfold MESSAGES in Hm.
      rewrite !elem_of_cons in Hm. rewrite !elem_of_cons.
      destruct Hm as [[= -> _] | [[= -> _] | [[= -> _] | [[= -> _] | Hm]]]]; auto.
      by apply elem_of_nil in Hm.
    + pose proof (entry_reaches ts choice level line level Hts Hgen) as H5.
      rewrite reaches_cases, (bool_decide_eq_true_2 (level = level)) in H5 by done.
      unfold scan_line.
      destruct (contains "[INFO]" line).
      { apply bool_decide_eq_true in H5. by subst. }
      destruct (contains "[WARN]" line || contains "[WARNING]" line).
      { apply bool_decide_eq_true in H5. by subst. }
      destruct (contains "[ERROR]" line).
      { apply bool_decide_eq_true in H5. by subst. }
      destruct (contains "[DEBUG]" line).
      { apply bool_decide_eq_true in H5. by subst. }
      done.
  - intros level. rewrite level_count_analyse, Hf. cbn [default].
    rewrite (hits_perm _ _ _ Hperm). clear Hperm Hf.
    induction Hw as [| [[ts choice] lv] line entries written Hgen _ IH]; [done |].
    apply Forall_cons in Hts as [Hts1 Hts]. unfold entry_line in Hgen. cbn [fst snd] in Hts1, Hgen.
    rewrite hits_cons, (IH Hts), (entry_reaches _ _ _ _ level Hts1 Hgen).
    rewrite filter_cons. cbn [snd].
    destruct (decide (lv = level)) as [-> | Hne].
    + rewrite bool_decide_eq_true_2 by done. cbn [length]. lia.
    + rewrite bool_decide_eq_false_2 by congruence. lia.
Qed.

Lemma generated_entries_are_counted_example :
  (∀ line counts, line ∈ two_shuffled →
     ∃ level, level ∈ ["INFO"; "WARN"; "ERROR"; "DEBUG"]%string
              ∧ scan_line counts line = incr level counts)
  ∧ ∀ level, level_count (analyse_log_file node1_disk "node1.log") level
             = Z.of_nat (length (filter (λ e : string * nat * string, e.2 = level)
                                   two_entries)).
Proof.
  apply (generated_entries_are_counted node1_disk "node1.log" two_entries two_written
           two_shuffled).
  - repeat constructor.
  - reflexivity.
  - apply perm_swap.
  - reflexivity.
Defined.

End Generator.

Section Distribute.

Lemma sum_Z_cons x l : sum_Z (x :: l) = x + sum_Z l.
Proof. done. Qed.

Lemma sum_Z_replicate n c : sum_Z (replicate n c) = Z.of_nat n * c.
Proof. induction n as [| n IH]; [done |]. cbn [replicate]. rewrite sum_Z_cons, IH. lia. Qed.

Lemma sum_Z_insert (counts : list Z) i c d :
  counts !! i = Some c → sum_Z (<[i := d]> counts) = sum_Z counts - c + d.
Proof.
  revert i. induction counts as [| x counts IH]; intros i; [done |].
  destruct i as [| i].
  - intros [= ->]. change (<[0%nat := d]> (c :: counts)) with (d :: counts).
    rewrite !sum_Z_cons. lia.
  - intros Hi. change (<[S i := d]> (x :: counts)) with (x :: <[i := d]> counts).
    rewrite !sum_Z_cons, (IH _ Hi). lia.
Qed.

Lemma add_at_spec i d counts (m : Z) :
  (i < length counts)%nat →
  ∃ c counts', counts !! i = Some c ∧ add_at i d counts = Some counts'
    ∧ counts' = <[i := c + d]> counts
    ∧ length counts' = length counts ∧ sum_Z counts' = sum_Z counts + d.
Proof.
  intros Hi. destruct (lookup_lt_is_Some_2 counts i Hi) as [c Hc].
  exists c, (<[i := c + d]> counts). unfold add_at. rewrite Hc.
  split; [done |]. split; [done |]. split; [done |].
  split; [by rewrite length_insert |]. rewrite (sum_Z_insert _ _ _ _ Hc). lia.
Qed.

Lemma Forall_insert_ge (counts : list Z) i (v m : Z) :
  Forall (λ c, m ≤ c) counts → m ≤ v → Forall (λ c, m ≤ c) (<[i := v]> counts).
Proof.
  intros H Hv. destruct (decide (i < length counts)%nat).
  - by apply Forall_insert.
  - by rewrite list_insert_ge by lia.
Qed.

Lemma sample_loop (indices : list nat) (counts : list Z) (m : Z) :
  Forall (λ i, (i < length counts)%nat) indices → Forall (λ c, m ≤ c) counts →
  ∃ counts', foldl (λ acc i, match acc with
                             | None => None
                             | Some counts => add_at i 1 counts
                             end) (Some counts) indices = Some counts'
    ∧ length counts' = length counts
    ∧ sum_Z counts' = sum_Z counts + Z.of_nat (length indices)
    ∧ Forall (λ c, m ≤ c) counts'.
Proof.
  revert counts. induction indices as [| i indices IH]; intros counts Hin Hm.
  - exists counts. cbn. split; [done |]. split; [done |]. split; [lia | done].
  - apply Forall_cons in Hin as [Hi Hin]. cbn [foldl].
    destruct (add_at_spec i 1 counts m Hi) as (c & counts1 & Hc & -> & Heq & Hlen & Hsum).
    destruct (IH counts1) as (counts' & Hf & Hlen' & Hsum' & Hm').
    + by rewrite Hlen.
    + subst counts1. apply Forall_insert_ge; [done |].
      rewrite Forall_forall in Hm. specialize (Hm c (list_elem_of_lookup_2 _ _ _ Hc)). lia.
    + exists counts'. split; [done |]. split; [lia |]. split; [| done].
      rewrite Hsum', Hsum. cbn [length]. lia.
Qed.

Lemma transfer_round_spec n ij (randint : Z → Z → Z) counts (m : Z) :
  (2 ≤ n)%nat → length counts = n → (ij.1 < n)%nat → (ij.2 < n)%nat →
  (∀ lo hi, lo ≤ hi → lo ≤ randint lo hi ≤ hi) → m ≤ 1 →
  Forall (λ c, m ≤ c) counts →
  ∃ counts', transfer_round n ij randint counts = Some counts'
    ∧ length counts' = n ∧ sum_Z counts' = sum_Z counts ∧ Forall (λ c, m ≤ c) counts'.
Proof.
  intros Hn Hlen Hi Hj Hr Hm Hall. unfold transfer_round.
  destruct (Nat.ltb_spec n 2) as [| _]; [lia |].
  destruct (lookup_lt_is_Some_2 counts ij.1 ltac:(lia)) as [ci Hci]. rewrite Hci.
  destruct (Z.ltb_spec 1 ci) as [Hgt | Hle].
  - set (transfer := randint 0 (Z.min (ci - 1) 3)).
    assert (Ht : 0 ≤ transfer ≤ Z.min (ci - 1) 3) by (apply Hr; lia).
    destruct (add_at_spec ij.1 (- transfer) counts m ltac:(lia))
      as (c & counts1 & Hc & -> & Heq & Hlen1 & Hsum1).
    assert (c = ci) by congruence. subst c.
    destruct (add_at_spec ij.2 transfer counts1 m ltac:(lia))
      as (cj & counts2 & Hcj & -> & Heq2 & Hlen2 & Hsum2).
    exists counts2. split; [done |]. split; [lia |]. split; [lia |].
    assert (Hall1 : Forall (λ c, m ≤ c) counts1).
    { subst counts1. apply Forall_insert_ge; [done | lia]. }
    subst counts2. apply Forall_insert_ge; [done |].
    rewrite Forall_forall in Hall1. specialize (Hall1 cj (list_elem_of_lookup_2 _ _ _ Hcj)). lia.
  - exists counts. done.
Qed.

Lemma transfer_loop n (sample2 : nat → nat * nat) (randint : nat → Z → Z → Z)
    (rounds : list nat) counts (m : Z) :
  (2 ≤ n)%nat → length counts = n →
  (∀ t, ((sample2 t).1 < n)%nat ∧ ((sample2 t).2 < n)%nat) →
  (∀ t lo hi, lo ≤ hi → lo ≤ randint t lo hi ≤ hi) → m ≤ 1 →
  Forall (λ c, m ≤ c) counts →
  ∃ counts', foldl (λ acc t, match acc with
                             | None => None
                             | Some counts => transfer_round n (sample2 t) (randint t) counts
                             end) (Some counts) rounds = Some counts'
    ∧ length counts' = n ∧ sum_Z counts' = sum_Z counts ∧ Forall (λ c, m ≤ c) counts'.
Proof.
  intros Hn Hlen Hs Hr Hm. revert counts Hlen.
  induction rounds as [| t rounds IH]; intros counts Hlen Hall.
  - exists counts. done.
  - cbn [foldl].
    destruct (transfer_round_spec n (sample2 t) (randint t) counts m Hn Hlen
                (proj1 (Hs t)) (proj2 (Hs t)) (Hr t) Hm Hall)
      as (counts1 & -> & Hlen1 & Hsum1 & Hall1).
    destruct (IH counts1 Hlen1 Hall1) as (counts' & Hf & Hlen' & Hsum' & Hall').
    exists counts'. split; [done |]. split; [done |]. split; [lia | done].
Qed.

(** X24.  [distribute_counts] keeps the total.  For a positive [total] and
    at least two files, whatever the random draws (a sample of
    [total % num_files] positions, pairs of positions, and transfers within
    the bounds asked of [random.randint]), the function returns one count
    per file, the counts add up to [total], none is negative, and when
    there are at least as many entries as files every file gets at least
    one. *)
Theorem distribute_counts_keeps_total (indices : list nat) (sample2 : nat → nat * nat)
    (randint : nat → Z → Z → Z) (total : Z) (num_files : nat) :
  0 < total → (2 ≤ num_files)%nat →
  length indices = Z.to_nat (total mod Z.of_nat num_files) →
  Forall (λ i, (i < num_files)%nat) indices →
  (∀ t, ((sample2 t).1 < num_files)%nat ∧ ((sample2 t).2 < num_files)%nat) →
  (∀ t lo hi, lo ≤ hi → lo ≤ randint t lo hi ≤ hi) →
  ∃ counts, distribute_counts indices sample2 randint total num_files = Some counts
    ∧ length counts = num_files
    ∧ sum_Z counts = total
    ∧ Forall (λ c, 0 ≤ c) counts
    ∧ (Z.of_nat num_files ≤ total → Forall (λ c, 1 ≤ c) counts).
Proof.
  intros Htotal Hn Hlen Hin Hs Hr. unfold distribute_counts.
  destruct (Z.eqb_spec total 0) as [| _]; [lia |].
  destruct (Nat.eqb_spec num_files 0) as [| _]; [lia |].
  set (n := Z.of_nat num_files) in *. set (base := total / n).
  assert (Hbase : 0 ≤ base) by (apply Z.div_pos; lia).
  assert (Hbase1 : n ≤ total → 1 ≤ base).
  { intros Hle. unfold base. apply Z.div_le_lower_bound; lia. }
  assert (Hmod : 0 ≤ total mod n < n) by (apply Z.mod_pos_bound; lia).
  pose proof (Z.div_mod total n ltac:(lia)) as Hdm. fold base in Hdm.
  set (m := Z.min base 1).
  destruct (sample_loop indices (replicate num_files base) m) as (counts1 & -> & Hl1 & Hs1 & Ha1).
  { by rewrite length_replicate. }
  { apply Forall_replicate. lia. }
  rewrite length_replicate in Hl1. rewrite sum_Z_replicate, Hlen in Hs1. fold n in Hs1.
  destruct (transfer_loop num_files sample2 randint (seq 0 (min (num_files * 2) 5000)) counts1 m
              Hn Hl1 Hs Hr ltac:(lia) Ha1) as (counts & -> & Hl & Hsum & Hall).
  exists counts. split; [done |]. split; [done |]. split; [lia |]. split.
  - eapply Forall_impl; [exact Hall |]. cbn. lia.
  - intros Hle. specialize (Hbase1 Hle). eapply Forall_impl; [exact Hall |]. cbn. lia.
Qed.

Lemma distribute_counts_keeps_total_example :
  ∃ counts, distribute_counts [0%nat] draw_pair draw_high 7 3 = Some counts
    ∧ length counts = 3%nat
    ∧ sum_Z counts = 7
    ∧ Forall (λ c, 0 ≤ c) counts
    ∧ (Z.of_nat 3 ≤ 7 → Forall (λ c, 1 ≤ c) counts).
Proof.
  apply (distribute_counts_keeps_total [0%nat] draw_pair draw_high 7 3).
  - lia.
  - lia.
  - reflexivity.
  - repeat constructor.
  - intros t. cbn. lia.
  - intros t lo hi Hle. unfold draw_high. lia.
Defined.

Example seven_entries_three_files :
  distribute_counts [0%nat] draw_pair draw_high 7 3 = Some [1; 4; 2].
Proof. reflexivity. Qed.

Lemma fold_None {A B} (f : option A → B → option A) (l : list B) :
  (∀ b, f None b = None) → foldl f None l = None.
Proof. intros Hf. induction l as [| b l IH]; [done |]. cbn. by rewrite Hf. Qed.

(** X25.  The inputs on which [distribute_counts] gives up.  A [total] of 0
    yields a list of zeros, whatever the number of files.  Any other total
    raises [ZeroDivisionError] for no file, and for a single file the
    second loop raises [ValueError], because a pair cannot be sampled from
    one position: the generator cannot write a single log file. *)
Theorem distribute_counts_needs_two_files (indices : list nat) (sample2 : nat → nat * nat)
    (randint : nat → Z → Z → Z) (total : Z) (num_files : nat) :
  distribute_counts indices sample2 randint 0 num_files = Some (replicate num_files 0)
  ∧ (total ≠ 0 → (num_files < 2)%nat →
     distribute_counts indices sample2 randint total num_files = None).
Proof.
  split; [done |]. intros Htotal Hn. unfold distribute_counts.
  destruct (Z.eqb_spec total 0) as [| _]; [done |].
  destruct num_files as [| [| n]]; [done | | lia].
  cbn [Nat.eqb]. destruct (foldl _ _ indices) as [counts |]; [| done].
  done.
Qed.

End Distribute.

Section ParallelRuns.

Import Parallel.

Lemma next_task_perm w ts f rest :
  next_task w ts = Some (f, rest) → ts ≡ₚ (w, f) :: rest.
Proof.
  revert f rest. induction ts as [| [d g] ts IH]; intros f rest; [done |].
  cbn [next_task]. destruct (decide (d = w)) as [-> | Hd].
  - by intros [= -> ->].
  - destruct (next_task w ts) as [[g' rest'] |]; [| done]. intros [= -> <-].
    rewrite (IH _ _ eq_refl). apply perm_swap.
Qed.

Lemma next_task_head d f ts : next_task d ((d, f) :: ts) = Some (f, ts).
Proof. cbn [next_task]. by rewrite decide_True. Qed.

Lemma find_first_zero (ds : list nat) (k : nat) :
  Forall (λ d, (1 ≤ d)%nat) ds →
  list_find (λ v, v = 0%nat) (ds ++ replicate (S k) 0%nat) = Some (length ds, 0%nat).
Proof.
  intros Hds. apply list_find_app_Some. right. split; [lia |]. split.
  - apply list_find_None. eapply Forall_impl; [exact Hds |]. cbn. lia.
  - rewrite Nat.sub_diag. done.
Qed.

Lemma zero_in_maps (ds : list nat) (k : nat) :
  Forall (λ d, (1 ≤ d)%nat) ds →
  (0%nat ∈ ds ++ replicate k 0%nat) ↔ (0 < k)%nat.
Proof.
  intros Hds. rewrite elem_of_app. split.
  - intros [Hin | Hin].
    + rewrite Forall_forall in Hds. specialize (Hds _ Hin). lia.
    + destruct k; [by apply elem_of_nil in Hin | lia].
  - intros Hk. right. destruct k; [lia |]. cbn. apply list_elem_of_here.
Qed.

Lemma dests_positive (sent : list (nat * string)) sz :
  Forall (λ t : nat * string, (1 ≤ t.1 < sz)%nat) sent → Forall (λ d, (1 ≤ d)%nat) sent.*1.
Proof. intros H. apply Forall_fmap. eapply Forall_impl; [exact H |]. cbn. lia. Qed.

Lemma send_initial_None l : foldl send_initial None l = None.
Proof. by induction l. Qed.

(** The state after the first [j] of the initial sends. *)
Lemma initial_sends disk sz files j :
  (j ≤ sz - 1)%nat →
  match foldl send_initial
          (Some (mkWorld (mkMaster files (replicate (length files) 0%nat) [] 0 []) []))
          (seq 1 j) with
  | Some x => (j ≤ length files)%nat ∧ parallel_inv disk (S j) files x
              ∧ sent (master x) = zip (seq 1 j) (take j files)
              ∧ tasks x = sent (master x)
              ∧ results (master x) = [] 
  | None => (length files < j)%nat
  end.
Proof.
  induction j as [| j IH]; intros Hj.
  - cbn [seq foldl]. split; [lia |]. split; [| done].
    constructor; cbn; try done; try lia.
    by rewrite Nat.sub_0_r.
  - rewrite seq_S, foldl_app. cbn [foldl]. specialize (IH ltac:(lia)).
    destruct (foldl send_initial _ (seq 1 j)) as [x |]; [| cbn; lia].
    destruct IH as (Hjn & Hinv & Hsent & Htasks & Hres).
    destruct Hinv as [Hf Hs Hb Hm Hd Ht Hr Hp Hbusy].
    assert (Hlen : length (sent (master x)) = j).
    { rewrite Hsent, length_zip, length_seq, length_take. lia. }
    cbn [send_initial]. rewrite Hf. replace (1 + j - 1)%nat with j by lia.
    destruct (files !! j) as [f |] eqn:Hfj.
    + apply lookup_lt_Some in Hfj as Hlt.
      split; [lia |]. cbn [master sent tasks results maps log_files recieved].
      split; [| split; [| split]].
      * constructor; cbn [master sent tasks results maps log_files recieved]; try done.
        -- rewrite fmap_app, Hs, length_app, Hlen. cbn. rewrite Nat.add_1_r.
           by rewrite (take_S_r _ _ _ Hfj).
        -- rewrite length_app. cbn. lia.
        -- rewrite Hm, Hlen, fmap_app, length_app, Hlen. cbn [fmap list_fmap length fst].
           replace (length files - j)%nat with (S (length files - (j + 1))) by lia.
           cbn [replicate]. rewrite <- app_assoc. cbn [app].
           rewrite insert_app_r_alt; rewrite length_fmap, Hlen; [| lia].
           rewrite Nat.sub_diag. done.
        -- apply Forall_app. split; [| constructor; [cbn; lia | done]].
           eapply Forall_impl; [exact Hd |]. cbn. lia.
        -- apply Forall_app. split; [| constructor; [cbn; lia | done]].
           eapply Forall_impl; [exact Ht |]. cbn. lia.
        -- rewrite Hres. cbn [app]. rewrite Htasks. rewrite !fmap_app. cbn [fmap list_fmap snd].
           rewrite <- list_fmap_compose. done.
        -- intros _. rewrite length_app, Htasks, Hlen. cbn. lia.
      * rewrite Hsent, (take_S_r _ _ _ Hfj).
        rewrite zip_with_app; [done |]. rewrite length_seq, length_take. lia.
      * by rewrite Htasks.
      * done.
    + apply lookup_ge_None in Hfj. lia.
Qed.

Lemma start_inv disk sz files x0 :
  start sz files = Some x0 → parallel_inv disk (S (sz - 1)) files x0.
Proof.
  intros Hs. pose proof (initial_sends disk sz files (sz - 1) (le_n _)) as H.
  unfold start in Hs. rewrite Hs in H. tauto.
Qed.

Lemma step_inv disk sz files w x x' :
  parallel_inv disk sz files x → step disk w x = Some x' →
  parallel_inv disk sz files x'
  ∧ recieved (master x') = S (recieved (master x)).
Proof.
  intros [Hf Hs Hb Hm Hd Ht Hr Hp Hbusy]. unfold step.
  destruct (next_task w (tasks x)) as [[f rest] |] eqn:Hnt; [| done].
  apply next_task_perm in Hnt as Hperm.
  assert (Hw : (1 ≤ w < sz)%nat ∧ Forall (λ t : nat * string, (1 ≤ t.1 < sz)%nat) rest).
  { rewrite Hperm in Ht. by apply Forall_cons in Ht. }
  destruct Hw as [Hw Hrest].
  assert (Hlen : length (tasks x) = S (length rest)) by by rewrite Hperm.
  assert (Hperm' : results (master x) ++ [analyse_log_file disk f]
                   ++ ((λ t : nat * string, analyse_log_file disk t.2) <$> rest)
                   ≡ₚ analyse_log_file disk <$> (sent (master x)).*2).
  { rewrite <- Hp, Hperm. done. }
  pose proof (dests_positive _ _ Hd) as Hpos.
  unfold on_result. rewrite Hm, Hf.
  destruct (bool_decide (0%nat ∈ _)) eqn:Hz.
  - apply bool_decide_eq_true in Hz. apply zero_in_maps in Hz; [| done].
    set (k := length (sent (master x))) in *.
    replace (length files - k)%nat with (S (length files - (k + 1))) by lia.
    rewrite find_first_zero; [| done]. rewrite length_fmap. fold k.
    destruct (files !! k) as [g |] eqn:Hg; [| apply lookup_ge_None in Hg; lia].
    intros [= <-]. cbn [master sent tasks results maps log_files recieved].
    split; [| done].
    constructor; cbn [master sent tasks results maps log_files recieved]; try done.
    + rewrite fmap_app, Hs, length_app. fold k. cbn. rewrite Nat.add_1_r.
      by rewrite (take_S_r _ _ _ Hg).
    + rewrite length_app. cbn. fold k. lia.
    + rewrite fmap_app, length_app. fold k. cbn [fmap list_fmap length fst].
      cbn [replicate]. rewrite <- app_assoc. cbn [app].
      rewrite insert_app_r_alt; rewrite length_fmap; fold k; [| lia].
      rewrite Nat.sub_diag. done.
    + apply Forall_app. split; [done |]. constructor; [cbn; lia | done].
    + apply Forall_app. split; [done |]. constructor; [cbn; lia | done].
    + rewrite length_app, Hr. cbn. lia.
    + rewrite !fmap_app. cbn [fmap list_fmap snd]. rewrite <- Hperm'.
      rewrite <- !app_assoc. done.
    + intros _. rewrite length_app. cbn. rewrite <- (Hbusy ltac:(lia)). lia.
  - apply bool_decide_eq_false in Hz. rewrite zero_in_maps in Hz; [| done].
    intros [= <-]. cbn [master sent tasks results maps log_files recieved].
    split; [| done].
    constructor; cbn [master sent tasks results maps log_files recieved]; try done.
    + rewrite length_app, Hr. cbn. lia.
    + rewrite <- Hperm', <- app_assoc. done.
    + lia.
Qed.

Lemma run_inv disk sz files ws x x' :
  parallel_inv disk sz files x → run disk ws x = Some x' →
  parallel_inv disk sz files x'
  ∧ recieved (master x') = (recieved (master x) + length ws)%nat.
Proof.
  revert x. induction ws as [| w ws IH]; intros x Hinv; cbn [run].
  - intros [= <-]. split; [done | cbn; lia].
  - destruct (loop_cond (master x)); [| done].
    destruct (step disk w x) as [x1 |] eqn:Hstep; [| done].
    destruct (step_inv _ _ _ _ _ _ Hinv Hstep) as [Hinv1 Hrec]. intros Hrun.
    destruct (IH _ Hinv1 Hrun) as [Hinv' Hrec']. split; [done |]. rewrite Hrec', Hrec. cbn. lia.
Qed.

(** The loop condition in terms of the invariant. *)
Lemma loop_cond_inv disk sz files x :
  parallel_inv disk sz files x →
  (length (results (master x)) + length (tasks x) = length (sent (master x)))%nat
  ∧ (loop_cond (master x) = false
     ↔ recieved (master x) = length files)
  ∧ (recieved (master x) ≤ length files)%nat
  ∧ (loop_cond (master x) = false →
     tasks x = [] ∧ length (sent (master x)) = length files).
Proof.
  intros [Hf Hs Hb Hm Hd Ht Hr Hp Hbusy].
  pose proof (dests_positive _ _ Hd) as Hpos.
  assert (Hlen : (length (results (master x)) + length (tasks x)
                  = length (sent (master x)))%nat).
  { apply Permutation_length in Hp. by rewrite length_app, !length_fmap in Hp. }
  assert (Hcond : loop_cond (master x) = false
                  ↔ length (sent (master x)) = length files
                    ∧ recieved (master x) = length files).
  { unfold loop_cond. rewrite orb_false_iff, bool_decide_eq_false, Nat.ltb_ge, Hm, Hf.
    rewrite zero_in_maps; [| done]. lia. }
  split; [done |]. split; [| split].
  - rewrite Hcond. split; [tauto |]. intros Hrec. split; [lia | done].
  - lia.
  - intros Hc. apply Hcond in Hc as [Hk Hrec]. split; [| done].
    apply length_zero_iff_nil. lia.
Qed.

(** X26.  The command loop of the first stage-2 analyser receives exactly
    one answer per file.  In a run started on [files], after any number of
    answers: [recieved] is the number of answers handled, it never exceeds
    the number of files, and the loop ends exactly when it reaches it; the
    files have been handed out in directory order, one per command, without
    repetition.  When the loop has ended every file has been sent once, no
    task is left unanswered, the collected results are the analyses of the
    files in some order, and the totals are those of the sequential
    analyser. *)
Theorem parallel_run_counts_every_file_once (disk : gmap string (list string)) (sz : nat)
    (files : list string) (ws : list nat) (x0 x : World) :
  start sz files = Some x0 → run disk ws x0 = Some x →
  recieved (master x) = length ws
  ∧ (length ws ≤ length files)%nat
  ∧ (loop_cond (master x) = false ↔ length ws = length files)
  ∧ (sent (master x)).*2 = take (length (sent (master x))) files
  ∧ (loop_cond (master x) = false →
     (sent (master x)).*2 = files
     ∧ tasks x = []
     ∧ results (master x) ≡ₚ analyse_log_file disk <$> files
     ∧ ∃ total, total_counts x = Some total ∧ once_each disk files = Some total).
Proof.
  intros Hstart Hrun.
  pose proof (start_inv disk _ _ _ Hstart) as Hinv0.
  pose proof (initial_sends disk sz files (sz - 1) (le_n _)) as H0.
  unfold start in Hstart. rewrite Hstart in H0. destruct H0 as (_ & _ & _ & _ & Hres0).
  destruct (run_inv _ _ _ _ _ _ Hinv0 Hrun) as [Hinv Hrec].
  rewrite (pinv_recieved _ _ _ _ Hinv0), Hres0 in Hrec. cbn in Hrec.
  destruct (loop_cond_inv _ _ _ _ Hinv) as (Hlen & Hcond & Hle & Hend).
  split; [done |]. split; [lia |]. split; [by rewrite Hcond, Hrec |].
  split; [apply (pinv_sent _ _ _ _ Hinv) |].
  intros Hc. destruct (Hend Hc) as [Htasks Hk].
  pose proof (pinv_sent _ _ _ _ Hinv) as Hs. rewrite Hk, firstn_all in Hs.
  pose proof (pinv_results _ _ _ _ Hinv) as Hp. rewrite Htasks, Hs in Hp.
  cbn [fmap list_fmap] in Hp. rewrite app_nil_r in Hp.
  split; [done |]. split; [done |]. split; [done |].
  unfold total_counts, once_each. rewrite (merge_all_perm _ _ _ Hp).
  destruct (merge_all_default defaultdict_int (analyse_log_file disk <$> files) eq_refl)
    as (t & Ht & _). by exists t.
Qed.

Lemma parallel_run_counts_every_file_once_example :
  start 3 ["a.log"; "b.log"; "c.log"]%string = Some three_files_start
  ∧ run disk3 [2; 1; 2]%nat three_files_start = Some three_files_end
  ∧ recieved (master three_files_end) = length [2; 1; 2]%nat
  ∧ (length [2; 1; 2]%nat ≤ length ["a.log"; "b.log"; "c.log"]%string)%nat
  ∧ (loop_cond (master three_files_end) = false
     ↔ length [2; 1; 2]%nat = length ["a.log"; "b.log"; "c.log"]%string)
  ∧ (sent (master three_files_end)).*2
    = take (length (sent (master three_files_end))) ["a.log"; "b.log"; "c.log"]%string
  ∧ (loop_cond (master three_files_end) = false →
     (sent (master three_files_end)).*2 = ["a.log"; "b.log"; "c.log"]%string
     ∧ tasks three_files_end = []
     ∧ results (master three_files_end)
       ≡ₚ analyse_log_file disk3 <$> ["a.log"; "b.log"; "c.log"]%string
     ∧ ∃ total, total_counts three_files_end = Some total
                ∧ once_each disk3 ["a.log"; "b.log"; "c.log"]%string = Some total).
Proof.
  split; [vm_compute; reflexivity |]. split; [vm_compute; reflexivity |].
  apply (parallel_run_counts_every_file_once disk3 3 ["a.log"; "b.log"; "c.log"]%string
           [2; 1; 2]%nat three_files_start three_files_end); vm_compute; reflexivity.
Defined.

Lemma step_succeeds disk sz files w x :
  parallel_inv disk sz files x → is_Some (next_task w (tasks x)) → is_Some (step disk w x).
Proof.
  intros [Hf Hs Hb Hm Hd Ht Hr Hp Hbusy] [[f rest] Hnt]. unfold step. rewrite Hnt.
  pose proof (dests_positive _ _ Hd) as Hpos.
  unfold on_result. rewrite Hm, Hf.
  destruct (bool_decide (0%nat ∈ _)) eqn:Hz; [| done].
  apply bool_decide_eq_true in Hz. apply zero_in_maps in Hz; [| done].
  set (k := length (sent (master x))) in *.
  replace (length files - k)%nat with (S (length files - (k + 1))) by lia.
  rewrite find_first_zero; [| done]. rewrite length_fmap. fold k.
  destruct (files !! k) as [g |] eqn:Hg; [done | apply lookup_ge_None in Hg; lia].
Qed.

Lemma some_answer_due disk sz files x :
  (2 ≤ sz)%nat → parallel_inv disk sz files x → loop_cond (master x) = true →
  ∃ w, (1 ≤ w < sz)%nat ∧ is_Some (next_task w (tasks x)).
Proof.
  intros Hsz Hinv Hc.
  destruct (loop_cond_inv _ _ _ _ Hinv) as (Hlen & Hcond & Hle & _).
  assert (Hne : tasks x ≠ []).
  { intros Hnil. pose proof (pinv_busy _ _ _ _ Hinv) as Hbusy.
    pose proof (pinv_recieved _ _ _ _ Hinv) as Hr. pose proof (pinv_bound _ _ _ _ Hinv) as Hb.
    rewrite Hnil in Hlen, Hbusy. cbn in Hlen, Hbusy.
    assert (recieved (master x) ≠ length files) by (rewrite <- Hcond; by rewrite Hc).
    lia. }
  pose proof (pinv_tasks _ _ _ _ Hinv) as Ht.
  destruct (tasks x) as [| [d f] ts]; [done |]. apply Forall_cons in Ht as [Hd _].
  exists d. split; [done |]. rewrite next_task_head. by eexists.
Qed.

Lemma run_to_the_end disk sz files (k : nat) x :
  (2 ≤ sz)%nat → parallel_inv disk sz files x →
  (length files - recieved (master x) = k)%nat →
  ∃ ws x', run disk ws x = Some x' ∧ loop_cond (master x') = false ∧ length ws = k.
Proof.
  intros Hsz. revert x. induction k as [| k IH]; intros x Hinv Hk.
  - exists [], x. split; [done |]. split; [| done].
    destruct (loop_cond_inv _ _ _ _ Hinv) as (_ & Hcond & Hle & _). apply Hcond. lia.
  - destruct (loop_cond_inv _ _ _ _ Hinv) as (_ & Hcond & Hle & _).
    assert (Hc : loop_cond (master x) = true).
    { destruct (loop_cond (master x)); [done |]. assert (recieved (master x) = length files)
        by by apply Hcond. lia. }
    destruct (some_answer_due _ _ _ _ Hsz Hinv Hc) as (w & _ & Hw).
    destruct (step_succeeds _ _ _ _ _ Hinv Hw) as [x1 Hstep].
    destruct (step_inv _ _ _ _ _ _ Hinv Hstep) as [Hinv1 Hrec].
    destruct (IH x1 Hinv1 ltac:(lia)) as (ws & x' & Hrun & Hend & Hlen).
    exists (w :: ws), x'. cbn [run]. rewrite Hc, Hstep. split; [done |]. split; [done |].
    cbn. lia.
Qed.

(** X27.  The command loop of the first stage-2 analyser never raises and,
    with at least one worker, never waits in vain.  In every state a run
    reaches while the loop condition holds: handling the answer of any
    worker that has a task to answer succeeds ([maps.index(0)] and
    [log_files[next_file]] do not raise); with [size >= 2] some worker has
    a task to answer, and answers can keep arriving until the loop ends,
    which takes exactly as many as there are files not yet answered.  Run
    as a single process no answer can ever arrive, so the loop blocks in
    [comm.recv] for ever. *)
Theorem parallel_run_never_stuck (disk : gmap string (list string)) (sz : nat)
    (files : list string) (ws : list nat) (x0 x : World) :
  (1 ≤ sz)%nat → start sz files = Some x0 → run disk ws x0 = Some x →
  loop_cond (master x) = true →
  (∀ w, is_Some (next_task w (tasks x)) → is_Some (step disk w x))
  ∧ ((2 ≤ sz)%nat →
     (∃ w, (1 ≤ w < sz)%nat ∧ is_Some (step disk w x))
     ∧ ∃ ws' x', run disk ws' x = Some x' ∧ loop_cond (master x') = false
                 ∧ length ws' = (length files - length ws)%nat)
  ∧ (sz = 1%nat → ∀ w, step disk w x = None).
Proof.
  intros Hsz Hstart Hrun Hc.
  pose proof (start_inv disk _ _ _ Hstart) as Hinv0.
  replace (S (sz - 1)) with sz in Hinv0 by lia.
  pose proof (initial_sends disk sz files (sz - 1) (le_n _)) as H0.
  unfold start in Hstart. rewrite Hstart in H0. destruct H0 as (_ & _ & _ & _ & Hres0).
  destruct (run_inv _ _ _ _ _ _ Hinv0 Hrun) as [Hinv Hrec].
  rewrite (pinv_recieved _ _ _ _ Hinv0), Hres0 in Hrec. cbn in Hrec.
  split; [| split].
  - intros w. apply (step_succeeds disk sz files w x Hinv).
  - intros Hsz2. split.
    + destruct (some_answer_due _ _ _ _ Hsz2 Hinv Hc) as (w & Hw & Hn).
      exists w. split; [done |]. by apply (step_succeeds disk sz files w x Hinv).
    + rewrite <- Hrec. by apply (run_to_the_end disk sz files _ x Hsz2 Hinv).
  - intros -> w. pose proof (pinv_tasks _ _ _ _ Hinv) as Ht. unfold step.
    destruct (tasks x) as [| [d f] ts]; [done |]. apply Forall_cons in Ht as [Hd _].
    cbn in Hd. lia.
Qed.

Lemma parallel_run_never_stuck_example :
  start 3 ["a.log"; "b.log"; "c.log"]%string = Some three_files_start
  ∧ run disk3 [2; 1]%nat three_files_start = Some three_files_middle
  ∧ (∀ w, is_Some (next_task w (tasks three_files_middle))
          → is_Some (step disk3 w three_files_middle))
  ∧ ((2 ≤ 3)%nat →
     (∃ w, (1 ≤ w < 3)%nat ∧ is_Some (step disk3 w three_files_middle))
     ∧ ∃ ws' x', run disk3 ws' three_files_middle = Some x' ∧ loop_cond (master x') = false
                 ∧ length ws' = (length ["a.log"; "b.log"; "c.log"]%string
                                 - length [2; 1]%nat)%nat)
  ∧ (3%nat = 1%nat → ∀ w, step disk3 w three_files_middle = None).
Proof.
  split; [vm_compute; reflexivity |]. split; [vm_compute; reflexivity |].
  apply (parallel_run_never_stuck disk3 3 ["a.log"; "b.log"; "c.log"]%string
           [2; 1]%nat three_files_start three_files_middle);
    [lia | vm_compute; reflexivity ..].
Defined.

(** X28.  The first sends of the first stage-2 analyser.  They raise
    [IndexError] exactly when there are more workers than files.  Otherwise
    worker [i] is sent the file at position [i-1], for every worker rank in
    order; [maps] records these ranks for the first [size-1] files and 0
    for the others; nothing has been received. *)
Theorem parallel_start_one_file_per_worker (sz : nat) (files : list string) :
  (start sz files = None ↔ (length files < sz - 1)%nat)
  ∧ ∀ x0, start sz files = Some x0 →
      sent (master x0) = zip (seq 1 (sz - 1)) (take (sz - 1) files)
      ∧ tasks x0 = sent (master x0)
      ∧ maps (master x0) = seq 1 (sz - 1) ++ replicate (length files - (sz - 1)) 0%nat
      ∧ log_files (master x0) = files
      ∧ results (master x0) = []
      ∧ recieved (master x0) = 0%nat.
Proof.
  pose proof (initial_sends ∅ sz files (sz - 1) (le_n _)) as H. unfold start.
  destruct (foldl send_initial _ (seq 1 (sz - 1))) as [x |].
  - destruct H as (Hle & Hinv & Hsent & Htasks & Hres). split; [split; [done | lia] |].
    intros x0 [= <-]. split; [done |]. split; [done |].
    assert (Hlen : length (sent (master x)) = (sz - 1)%nat).
    { rewrite Hsent, length_zip, length_seq, length_take. lia. }
    split; [| split; [| split]].
    + rewrite (pinv_maps _ _ _ _ Hinv), Hlen. f_equal. rewrite Hsent.
      apply fst_zip. rewrite length_seq, length_take. lia.
    + apply (pinv_files _ _ _ _ Hinv).
    + done.
    + by rewrite (pinv_recieved _ _ _ _ Hinv), Hres.
  - split; [done |]. done.
Qed.

End ParallelRuns.
